(** * Lambda-calculus kernel: AST, parser, beta reduction and linking

    A shallow embedding of [kernel.js] (the beta-reduction visualizer's
    core) and the properties of its specification.

    JavaScript strings are sequences of UTF-16 code units; the parser reads
    them one code unit at a time ([this.source[this.position]]), so a
    string is modelled as a list of code units.  JavaScript numbers that
    hold redex identifiers and counters are integers and are modelled in
    [Z]; a field that may be [null] is an [option]. *)

From Stdlib Require Import ZArith NArith List String Ascii DecimalString Lia.
From stdpp Require Import base option list gmap sets sorting.

Local Open Scope Z_scope.

(* [set_solver] clears hypotheses by name; the warning is noise. *)
Set Warnings "-clear-no-such-hyp".

(** ** Strings *)

Definition char : Type := N.
Definition jsstring : Type := list char.

(** ASCII literals, for readable examples. *)
Fixpoint str (s : string) : jsstring :=
  match s with
  | EmptyString => []
  | String a s' => N_of_ascii a :: str s'
  end.

(** The code units the kernel names explicitly. *)
Definition c_lambda : char := 955%N.    (* 'λ', U+03BB *)
Definition c_backslash : char := 92%N.  (* '\\' *)
Definition c_lparen : char := 40%N.     (* '(' *)
Definition c_rparen : char := 41%N.     (* ')' *)
Definition c_dot : char := 46%N.        (* '.' *)
Definition c_space : char := 32%N.      (* ' ' *)
Definition c_quote : char := 39%N.      (* "'" *)
Definition c_underscore : char := 95%N. (* '_' *)

(** ** AST node types *)

(** The three classes [Variable], [Abstraction] and [Application]; the
    constructor arguments are in the order of the JavaScript constructors.
    ([Variable] is a reserved word here, hence the underscore.) *)
Inductive Expr : Type :=
  | Variable_ (name : jsstring) (fromSubstitution : bool) (sourceId : option Z)
  | Abstraction (param : jsstring) (body : Expr)
                (fromSubstitution : bool) (sourceId : option Z)
  | Application (func arg : Expr) (id : option Z)
                (fromSubstitution : bool) (sourceId : option Z).

(** [new Variable(name)], [new Abstraction(param, body)] and
    [new Application(func, arg)] with the default arguments. *)
Definition newVariable (name : jsstring) : Expr := Variable_ name false None.
Definition newAbstraction (param : jsstring) (body : Expr) : Expr :=
  Abstraction param body false None.
Definition newApplication (func arg : Expr) : Expr :=
  Application func arg None false None.

Definition fromSubstitution (e : Expr) : bool :=
  match e with
  | Variable_ _ fs _ | Abstraction _ _ fs _ | Application _ _ _ fs _ => fs
  end.

Definition sourceId (e : Expr) : option Z :=
  match e with
  | Variable_ _ _ sid | Abstraction _ _ _ sid | Application _ _ _ _ sid => sid
  end.

(** [sourceId !== null ? sourceId : this.sourceId] *)
Definition pickSourceId (sourceId thisSourceId : option Z) : option Z :=
  match sourceId with
  | Some _ => sourceId
  | None => thisSourceId
  end.

(** The [clone] method of the three classes. *)
Fixpoint clone (this : Expr) (fromSubstitution : bool) (sourceId : option Z) : Expr :=
  match this with
  | Variable_ name fs sid =>
      Variable_ name (fromSubstitution || fs) (pickSourceId sourceId sid)
  | Abstraction param body fs sid =>
      Abstraction param (clone body fromSubstitution sourceId)
                  (fromSubstitution || fs) (pickSourceId sourceId sid)
  | Application func arg id fs sid =>
      Application (clone func fromSubstitution sourceId)
                  (clone arg fromSubstitution sourceId)
                  id (fromSubstitution || fs) (pickSourceId sourceId sid)
  end.

(** ** Beta reduction *)

Fixpoint freeVariables (expr : Expr) : gset jsstring :=
  match expr with
  | Variable_ name _ _ => {[ name ]}
  | Abstraction param body _ _ => freeVariables body ∖ {[ param ]}
  | Application func arg _ _ _ => freeVariables func ∪ freeVariables arg
  end.

(** [while (avoid.has(fresh)) fresh += "'"].  Every turn of the loop makes
    [fresh] longer, so it leaves the finite set [avoid] after at most
    [size avoid] turns; the loop is run with one more unit of fuel than
    that, and [None] stands for a loop that is still running when the fuel
    is gone ([freshName_loop_terminates] shows this never happens). *)
Fixpoint freshName_loop (fuel : nat) (fresh : jsstring) (avoid : gset jsstring)
  : option jsstring :=
  match fuel with
  | O => None
  | S fuel' =>
      if decide (fresh ∈ avoid)
      then freshName_loop fuel' (fresh ++ [c_quote]) avoid
      else Some fresh
  end.

Definition freshName (name : jsstring) (avoid : gset jsstring) : jsstring :=
  default name (freshName_loop (S (size avoid)) name avoid).

(** Nesting depth of a tree: the recursion depth of the traversals. *)
Fixpoint height (e : Expr) : nat :=
  match e with
  | Variable_ _ _ _ => 1
  | Abstraction _ body _ _ => S (height body)
  | Application func arg _ _ _ => S (Nat.max (height func) (height arg))
  end.

(** [substitute].  In the renaming branch the function calls itself on
    [renamedBody], which is a result of the function and not a subterm of
    [expr], so the recursion is on a fuel counter; [None] is a recursion
    that is cut off.  [substitute] runs it with fuel [height expr], which
    is always enough ([substitute_fuel_enough]). *)
Fixpoint substitute_fuel (fuel : nat) (expr : Expr) (varName : jsstring)
    (replacement : Expr) (markAsSubstituted : bool) (sourceId : option Z)
  : option Expr :=
  match fuel with
  | O => None
  | S fuel =>
      match expr with
      | Variable_ name _ _ =>
          if decide (name = varName)
          then Some (clone replacement markAsSubstituted sourceId)
          else Some expr
      | Abstraction param body fs sid =>
          if decide (param = varName) then Some expr
          else
            let replFree := freeVariables replacement in
            if decide (param ∈ replFree) then
              let allFree := (replFree ∪ freeVariables body) ∪ {[ varName ]} in
              let newParam := freshName param allFree in
              renamedBody ← substitute_fuel fuel body param
                                (newVariable newParam) false None;
              body' ← substitute_fuel fuel renamedBody varName replacement
                          markAsSubstituted sourceId;
              Some (Abstraction newParam body' fs sid)
            else
              body' ← substitute_fuel fuel body varName replacement
                          markAsSubstituted sourceId;
              Some (Abstraction param body' fs sid)
      | Application func arg id fs sid =>
          func' ← substitute_fuel fuel func varName replacement
                      markAsSubstituted sourceId;
          arg' ← substitute_fuel fuel arg varName replacement
                     markAsSubstituted sourceId;
          Some (Application func' arg' id fs sid)
      end
  end.

Definition substitute (expr : Expr) (varName : jsstring) (replacement : Expr)
    (markAsSubstituted : bool) (sourceId : option Z) : Expr :=
  default expr
    (substitute_fuel (height expr) expr varName replacement markAsSubstituted sourceId).

Definition isAbstraction (e : Expr) : bool :=
  match e with Abstraction _ _ _ _ => true | _ => false end.

Definition isRedex (expr : Expr) : bool :=
  match expr with
  | Application func _ _ _ _ => isAbstraction func
  | _ => false
  end.

(** [numberRedexes(expr, counter)]: the shared [counter] object is threaded
    through the calls; the result is the new tree and the counter's value
    when the call returns. *)
Fixpoint numberRedexes_from (expr : Expr) (counter : Z) : Expr * Z :=
  match expr with
  | Variable_ _ _ _ => (expr, counter)
  | Abstraction param body fs sid =>
      let '(body', counter) := numberRedexes_from body counter in
      (Abstraction param body' fs sid, counter)
  | Application func arg _ fs sid =>
      let '(id, counter) :=
        if isRedex expr then (Some counter, counter + 1) else (None, counter) in
      let '(func', counter) := numberRedexes_from func counter in
      let '(arg', counter) := numberRedexes_from arg counter in
      (Application func' arg' id fs sid, counter)
  end.

(** The default argument [counter = { val: 1 }]. *)
Definition numberRedexes (expr : Expr) : Expr := fst (numberRedexes_from expr 1).

Fixpoint clearSubstitutionMarks (expr : Expr) : Expr :=
  match expr with
  | Variable_ name _ _ => Variable_ name false None
  | Abstraction param body _ _ =>
      Abstraction param (clearSubstitutionMarks body) false None
  | Application func arg id _ _ =>
      Application (clearSubstitutionMarks func) (clearSubstitutionMarks arg)
                  id false None
  end.

(** [reduceAt(expr, targetId)]; [targetId] is compared with [===] to the
    [id] field, which may be [null]. *)
Fixpoint reduceAt (expr : Expr) (targetId : option Z) : Expr :=
  match expr with
  | Variable_ _ _ _ => expr
  | Abstraction param body fs sid =>
      Abstraction param (reduceAt body targetId) fs sid
  | Application func arg id fs sid =>
      if bool_decide (id = targetId) && isRedex expr then
        match func with
        | Abstraction lparam lbody _ _ => substitute lbody lparam arg true targetId
        | _ => expr
        end
      else
        Application (reduceAt func targetId) (reduceAt arg targetId) id fs sid
  end.

(** [getRedexCount]: [traverse] increments the enclosing [count]. *)
Fixpoint getRedexCount_traverse (e : Expr) (count : Z) : Z :=
  match e with
  | Variable_ _ _ _ => count
  | Abstraction _ body _ _ => getRedexCount_traverse body count
  | Application func arg _ _ _ =>
      let count := if isRedex e then count + 1 else count in
      let count := getRedexCount_traverse func count in
      getRedexCount_traverse arg count
  end.

Definition getRedexCount (expr : Expr) : Z := getRedexCount_traverse expr 0.

Definition appId (e : Expr) : option Z :=
  match e with Application _ _ id _ _ => id | _ => None end.

(** [getRedexes]: [traverse] pushes [{ id, expr }] on the enclosing array. *)
Fixpoint getRedexes_traverse (e : Expr) (redexes : list (option Z * Expr))
  : list (option Z * Expr) :=
  match e with
  | Variable_ _ _ _ => redexes
  | Abstraction _ body _ _ => getRedexes_traverse body redexes
  | Application func arg id _ _ =>
      let redexes := if isRedex e then redexes ++ [(id, e)] else redexes in
      let redexes := getRedexes_traverse func redexes in
      getRedexes_traverse arg redexes
  end.

Definition getRedexes (expr : Expr) : list (option Z * Expr) :=
  getRedexes_traverse expr [].

Fixpoint toPlainString (expr : Expr) : jsstring :=
  match expr with
  | Variable_ name _ _ => name
  | Abstraction param body _ _ =>
      [c_lambda] ++ param ++ [c_dot] ++ toPlainString body
  | Application func arg _ _ _ =>
      let funcNeedsParens := isAbstraction func in
      let argNeedsParens := isAbstraction arg in
      let funcStr :=
        if funcNeedsParens then [c_lparen] ++ toPlainString func ++ [c_rparen]
        else toPlainString func in
      let argStr :=
        if argNeedsParens then [c_lparen] ++ toPlainString arg ++ [c_rparen]
        else toPlainString arg in
      [c_lparen] ++ funcStr ++ [c_space] ++ argStr ++ [c_rparen]
  end.

(** ** Parser *)

(** Character predicates.  Their argument is what [currentChar()] returns:
    a one-unit string, or [undefined] ([None]) past the end of the source.
    [RegExp.prototype.test] converts its argument to a string, so on
    [undefined] the three regular expressions are tried on the text
    "undefined": it has no white space, and it has letters. *)
Definition inRange (lo hi c : N) : bool := ((lo <=? c) && (c <=? hi))%N.

Definition isLetter (c : char) : bool := inRange 97 122 c || inRange 65 90 c.
Definition isDigit (c : char) : bool := inRange 48 57 c.

(** The class [\s]: the white space and line terminator code units. *)
Definition isSpaceUnit (c : char) : bool :=
  inRange 9 13 c || (c =? 32)%N || (c =? 160)%N || (c =? 5760)%N
  || inRange 8192 8202 c || (c =? 8232)%N || (c =? 8233)%N || (c =? 8239)%N
  || (c =? 8287)%N || (c =? 12288)%N || (c =? 65279)%N.

Definition isNameUnit (c : char) : bool :=
  isLetter c || isDigit c || (c =? c_underscore)%N || (c =? c_quote)%N.

Definition isWhitespace (char : option char) : bool :=
  match char with Some c => isSpaceUnit c | None => false end.
Definition isLambdaStart (char : option char) : bool :=
  bool_decide (char = Some c_lambda) || bool_decide (char = Some c_backslash).
Definition isVariableStart (char : option char) : bool :=
  match char with Some c => isLetter c | None => true end.
Definition isVariableChar (char : option char) : bool :=
  match char with Some c => isNameUnit c | None => true end.
Definition isAtomStart (char : option char) : bool :=
  bool_decide (char = Some c_lparen) || isLambdaStart char || isVariableStart char.

(** [String.prototype.trim]: white space and line terminators are removed
    at both ends. *)
Fixpoint trimStart (s : jsstring) : jsstring :=
  match s with
  | c :: s' => if isSpaceUnit c then trimStart s' else s
  | [] => []
  end.

Definition trim (s : jsstring) : jsstring := rev (trimStart (rev (trimStart s))).

(** Decimal digits of a number, as in a template literal. *)
Definition decimal (n : nat) : jsstring :=
  str (NilZero.string_of_uint (Nat.to_uint n)).

(** What a parser method does: it returns a value and leaves the parser at
    a new [position], or it throws an [Error] with a message.  [OutOfFuel]
    is a run that is cut off by the recursion bound of the model; [parse]
    never ends there ([Parser.parse_total]). *)
Inductive Result (A : Type) : Type :=
  | Ok (value : A) (position : nat)
  | Throw (message : jsstring)
  | OutOfFuel.
Arguments Ok {A} value position.
Arguments Throw {A} message.
Arguments OutOfFuel {A}.

Definition bindResult {A B : Type} (r : Result A) (k : A → nat → Result B)
  : Result B :=
  match r with
  | Ok value position => k value position
  | Throw message => Throw message
  | OutOfFuel => OutOfFuel
  end.

Notation "'let*' ( x , p ) := r 'in' k" :=
  (bindResult r (fun x p => k))
  (at level 10, x name, p name, r at level 100, k at level 200,
   format "'[' 'let*'  ( x ,  p )  :=  r  'in' ']' '/' k").

Module Parser.
Section WithSource.

(** [this.source]; [this.position] is threaded through the methods. *)
Variable source : jsstring.

Definition currentChar (position : nat) : option char := source !! position.

Definition hasMore (position : nat) : bool :=
  bool_decide (position < length source)%nat.

(** [while (this.hasMore() && P(this.currentChar())) this.advance()].
    The loop runs at most once per remaining code unit, which is its
    bound here; when the bound is 0, [hasMore()] is false and the loop
    has stopped. *)
Fixpoint advanceWhile (P : option char → bool) (bound position : nat) : nat :=
  match bound with
  | O => position
  | S bound' =>
      if hasMore position && P (currentChar position)
      then advanceWhile P bound' (S position)
      else position
  end.

Definition skipWhitespace (position : nat) : nat :=
  advanceWhile isWhitespace (length source - position) position.

(** [source.slice(from, to)] for [0 <= from <= to]. *)
Definition slice (from to : nat) : jsstring :=
  take (to - from) (drop from source).

Definition error (message : jsstring) (position : nat) : jsstring :=
  let context := slice (position - 10) (position + 10) in
  let pointer := replicate (Nat.min 10 position) c_space ++ str "^" in
  message ++ str " at position " ++ decimal position
    ++ [10%N] ++ str "  " ++ context ++ [10%N] ++ str "  " ++ pointer.

Definition parseVariableName (position : nat) : Result jsstring :=
  let startPosition := position in
  let position :=
    advanceWhile isVariableChar (length source - position) position in
  let name := slice startPosition position in
  if bool_decide (length name = 0%nat)
  then Throw (error (str "Expected variable name") position)
  else Ok name position.

(** The text of [char] in a template literal. *)
Definition showChar (char : option char) : jsstring :=
  match char with Some c => [c] | None => str "undefined" end.

(** [parseAtom] and [parseExpr] call each other; [parseExpr_loop] is the
    [while (true)] loop of [parseExpr], with [result] the expression
    built so far. *)
Fixpoint parseAtom (fuel : nat) (position : nat) : Result Expr :=
  match fuel with
  | O => OutOfFuel
  | S fuel =>
      let position := skipWhitespace position in
      let char := currentChar position in
      if bool_decide (char = Some c_lparen) then
        let position := S position in
        let* (innerExpr, position) := parseExpr fuel position in
        let position := skipWhitespace position in
        if bool_decide (currentChar position ≠ Some c_rparen)
        then Throw (error (str "Expected ')'") position)
        else Ok innerExpr (S position)
      else if isLambdaStart char then
        let position := S position in
        let position := skipWhitespace position in
        let* (parameterName, position) := parseVariableName position in
        let position := skipWhitespace position in
        if bool_decide (currentChar position ≠ Some c_dot)
        then Throw (error (str "Expected '.' after lambda parameter") position)
        else
          let position := S position in
          let* (body, position) := parseExpr fuel position in
          Ok (newAbstraction parameterName body) position
      else if isVariableStart char then
        let* (name, position) := parseVariableName position in
        Ok (newVariable name) position
      else
        Throw (error (str "Unexpected character '" ++ showChar char ++ str "'")
                     position)
  end
with parseExpr (fuel : nat) (position : nat) : Result Expr :=
  match fuel with
  | O => OutOfFuel
  | S fuel =>
      let position := skipWhitespace position in
      let* (result, position) := parseAtom fuel position in
      parseExpr_loop fuel result position
  end
with parseExpr_loop (fuel : nat) (result : Expr) (position : nat) : Result Expr :=
  match fuel with
  | O => OutOfFuel
  | S fuel =>
      let position := skipWhitespace position in
      let char := currentChar position in
      let canContinue :=
        hasMore position && negb (bool_decide (char = Some c_rparen))
        && isAtomStart char in
      if negb canContinue then Ok result position
      else
        let* (nextAtom, position) := parseAtom fuel position in
        parseExpr_loop fuel (newApplication result nextAtom) position
  end.

(** The recursion bound used by [parse]: two calls per code unit. *)
Definition parseFuel : nat := 2 * length source + 2.

(** The method [parse()]; the parser starts at position 0. *)
Definition parse : Result Expr :=
  let* (result, position) := parseExpr parseFuel 0 in
  let position := skipWhitespace position in
  if hasMore position
  then Throw (error (str "Unexpected character (expected end of input)") position)
  else Ok result position.

End WithSource.

(* Proofs unfold the methods with their equations, not with [simpl]. *)
Arguments parseAtom : simpl never.
Arguments parseExpr : simpl never.
Arguments parseExpr_loop : simpl never.
Arguments error : simpl never.
End Parser.

(** [parse(input)]: the tree, or the message of the [Error] thrown.  The
    third case is the model's recursion bound and is never the answer
    ([parse_total]). *)
Inductive ParseOutcome : Type :=
  | Parsed (expr : Expr)
  | ThrownError (message : jsstring)
  | ParseCutOff.

Definition parse (input : jsstring) : ParseOutcome :=
  match Parser.parse (trim input) with
  | Ok result _ => Parsed result
  | Throw message => ThrownError message
  | OutOfFuel => ParseCutOff
  end.

(** ** The error a failed parse throws

    [Parser.error] returns [new Error(text)], where [text] is the string
    modelled by [Parser.error] above, and every caller throws that object
    as it is.  An object made by [new Error(text)] is an instance of the
    built-in class [Error], not of its subclass [SyntaxError], and
    [message] is its only own data property: the parser adds no field to
    it.  (The [stack] text that an engine attaches is left out.) *)
Record ErrorObject : Type := {
  error_class : jsstring;
  error_properties : gmap jsstring jsstring;
}.

Definition newError (message : jsstring) : ErrorObject :=
  {| error_class := str "Error";
     error_properties := {[ str "message" := message ]} |}.

(** What [parse(input)] throws, if it throws. *)
Definition thrownBy (input : jsstring) : option ErrorObject :=
  match parse input with
  | ThrownError message => Some (newError message)
  | _ => None
  end.

(** ** Linking logic *)

(** [getSubstitutions]: [traverse(e, inSubstitution)] fills the enclosing
    [Map] from source ids (possibly [null]) to arrays of nodes. *)
Fixpoint getSubstitutions_traverse (e : Expr) (inSubstitution : bool)
    (substitutions : gmap (option Z) (list Expr)) : gmap (option Z) (list Expr) :=
  let '(substitutions, inSubstitution) :=
    if fromSubstitution e && negb inSubstitution then
      let sourceId := sourceId e in
      let substitutions :=
        if bool_decide (substitutions !! sourceId = None)
        then <[ sourceId := [] ]> substitutions
        else substitutions in
      (alter (λ nodes, nodes ++ [e]) sourceId substitutions, true)
    else (substitutions, inSubstitution) in
  match e with
  | Variable_ _ _ _ => substitutions
  | Abstraction _ body _ _ =>
      getSubstitutions_traverse body inSubstitution substitutions
  | Application func arg _ _ _ =>
      let substitutions :=
        getSubstitutions_traverse func inSubstitution substitutions in
      getSubstitutions_traverse arg inSubstitution substitutions
  end.

Definition getSubstitutions (expr : Expr) : gmap (option Z) (list Expr) :=
  getSubstitutions_traverse expr false ∅.

(** [getRedex]: [find(e.func) || find(e.arg)] takes the first node found. *)
Fixpoint getRedex (e : Expr) (redexId : option Z) : option Expr :=
  match e with
  | Variable_ _ _ _ => None
  | Abstraction _ body _ _ => getRedex body redexId
  | Application func arg id _ _ =>
      if bool_decide (id = redexId) && isRedex e then Some e
      else
        match getRedex func redexId with
        | Some found => Some found
        | None => getRedex arg redexId
        end
  end.

(** ** Definitions used to state the properties *)

(** The members of [avoid] that the loop of [freshName] can still meet from
    [fresh] on: those at least as long as [fresh]. *)
Definition candidates (fresh : jsstring) (avoid : gset jsstring) : gset jsstring :=
  filter (λ s, length fresh ≤ length s)%nat avoid.

(** Binding structure.  A tree is read with its bound variables replaced by
    the distance to their binder (the number of abstractions in between)
    and its free variables left as names; marks and ids are dropped.  Two
    trees with the same reading are alpha-equivalent, and a variable
    occurrence is [NFree] exactly when no enclosing abstraction binds it. *)
Inductive Nameless : Type :=
  | NFree (name : jsstring)
  | NBound (index : nat)
  | NLam (body : Nameless)
  | NApp (func arg : Nameless).

(** Position of the nearest binder of [x] among the enclosing [binders],
    innermost first. *)
Fixpoint indexOf (x : jsstring) (binders : list jsstring) : option nat :=
  match binders with
  | [] => None
  | y :: binders' => if decide (x = y) then Some 0%nat else S <$> indexOf x binders'
  end.

Fixpoint nameless (binders : list jsstring) (e : Expr) : Nameless :=
  match e with
  | Variable_ name _ _ =>
      match indexOf name binders with
      | Some i => NBound i
      | None => NFree name
      end
  | Abstraction param body _ _ => NLam (nameless (param :: binders) body)
  | Application func arg _ _ _ => NApp (nameless binders func) (nameless binders arg)
  end.

(** Substitution on readings: every free occurrence of [x] is replaced by
    [r].  Nothing is renamed and nothing can be captured, because bound
    variables have no names here. *)
Fixpoint nsubst (x : jsstring) (r t : Nameless) : Nameless :=
  match t with
  | NFree y => if decide (y = x) then r else t
  | NBound _ => t
  | NLam body => NLam (nsubst x r body)
  | NApp func arg => NApp (nsubst x r func) (nsubst x r arg)
  end.

Definition isVariable (e : Expr) : bool :=
  match e with Variable_ _ _ _ => true | _ => false end.

(** The nodes of a tree, each with the subtree below it, in pre-order:
    the node itself, then [body], or [func] and then [arg]. *)
Fixpoint nodes (e : Expr) : list Expr :=
  e :: match e with
       | Variable_ _ _ _ => []
       | Abstraction _ body _ _ => nodes body
       | Application func arg _ _ _ => nodes func ++ nodes arg
       end.

(** A node as the constructors make it by default: no substitution mark,
    no source id and, on an application, no redex id. *)
Definition pristine (n : Expr) : Prop :=
  fromSubstitution n = false ∧ sourceId n = None ∧ appId n = None.

(** Variable names of the grammar: [[a-zA-Z][a-zA-Z0-9_']*]. *)
Definition validName (name : jsstring) : bool :=
  match name with
  | c :: rest => isLetter c && forallb isNameUnit rest
  | [] => false
  end.

(** A tree built by the constructors over valid variable names. *)
Fixpoint wellFormed (e : Expr) : bool :=
  match e with
  | Variable_ name _ _ => validName name
  | Abstraction param body _ _ => validName param && wellFormed body
  | Application func arg _ _ _ => wellFormed func && wellFormed arg
  end.

(** Structural equality that ignores [fromSubstitution], [sourceId] and
    [id] (the [astEqual] of the parser's property tests). *)
Fixpoint astEqual (a b : Expr) : bool :=
  match a, b with
  | Variable_ name1 _ _, Variable_ name2 _ _ => bool_decide (name1 = name2)
  | Abstraction param1 body1 _ _, Abstraction param2 body2 _ _ =>
      bool_decide (param1 = param2) && astEqual body1 body2
  | Application func1 arg1 _ _ _, Application func2 arg2 _ _ _ =>
      astEqual func1 func2 && astEqual arg1 arg2
  | _, _ => false
  end.

(** The tree with the same shape and names, built with the constructors'
    default arguments. *)
Fixpoint plain (e : Expr) : Expr :=
  match e with
  | Variable_ name _ _ => newVariable name
  | Abstraction param body _ _ => newAbstraction param (plain body)
  | Application func arg _ _ _ => newApplication (plain func) (plain arg)
  end.

(** The text of [func] and [arg] inside the text of an application. *)
Definition atomText (e : Expr) : jsstring :=
  if isAbstraction e then [c_lparen] ++ toPlainString e ++ [c_rparen]
  else toPlainString e.

(** What may follow a variable name, and what may follow an expression. *)
Definition stopsName (rest : jsstring) : Prop :=
  match rest with
  | [] => True
  | c :: _ => isNameUnit c = false
  end.

Definition closes (rest : jsstring) : Prop :=
  match rest with
  | [] => True
  | c :: _ => c = c_rparen
  end.

(** [text] is what the parser has before it at [position]. *)
Definition ahead (source : jsstring) (position : nat) (text : jsstring) : Prop :=
  drop position source = text.

(** Some node of [e] is a redex whose [id] is [targetId]. *)
Definition hasRedexWithId (e : Expr) (targetId : option Z) : bool :=
  existsb (λ n, bool_decide (appId n = targetId) && isRedex n) (nodes e).

(** Same shape, names, marks and source ids; the redex ids may differ. *)
Fixpoint sameExceptIds (a b : Expr) : bool :=
  match a, b with
  | Variable_ name1 fs1 sid1, Variable_ name2 fs2 sid2 =>
      bool_decide (name1 = name2) && bool_decide (fs1 = fs2)
      && bool_decide (sid1 = sid2)
  | Abstraction param1 body1 fs1 sid1, Abstraction param2 body2 fs2 sid2 =>
      bool_decide (param1 = param2) && sameExceptIds body1 body2
      && bool_decide (fs1 = fs2) && bool_decide (sid1 = sid2)
  | Application func1 arg1 _ fs1 sid1, Application func2 arg2 _ fs2 sid2 =>
      sameExceptIds func1 func2 && sameExceptIds arg1 arg2
      && bool_decide (fs1 = fs2) && bool_decide (sid1 = sid2)
  | _, _ => false
  end.

(** Same shape, names and redex ids; the marks and source ids may differ. *)
Fixpoint sameExceptMarks (a b : Expr) : bool :=
  match a, b with
  | Variable_ name1 _ _, Variable_ name2 _ _ => bool_decide (name1 = name2)
  | Abstraction param1 body1 _ _, Abstraction param2 body2 _ _ =>
      bool_decide (param1 = param2) && sameExceptMarks body1 body2
  | Application func1 arg1 id1 _ _, Application func2 arg2 id2 _ _ =>
      sameExceptMarks func1 func2 && sameExceptMarks arg1 arg2
      && bool_decide (id1 = id2)
  | _, _ => false
  end.

(** The redex [(λx.λx'.x x') x'] of the capture-avoidance example, and the
    self-application [(λx.x x) arg]. *)
Definition captureExample : Expr :=
  newApplication
    (newAbstraction (str "x")
       (newAbstraction (str "x'")
          (newApplication (newVariable (str "x")) (newVariable (str "x'")))))
    (newVariable (str "x'")).

Definition duplicationExample : Expr :=
  newApplication
    (newAbstraction (str "x")
       (newApplication (newVariable (str "x")) (newVariable (str "x"))))
    (newVariable (str "arg")).

(** Positions in a tree: the path from the root to a node, one step per
    field followed. *)
Inductive Step : Type := ToBody | ToFunc | ToArg.

Definition child (e : Expr) (s : Step) : option Expr :=
  match s, e with
  | ToBody, Abstraction _ body _ _ => Some body
  | ToFunc, Application func _ _ _ _ => Some func
  | ToArg, Application _ arg _ _ _ => Some arg
  | _, _ => None
  end.

Fixpoint nodeAt (e : Expr) (path : list Step) : option Expr :=
  match path with
  | [] => Some e
  | s :: path' =>
      match child e s with
      | Some c => nodeAt c path'
      | None => None
      end
  end.

(** All the positions of a tree, in pre-order. *)
Fixpoint positions (e : Expr) : list (list Step) :=
  [] :: match e with
        | Variable_ _ _ _ => []
        | Abstraction _ body _ _ => cons ToBody <$> positions body
        | Application func arg _ _ _ =>
            (cons ToFunc <$> positions func) ++ (cons ToArg <$> positions arg)
        end.

(** Some proper ancestor of the node at [path] has [fromSubstitution]. *)
Fixpoint markedAbove (e : Expr) (path : list Step) : bool :=
  match path with
  | [] => false
  | s :: path' =>
      fromSubstitution e
      || match child e s with
         | Some c => markedAbove c path'
         | None => false
         end
  end.

(** The node at [path] is marked, no ancestor of it is, and its source id
    is [k]; with [inSubstitution], the walk is already inside a
    substitution when it enters the tree. *)
Definition reportedFrom (e : Expr) (inSubstitution : bool) (k : option Z)
    (path : list Step) : bool :=
  match nodeAt e path with
  | Some n =>
      fromSubstitution n && negb (inSubstitution || markedAbove e path)
      && bool_decide (sourceId n = k)
  | None => false
  end.

Definition outermostMarked (e : Expr) (k : option Z) (path : list Step) : bool :=
  reportedFrom e false k path.

(** The nodes at the outermost marked positions with source id [k], in
    pre-order. *)
Definition outermostNodes (e : Expr) (k : option Z) : list Expr :=
  omap (nodeAt e) (filter (λ path, outermostMarked e k path) (positions e)).

(** An entry of the map: absent when there is nothing to list. *)
Definition entry (nodes : list Expr) : option (list Expr) :=
  match nodes with
  | [] => None
  | _ => Some nodes
  end.

(** The nodes that one call [traverse(e, inSubstitution)] pushes. *)
Fixpoint pushedFrom (e : Expr) (inSubstitution : bool) : list Expr :=
  (if fromSubstitution e && negb inSubstitution then [e] else [])
  ++ match e with
     | Variable_ _ _ _ => []
     | Abstraction _ body _ _ => pushedFrom body (inSubstitution || fromSubstitution e)
     | Application func arg _ _ _ =>
         pushedFrom func (inSubstitution || fromSubstitution e)
         ++ pushedFrom arg (inSubstitution || fromSubstitution e)
     end.

(** An array of the map after more nodes are pushed on it. *)
Definition extend (nodes : option (list Expr)) (more : list Expr)
  : option (list Expr) :=
  match more with
  | [] => nodes
  | _ => Some (default [] nodes ++ more)
  end.

(** The wording "marked, and the immediate ancestor does not belong to the
    same substitution", read node by node: the node at [path] is marked,
    and its parent, if it has one, is not a marked node with the same
    source id. *)
Definition markedApartFromParent (e : Expr) (path : list Step) : bool :=
  match nodeAt e path with
  | Some n =>
      fromSubstitution n
      && match path with
         | [] => true
         | _ :: _ =>
             match nodeAt e (removelast path) with
             | Some parent =>
                 negb (fromSubstitution parent
                       && bool_decide (sourceId parent = sourceId n))
             | None => true
             end
         end
  | None => false
  end.

(** [(λx.x x) (f ((λy.y) w))]: redex 1 is reduced, the result is numbered
    again, and then redex 2 (the second copy of the inner redex) is reduced
    without clearing the marks in between. *)
Definition nestedExample : Expr :=
  newApplication
    (newAbstraction (str "x")
       (newApplication (newVariable (str "x")) (newVariable (str "x"))))
    (newApplication (newVariable (str "f"))
       (newApplication (newAbstraction (str "y") (newVariable (str "y")))
                       (newVariable (str "w")))).

Definition nestedReduced : Expr :=
  reduceAt (numberRedexes (reduceAt (numberRedexes nestedExample) (Some 1))) (Some 2).

(** C5 read word for word: a node is reported, under its own source id,
    exactly when it is marked and its immediate ancestor is not a marked
    node of the same substitution. *)
Definition reportsApartFromParent : Prop :=
  ∀ e path n,
    nodeAt e path = Some n →
    (n ∈ default [] (getSubstitutions e !! sourceId n)
     ↔ markedApartFromParent e path = true).

(** ** Variable usage detection and linking records *)

Fixpoint variableAppearsIn (expr : Expr) (varName : jsstring) : bool :=
  match expr with
  | Variable_ name _ _ => bool_decide (name = varName)
  | Abstraction param body _ _ =>
      if bool_decide (param = varName) then false
      else variableAppearsIn body varName
  | Application func arg _ _ _ =>
      variableAppearsIn func varName || variableAppearsIn arg varName
  end.

Definition isArgumentUsed (redexExpr : Expr) : bool :=
  if negb (isRedex redexExpr) then false
  else
    match redexExpr with
    | Application (Abstraction lparam lbody _ _) _ _ _ _ =>
        variableAppearsIn lbody lparam
    | _ => false
    end.

(** [findVariableUses]: [traverse] pushes the nodes on the enclosing array
    [uses]. *)
Fixpoint findVariableUses_traverse (e : Expr) (varName : jsstring)
    (uses : list Expr) : list Expr :=
  match e with
  | Variable_ name _ _ =>
      if bool_decide (name = varName) then uses ++ [e] else uses
  | Abstraction param body _ _ =>
      if bool_decide (param ≠ varName)
      then findVariableUses_traverse body varName uses
      else uses
  | Application func arg _ _ _ =>
      let uses := findVariableUses_traverse func varName uses in
      findVariableUses_traverse arg varName uses
  end.

Definition findVariableUses (expr : Expr) (varName : jsstring) : list Expr :=
  findVariableUses_traverse expr varName [].

Definition getParameterUses (redexExpr : Expr) : list Expr :=
  if negb (isRedex redexExpr) then []
  else
    match redexExpr with
    | Application (Abstraction lparam lbody _ _) _ _ _ _ =>
        findVariableUses lbody lparam
    | _ => []
    end.

(** [getRedexArg]: like [getRedex], but the argument of the redex found. *)
Fixpoint getRedexArg (e : Expr) (redexId : option Z) : option Expr :=
  match e with
  | Variable_ _ _ _ => None
  | Abstraction _ body _ _ => getRedexArg body redexId
  | Application func arg id _ _ =>
      if bool_decide (id = redexId) && isRedex e then Some arg
      else
        match getRedexArg func redexId with
        | Some found => Some found
        | None => getRedexArg arg redexId
        end
  end.

(** The [arg] field of a node ([redex.arg], used on applications only). *)
Definition argOf (e : Expr) : option Expr :=
  match e with
  | Application _ arg _ _ _ => Some arg
  | _ => None
  end.

(** The object that [getLinkingInfo] returns.  [sourceId] is a field of the
    nodes already, hence the prefix. *)
Record LinkingInfo : Type := {
  li_sourceArg : option Expr;
  li_substitutedNodes : list Expr;
  li_sourceId : option Z;
  li_hasSubstitutions : bool;
  li_wasUsed : bool
}.

Definition getLinkingInfo (beforeExpr afterExpr : Expr) (reducedId : option Z)
  : LinkingInfo :=
  let redex := getRedex beforeExpr reducedId in
  let sourceArg := match redex with Some r => argOf r | None => None end in
  let wasUsed := match redex with Some r => isArgumentUsed r | None => false end in
  let substitutions := getSubstitutions afterExpr in
  let substitutedNodes := default [] (substitutions !! reducedId) in
  {| li_sourceArg := sourceArg;
     li_substitutedNodes := substitutedNodes;
     li_sourceId := reducedId;
     li_hasSubstitutions := bool_decide (0 < length substitutedNodes)%nat;
     li_wasUsed := wasUsed |}.

(** The object that [getFullLinkingInfo] returns. *)
Record FullLinkingInfo : Type := {
  fli_sourceArg : option Expr;
  fli_parameterUses : list Expr;
  fli_substitutedNodes : list Expr;
  fli_sourceId : option Z;
  fli_hasSubstitutions : bool;
  fli_wasUsed : bool
}.

Definition getFullLinkingInfo (beforeExpr afterExpr : Expr) (reducedId : option Z)
  : FullLinkingInfo :=
  let redex := getRedex beforeExpr reducedId in
  let sourceArg := match redex with Some r => argOf r | None => None end in
  let wasUsed := match redex with Some r => isArgumentUsed r | None => false end in
  let parameterUses := match redex with Some r => getParameterUses r | None => [] end in
  let substitutions := getSubstitutions afterExpr in
  let substitutedNodes := default [] (substitutions !! reducedId) in
  {| fli_sourceArg := sourceArg;
     fli_parameterUses := parameterUses;
     fli_substitutedNodes := substitutedNodes;
     fli_sourceId := reducedId;
     fli_hasSubstitutions := bool_decide (0 < length substitutedNodes)%nat;
     fli_wasUsed := wasUsed |}.

(** A step of a reduction history, [{ expr, reducedId }], and the same with
    its [linkingInfo] ([null] when there is none). *)
Record Step_ : Type := { st_expr : Expr; st_reducedId : option Z }.

Record LinkedStep : Type := {
  ls_expr : Expr;
  ls_reducedId : option Z;
  ls_linkingInfo : option LinkingInfo
}.

(** [steps.map((step, index) => ...)]: [previous] is [steps[index - 1]],
    absent at index 0. *)
Fixpoint buildLinkingChain_from (previous : option Step_) (steps : list Step_)
  : list LinkedStep :=
  match steps with
  | [] => []
  | step :: steps' =>
      let linkingInfo :=
        match previous, st_reducedId step with
        | Some prev, Some _ =>
            Some (getLinkingInfo (st_expr prev) (st_expr step) (st_reducedId step))
        | _, _ => None
        end in
      {| ls_expr := st_expr step; ls_reducedId := st_reducedId step;
         ls_linkingInfo := linkingInfo |}
      :: buildLinkingChain_from (Some step) steps'
  end.

Definition buildLinkingChain (steps : list Step_) : list LinkedStep :=
  buildLinkingChain_from None steps.

(** The helpers of the linking tests: [reduceStep(expr, redexId)] and
    [setup(exprString)]. *)
Definition reduceStep (expr : Expr) (redexId : option Z) : Expr :=
  let cleared := clearSubstitutionMarks expr in
  let numbered := numberRedexes cleared in
  let reduced := reduceAt numbered redexId in
  numberRedexes reduced.

Definition setup (exprString : jsstring) : ParseOutcome :=
  match parse exprString with
  | Parsed e => Parsed (numberRedexes e)
  | other => other
  end.

(** A history as the linking tests record it: after each [reduceStep], the
    new tree with the id that was reduced. *)
Fixpoint history (expr : Expr) (ids : list Z) : list Step_ :=
  match ids with
  | [] => []
  | id :: ids' =>
      let next := reduceStep expr (Some id) in
      {| st_expr := next; st_reducedId := Some id |} :: history next ids'
  end.

(** What the parser takes as a lambda parameter: [parseVariableName] does
    not look at how the name starts, only that it is not empty. *)
Definition paramName (name : jsstring) : bool :=
  match name with
  | [] => false
  | _ :: _ => forallb isNameUnit name
  end.

(** A tree the parser can produce: variable names as in the grammar,
    parameters as [parseVariableName] reads them. *)
Fixpoint readable (e : Expr) : bool :=
  match e with
  | Variable_ name _ _ => validName name
  | Abstraction param body _ _ => paramName param && readable body
  | Application func arg _ _ _ => readable func && readable arg
  end.

(** Readings under one more binder: an index is inserted at depth
    [cutoff], the indices from there on go up by one. *)
Fixpoint nlift (cutoff : nat) (t : Nameless) : Nameless :=
  match t with
  | NFree _ => t
  | NBound i => if decide (i < cutoff)%nat then NBound i else NBound (S i)
  | NLam body => NLam (nlift (S cutoff) body)
  | NApp func arg => NApp (nlift cutoff func) (nlift cutoff arg)
  end.

(** What is left of the body [t] of a redex when its binder goes away:
    the occurrences of the binder, index [k], are replaced by [r], and
    the indices that pointed beyond it go down by one. *)
Fixpoint ninst (k : nat) (r t : Nameless) : Nameless :=
  match t with
  | NFree _ => t
  | NBound i =>
      if decide (i < k)%nat then NBound i
      else if decide (i = k) then r
      else NBound (pred i)
  | NLam body => NLam (ninst (S k) (nlift 0 r) body)
  | NApp func arg => NApp (ninst k r func) (ninst k r arg)
  end.

(** One step of beta reduction on readings: one redex [(λ.body) arg],
    anywhere in the term, is replaced by [body] with [arg] for its
    binder. *)
Inductive betaStep : Nameless → Nameless → Prop :=
  | beta_redex body arg :
      betaStep (NApp (NLam body) arg) (ninst 0 arg body)
  | beta_body body body' :
      betaStep body body' → betaStep (NLam body) (NLam body')
  | beta_func func func' arg :
      betaStep func func' → betaStep (NApp func arg) (NApp func' arg)
  | beta_arg func arg arg' :
      betaStep arg arg' → betaStep (NApp func arg) (NApp func arg').

(** ** The renderer of the command line

    [renderInternal] of [cli.js] returns the text of a tree twice, styled
    ([display], built with the chalk library and not modelled) and bare
    ([plain]), together with the places of the redex ids in the bare
    text.  A colour is named by how the source makes it. *)

Record RainbowColor : Type := {
  rc_fn : jsstring;
  rc_r : Z;
  rc_g : Z;
  rc_b : Z;
}.

Definition RAINBOW_COLORS_WITH_RGB : list RainbowColor := [
  {| rc_fn := str "#00FF7F"; rc_r := 0; rc_g := 255; rc_b := 127 |};
  {| rc_fn := str "cyan"; rc_r := 0; rc_g := 255; rc_b := 255 |};
  {| rc_fn := str "#00BFFF"; rc_r := 0; rc_g := 191; rc_b := 255 |};
  {| rc_fn := str "#1E90FF"; rc_r := 30; rc_g := 144; rc_b := 255 |};
  {| rc_fn := str "#6495ED"; rc_r := 100; rc_g := 149; rc_b := 237 |};
  {| rc_fn := str "#40E0D0"; rc_r := 64; rc_g := 224; rc_b := 208 |};
  {| rc_fn := str "#3CB371"; rc_r := 60; rc_g := 179; rc_b := 113 |}
].

Definition RAINBOW_COLORS : list jsstring :=
  rc_fn <$> filter (λ c, rc_r c < rc_g c ∧ rc_r c < rc_b c) RAINBOW_COLORS_WITH_RGB.

(** [RAINBOW_COLORS[depth % RAINBOW_COLORS.length]]. *)
Definition getColorForDepth (depth : nat) : option jsstring :=
  RAINBOW_COLORS !! (depth mod length RAINBOW_COLORS)%nat.

(** An entry [{ id, pos, color }] of [ids]. *)
Record IdMark : Type := {
  im_id : Z;
  im_pos : nat;
  im_color : option jsstring;
}.

(** [{ ...id, pos: id.pos + offset }]. *)
Definition shifted (offset : nat) (id : IdMark) : IdMark :=
  {| im_id := im_id id; im_pos := (im_pos id + offset)%nat; im_color := im_color id |}.

Record Rendered : Type := {
  r_plain : jsstring;
  r_ids : list IdMark;
}.

Fixpoint renderInternal (expr : Expr) (depth : nat) : Rendered :=
  match expr with
  | Variable_ name _ _ => {| r_plain := name; r_ids := [] |}
  | Abstraction param body _ _ =>
      let lambdaText := [c_lambda] in
      let paramText := param in
      let dotText := [c_dot] in
      let body := renderInternal body depth in
      let plain := lambdaText ++ paramText ++ dotText ++ r_plain body in
      let offset := (length lambdaText + length paramText + length dotText)%nat in
      let ids := shifted offset <$> r_ids body in
      {| r_plain := plain; r_ids := ids |}
  | Application func arg id _ _ =>
      let color := getColorForDepth depth in
      let funcResult := renderInternal func (depth + 1) in
      let argResult := renderInternal arg (depth + 1) in
      let plain :=
        [c_lparen] ++ r_plain funcResult ++ [c_space] ++ r_plain argResult
          ++ [c_rparen] in
      let funcOffset := 1%nat in
      let argOffset := (1 + length (r_plain funcResult) + 1)%nat in
      let ids :=
        (shifted funcOffset <$> r_ids funcResult)
          ++ (shifted argOffset <$> r_ids argResult) in
      let ids :=
        match id with
        | Some id => {| im_id := id; im_pos := 0; im_color := color |} :: ids
        | None => ids
        end in
      {| r_plain := plain; r_ids := ids |}
  end.

(** The parentheses [toPlainString] puts around the operands of an
    application that are abstractions. *)
Definition operandParens (n : Expr) : nat :=
  match n with
  | Application func arg _ _ _ =>
      (if isAbstraction func then 2 else 0) + (if isAbstraction arg then 2 else 0)
  | _ => 0
  end.

(** The text with every ['λ'] written as a backslash. *)
Definition asBackslash (input : jsstring) : jsstring :=
  (λ c, if decide (c = c_lambda) then c_backslash else c) <$> input.

(** What [parse] does with two texts is the same: the same tree, or an
    error in both cases (the messages quote the text and may differ). *)
Definition sameOutcome (a b : ParseOutcome) : Prop :=
  match a, b with
  | Parsed e, Parsed e' => e = e'
  | ThrownError _, ThrownError _ => True
  | ParseCutOff, ParseCutOff => True
  | _, _ => False
  end.

(** The same for the results of the parser's methods. *)
Definition sameResult {A} (a b : Result A) : Prop :=
  match a, b with
  | Ok v p, Ok v' p' => v = v' ∧ p = p'
  | Throw _, Throw _ => True
  | OutOfFuel, OutOfFuel => True
  | _, _ => False
  end.

(** Where the bare text of the node at [path] begins in the bare text of
    [e]: what stands before it is the opening parenthesis and, for an
    [arg], the text of [func] and a space, or the lambda, the parameter
    and the dot. *)
Fixpoint offsetOf (e : Expr) (path : list Step) {struct path} : option nat :=
  match path with
  | [] => Some 0%nat
  | s :: path' =>
      match s, e with
      | ToBody, Abstraction param body _ _ =>
          (λ o, 1 + length param + 1 + o)%nat <$> offsetOf body path'
      | ToFunc, Application func _ _ _ _ =>
          (λ o, 1 + o)%nat <$> offsetOf func path'
      | ToArg, Application func arg _ _ _ =>
          (λ o, 1 + length (r_plain (renderInternal func 0)) + 1 + o)%nat
            <$> offsetOf arg path'
      | _, _ => None
      end
  end.

(** The number of applications the node at [path] is an operand of, one
    inside the other. *)
Fixpoint applicationsAbove (path : list Step) : nat :=
  match path with
  | [] => 0
  | ToBody :: path' => applicationsAbove path'
  | _ :: path' => S (applicationsAbove path')
  end.

(** The id mark of the node at [path], if that node is an application
    with an id: the id, the place where the node's own text begins, and
    the colour of its nesting depth. *)
Definition markAt (expr : Expr) (depth : nat) (path : list Step) : option IdMark :=
  match nodeAt expr path with
  | Some node =>
      match appId node, offsetOf expr path with
      | Some id, Some pos =>
          Some {| im_id := id; im_pos := pos;
                  im_color := getColorForDepth (depth + applicationsAbove path) |}
      | _, _ => None
      end
  | None => None
  end.

(** * Properties *)

(** ** Fresh names *)

Section FreshName.
Implicit Types (fresh name : jsstring) (avoid : gset jsstring).

Lemma candidates_shrink fresh avoid :
  fresh ∈ avoid →
  (size (candidates (fresh ++ [c_quote]) avoid) < size (candidates fresh avoid))%nat.
Proof.
  intros Hin. apply subset_size. unfold candidates. split.
  - intros s. rewrite !elem_of_filter, length_app. simpl. intros [? ?]. split; [lia|done].
  - intros Hsub. specialize (Hsub fresh).
    rewrite !elem_of_filter, length_app in Hsub. simpl in Hsub.
    destruct Hsub as [? _]; [split; [lia|done] | lia].
Qed.

Lemma replicate_quote_shift fresh j :
  (fresh ++ [c_quote]) ++ replicate j c_quote = fresh ++ replicate (S j) c_quote.
Proof. by rewrite <- app_assoc. Qed.

Lemma freshName_loop_spec fuel : ∀ fresh avoid,
  (size (candidates fresh avoid) < fuel)%nat →
  ∃ k, freshName_loop fuel fresh avoid = Some (fresh ++ replicate k c_quote)
       ∧ (fresh ++ replicate k c_quote ∉ avoid)
       ∧ ∀ j, (j < k)%nat → fresh ++ replicate j c_quote ∈ avoid.
Proof.
  induction fuel as [|fuel IH]; intros fresh avoid Hsize; [lia|].
  simpl. destruct (decide (fresh ∈ avoid)) as [Hin|Hout].
  - destruct (IH (fresh ++ [c_quote]) avoid) as (k & Hrun & Habs & Hmin).
    { pose proof (candidates_shrink fresh avoid Hin). lia. }
    exists (S k). rewrite <- replicate_quote_shift. split_and!; [done..|].
    intros [|j] Hj.
    + simpl. by rewrite app_nil_r.
    + rewrite <- replicate_quote_shift. apply Hmin. lia.
  - exists 0%nat. simpl. rewrite app_nil_r. split_and!; [done..|].
    intros j Hj. lia.
Qed.

Lemma candidates_size fresh avoid : (size (candidates fresh avoid) ≤ size avoid)%nat.
Proof. apply subseteq_size. unfold candidates. intros s. rewrite elem_of_filter. tauto. Qed.

(** The loop of [freshName] ends within the fuel it is given. *)
Lemma freshName_loop_terminates name avoid :
  freshName_loop (S (size avoid)) name avoid = Some (freshName name avoid).
Proof.
  destruct (freshName_loop_spec (S (size avoid)) name avoid) as (k & Hrun & _).
  { pose proof (candidates_size name avoid). lia. }
  unfold freshName. by rewrite Hrun.
Qed.

Lemma freshName_spec name avoid :
  ∃ k, freshName name avoid = name ++ replicate k c_quote
       ∧ (name ++ replicate k c_quote ∉ avoid)
       ∧ ∀ j, (j < k)%nat → name ++ replicate j c_quote ∈ avoid.
Proof.
  destruct (freshName_loop_spec (S (size avoid)) name avoid) as (k & Hrun & ?).
  { pose proof (candidates_size name avoid). lia. }
  exists k. unfold freshName. by rewrite Hrun.
Qed.

Lemma freshName_fresh name avoid : freshName name avoid ∉ avoid.
Proof. destruct (freshName_spec name avoid) as (k & -> & ? & _). done. Qed.

End FreshName.

(** C9. [freshName(base, avoidSet)] terminates (its loop ends within
    [size avoidSet + 1] turns) and returns [base] followed by the least
    number [k] of apostrophes for which the result is not in [avoidSet]:
    the names with fewer apostrophes are all in the set.  Being a function
    of its two arguments it is deterministic, and [k] is unique. *)
Theorem freshName_minimal_apostrophes base avoidSet :
  freshName_loop (S (size avoidSet)) base avoidSet = Some (freshName base avoidSet)
  ∧ ∃ k, freshName base avoidSet = base ++ replicate k c_quote
         ∧ (freshName base avoidSet ∉ avoidSet)
         ∧ Forall (λ j, base ++ replicate j c_quote ∈ avoidSet) (seq 0 k).
Proof.
  split; [apply freshName_loop_terminates|].
  destruct (freshName_spec base avoidSet) as (k & Heq & Hout & Hmin).
  exists k. rewrite Heq. split_and!; [done..|].
  apply Forall_forall. intros j Hj%list_elem_of_In%in_seq. apply Hmin. lia.
Qed.

(** ** Substitution: the recursion bound, and the equations of the source *)

Lemma height_clone e m s : height (clone e m s) = height e.
Proof. induction e; simpl; congruence. Qed.

Lemma freeVariables_clone e m s : freeVariables (clone e m s) = freeVariables e.
Proof. induction e; simpl; congruence. Qed.

Lemma substitute_fuel_total fuel : ∀ e x r m s,
  (height e ≤ fuel)%nat →
  ∃ e', substitute_fuel fuel e x r m s = Some e'
        ∧ (isVariable r = true → height e' = height e).
Proof.
  induction fuel as [|fuel IH]; intros e x r m s Hh.
  { destruct e; simpl in Hh; lia. }
  destruct e as [name fs sid | param body fs sid | func arg id fs sid]; simpl in *.
  - destruct (decide (name = x)); eexists; (split; [done|]); [|done].
    intros Hr. rewrite height_clone. by destruct r.
  - destruct (decide (param = x)); [by eexists|].
    destruct (decide (param ∈ freeVariables r)).
    + destruct (IH body param
                  (newVariable (freshName param (freeVariables r ∪ freeVariables body ∪ {[x]})))
                  false None) as (b1 & -> & Hb1); [lia|].
      specialize (Hb1 eq_refl). simpl.
      destruct (IH b1 x r m s) as (b2 & -> & Hb2); [lia|].
      simpl. eexists; split; [done|]. intros Hr. simpl. rewrite (Hb2 Hr). lia.
    + destruct (IH body x r m s) as (b2 & -> & Hb2); [lia|].
      simpl. eexists; split; [done|]. intros Hr. simpl. by rewrite (Hb2 Hr).
  - destruct (IH func x r m s) as (f' & -> & Hf); [lia|].
    destruct (IH arg x r m s) as (a' & -> & Ha); [lia|].
    simpl. eexists; split; [done|]. intros Hr. simpl. by rewrite (Hf Hr), (Ha Hr).
Qed.

Lemma substitute_fuel_S fuel : ∀ e x r m s e',
  substitute_fuel fuel e x r m s = Some e' →
  substitute_fuel (S fuel) e x r m s = Some e'.
Proof.
  induction fuel as [|fuel IH]; intros e x r m s e' Hrun; [done|].
  remember (S fuel) as fuel1 eqn:Hfuel1. rewrite Hfuel1 in Hrun at 1.
  destruct e as [name fs sid | param body fs sid | func arg id fs sid];
    simpl in Hrun |- *.
  - done.
  - destruct (decide (param = x)); [done|].
    destruct (decide (param ∈ freeVariables r)).
    + destruct (substitute_fuel fuel body _ _ _ _) as [b1|] eqn:Hb1; [|done].
      simpl in Hrun.
      destruct (substitute_fuel fuel b1 _ _ _ _) as [b2|] eqn:Hb2; [|done].
      subst fuel1. rewrite (IH _ _ _ _ _ _ Hb1). cbn [mbind option_bind]. by rewrite (IH _ _ _ _ _ _ Hb2).
    + destruct (substitute_fuel fuel body _ _ _ _) as [b2|] eqn:Hb2; [|done].
      subst fuel1. by rewrite (IH _ _ _ _ _ _ Hb2).
  - destruct (substitute_fuel fuel func _ _ _ _) as [f'|] eqn:Hf; [|done].
    simpl in Hrun.
    destruct (substitute_fuel fuel arg _ _ _ _) as [a'|] eqn:Ha; [|done].
    subst fuel1. rewrite (IH _ _ _ _ _ _ Hf). cbn [mbind option_bind]. by rewrite (IH _ _ _ _ _ _ Ha).
Qed.

Lemma substitute_fuel_mono fuel fuel' e x r m s e' :
  (fuel ≤ fuel')%nat →
  substitute_fuel fuel e x r m s = Some e' →
  substitute_fuel fuel' e x r m s = Some e'.
Proof.
  induction 1 as [|fuel' _ IH]; [done|].
  intros Hrun. by apply substitute_fuel_S, IH.
Qed.

(** With fuel [height expr] or more the recursion is never cut off, and
    the result does not depend on the fuel. *)
Lemma substitute_fuel_enough fuel e x r m s :
  (height e ≤ fuel)%nat →
  substitute_fuel fuel e x r m s = Some (substitute e x r m s).
Proof.
  intros Hh.
  destruct (substitute_fuel_total (height e) e x r m s) as (e' & Hrun & _); [done|].
  unfold substitute. rewrite Hrun. simpl.
  by apply (substitute_fuel_mono (height e)).
Qed.

Lemma height_substitute_variable e x name fs sid m s :
  height (substitute e x (Variable_ name fs sid) m s) = height e.
Proof.
  destruct (substitute_fuel_total (height e) e x (Variable_ name fs sid) m s)
    as (e' & Hrun & Hh); [done|].
  unfold substitute. rewrite Hrun. simpl. by apply Hh.
Qed.

(** The three cases of [substitute], as the source has them. *)
Lemma substitute_Variable name fs sid x r m s :
  substitute (Variable_ name fs sid) x r m s =
  if decide (name = x) then clone r m s else Variable_ name fs sid.
Proof. unfold substitute. simpl. by destruct (decide (name = x)). Qed.

Lemma substitute_Abstraction param body fs sid x r m s :
  substitute (Abstraction param body fs sid) x r m s =
  if decide (param = x) then Abstraction param body fs sid
  else if decide (param ∈ freeVariables r) then
    let allFree := freeVariables r ∪ freeVariables body ∪ {[ x ]} in
    let newParam := freshName param allFree in
    let renamedBody := substitute body param (newVariable newParam) false None in
    Abstraction newParam (substitute renamedBody x r m s) fs sid
  else Abstraction param (substitute body x r m s) fs sid.
Proof.
  unfold substitute at 1. simpl.
  destruct (decide (param = x)); [done|].
  destruct (decide (param ∈ freeVariables r)).
  - rewrite (substitute_fuel_enough (height body) body) by done. simpl.
    rewrite substitute_fuel_enough; [done|].
    unfold newVariable. by rewrite height_substitute_variable.
  - by rewrite substitute_fuel_enough.
Qed.

Lemma substitute_Application func arg id fs sid x r m s :
  substitute (Application func arg id fs sid) x r m s =
  Application (substitute func x r m s) (substitute arg x r m s) id fs sid.
Proof.
  unfold substitute at 1. simpl.
  rewrite (substitute_fuel_enough _ func) by lia. simpl.
  by rewrite (substitute_fuel_enough _ arg) by lia.
Qed.

(** ** Free variables of a substitution *)

Lemma freeVariables_substitute_height n : ∀ e x r m s,
  (height e ≤ n)%nat →
  freeVariables (substitute e x r m s) =
  if decide (x ∈ freeVariables e)
  then (freeVariables e ∖ {[ x ]}) ∪ freeVariables r
  else freeVariables e.
Proof.
  induction n as [|n IH]; intros e x r m s Hh.
  { destruct e; simpl in Hh; lia. }
  destruct e as [name fs sid | param body fs sid | func arg id fs sid]; simpl in Hh.
  - rewrite substitute_Variable. simpl.
    destruct (decide (name = x)) as [->|Hne].
    + rewrite freeVariables_clone. case_decide; set_solver.
    + simpl. case_decide; set_solver.
  - rewrite substitute_Abstraction. simpl.
    destruct (decide (param = x)) as [->|Hne].
    { simpl. case_decide; set_solver. }
    destruct (decide (param ∈ freeVariables r)) as [Hin|Hout]; simpl.
    + set (q := freshName param (freeVariables r ∪ freeVariables body ∪ {[x]})).
      pose proof (freshName_fresh param (freeVariables r ∪ freeVariables body ∪ {[x]}))
        as Hq. fold q in Hq.
      rewrite IH by (unfold newVariable; rewrite height_substitute_variable; lia).
      rewrite (IH body) by lia. simpl.
      clear IH Hh. repeat case_decide; set_solver.
    + rewrite IH by lia. clear IH Hh. repeat case_decide; set_solver.
  - rewrite substitute_Application. simpl.
    rewrite (IH func), (IH arg) by lia.
    clear IH Hh. repeat case_decide; set_solver.
Qed.

Lemma freeVariables_substitute e x r m s :
  freeVariables (substitute e x r m s) =
  if decide (x ∈ freeVariables e)
  then (freeVariables e ∖ {[ x ]}) ∪ freeVariables r
  else freeVariables e.
Proof. by apply (freeVariables_substitute_height (height e)). Qed.

(** ** Binding structure of a substitution *)

Lemma nameless_clone binders e m s : nameless binders (clone e m s) = nameless binders e.
Proof. revert binders. induction e; intros binders; simpl; congruence. Qed.

Lemma indexOf_None x binders : x ∉ binders → indexOf x binders = None.
Proof.
  induction binders as [|y binders IH]; [done|].
  intros Hx. simpl. rewrite decide_False by set_solver.
  rewrite IH by set_solver. done.
Qed.

Lemma indexOf_is_Some x binders : x ∈ binders → is_Some (indexOf x binders).
Proof.
  induction binders as [|y binders IH]; [set_solver|].
  intros Hx. simpl. destruct (decide (x = y)); [by eexists|].
  destruct IH as [i ->]; [set_solver|]. by eexists.
Qed.

(** Behind binders [front] that bind neither name, a variable other than
    [p] and [q] is read the same whether [p] or [q] is the next binder. *)
Lemma indexOf_swap v p q front binders :
  v ≠ p → v ≠ q →
  indexOf v (front ++ q :: binders) = indexOf v (front ++ p :: binders).
Proof.
  intros Hp Hq. induction front as [|y front IH]; simpl.
  - by rewrite !decide_False.
  - destruct (decide (v = y)); [done|]. by rewrite IH.
Qed.

Lemma indexOf_middle p front binders :
  p ∉ front → indexOf p (front ++ p :: binders) = Some (length front).
Proof.
  induction front as [|y front IH]; intros Hp; simpl.
  - by rewrite decide_True.
  - rewrite decide_False by set_solver. rewrite IH by set_solver. done.
Qed.

(** The reading of a tree depends only on how its free variables are
    bound. *)
Lemma nameless_agree e : ∀ binders1 binders2,
  (∀ v, v ∈ freeVariables e → indexOf v binders1 = indexOf v binders2) →
  nameless binders1 e = nameless binders2 e.
Proof.
  induction e as [name fs sid | param body IH fs sid | func IHf arg IHa id fs sid];
    intros binders1 binders2 Hagree; simpl in *.
  - rewrite (Hagree name) by set_solver. done.
  - f_equal. apply IH. intros v Hv. simpl.
    destruct (decide (v = param)); [done|].
    rewrite Hagree by set_solver. done.
  - f_equal; [apply IHf | apply IHa]; intros v Hv; apply Hagree; set_solver.
Qed.

(** A name that is bound around a tree does not occur free in its reading. *)
Lemma nsubst_bound x r e : ∀ binders,
  x ∈ binders → nsubst x r (nameless binders e) = nameless binders e.
Proof.
  induction e as [name fs sid | param body IH fs sid | func IHf arg IHa id fs sid];
    intros binders Hx; simpl.
  - destruct (indexOf name binders) as [i|] eqn:Hi; simpl; [done|].
    destruct (decide (name = x)) as [->|]; [|done].
    apply indexOf_is_Some in Hx. rewrite Hi in Hx. by destruct Hx.
  - f_equal. apply IH. set_solver.
  - f_equal; auto.
Qed.

(** Renaming a binder: the body with [p] replaced by a name [q] that is not
    free in it, read under the binder [q], is the body read under [p]. *)
Lemma nameless_rename_height n : ∀ e front binders p q,
  (height e ≤ n)%nat →
  p ∉ front → q ∉ front → q ∉ freeVariables e →
  nameless (front ++ q :: binders) (substitute e p (newVariable q) false None)
  = nameless (front ++ p :: binders) e.
Proof.
  induction n as [|n IH]; intros e front binders p q Hh Hp Hq Hfree.
  { destruct e; simpl in Hh; lia. }
  destruct e as [name fs sid | param body fs sid | func arg id fs sid];
    simpl in Hh, Hfree.
  - rewrite substitute_Variable.
    destruct (decide (name = p)) as [->|Hne]; simpl.
    + by rewrite !indexOf_middle.
    + rewrite (indexOf_swap name p q) by set_solver. done.
  - rewrite substitute_Abstraction.
    destruct (decide (param = p)) as [->|Hne].
    { apply nameless_agree. intros v Hv. simpl in Hv.
      apply indexOf_swap; set_solver. }
    simpl freeVariables.
    destruct (decide (param ∈ {[q]})) as [Hin|Hout]; cbn zeta.
    + assert (param = q) as -> by set_solver.
      set (q' := freshName q ({[q]} ∪ freeVariables body ∪ {[p]})).
      pose proof (freshName_fresh q ({[q]} ∪ freeVariables body ∪ {[p]})) as Hq'.
      fold q' in Hq'.
      simpl. f_equal.
      etrans.
      { apply (IH _ (q' :: front) binders p q).
        - unfold newVariable. rewrite height_substitute_variable. lia.
        - set_solver.
        - set_solver.
        - rewrite freeVariables_substitute. simpl. case_decide; set_solver. }
      apply (IH body [] (front ++ p :: binders) q q'); [lia|set_solver..].
    + simpl. f_equal.
      apply (IH body (param :: front)); [lia|set_solver..].
  - rewrite substitute_Application. simpl.
    f_equal; (apply IH; [lia|set_solver..]).
Qed.

(** Substitution and binding structure: read without names, the result of
    [substitute] is the target with every free occurrence of [x] replaced
    by the replacement as it reads on its own. *)
Lemma nameless_substitute_height n : ∀ e binders x r m s,
  (height e ≤ n)%nat →
  x ∉ binders →
  (∀ v, v ∈ freeVariables r → v ∉ binders) →
  nameless binders (substitute e x r m s)
  = nsubst x (nameless [] r) (nameless binders e).
Proof.
  induction n as [|n IH]; intros e binders x r m s Hh Hx Hr.
  { destruct e; simpl in Hh; lia. }
  destruct e as [name fs sid | param body fs sid | func arg id fs sid]; simpl in Hh.
  - rewrite substitute_Variable.
    destruct (decide (name = x)) as [->|Hne]; simpl.
    + rewrite (indexOf_None x) by done. simpl. rewrite decide_True by done.
      rewrite nameless_clone. apply nameless_agree.
      intros v Hv. simpl. apply indexOf_None. auto.
    + destruct (indexOf name binders); simpl; [done|]. by rewrite decide_False.
  - rewrite substitute_Abstraction.
    destruct (decide (param = x)) as [->|Hne].
    { simpl. f_equal. symmetry. apply nsubst_bound. set_solver. }
    destruct (decide (param ∈ freeVariables r)) as [Hin|Hout]; cbn zeta.
    + set (q := freshName param (freeVariables r ∪ freeVariables body ∪ {[x]})).
      pose proof (freshName_fresh param (freeVariables r ∪ freeVariables body ∪ {[x]}))
        as Hq. fold q in Hq.
      simpl. f_equal.
      etrans.
      { apply (IH _ (q :: binders) x r m s).
        - unfold newVariable. rewrite height_substitute_variable. lia.
        - set_solver.
        - intros v Hv. specialize (Hr v Hv). set_solver. }
      f_equal.
      apply (nameless_rename_height (height body) body [] binders param q);
        [lia|set_solver..].
    + simpl. f_equal. apply IH; [lia|set_solver|].
      intros v Hv. specialize (Hr v Hv). set_solver.
  - rewrite substitute_Application. simpl.
    f_equal; apply IH; auto; lia.
Qed.

(** C1. Substitution is capture-avoiding.  For every target, variable name
    and replacement, the binding structure of [substitute]'s result is that
    of the target with each free occurrence of the variable replaced by the
    replacement: the free variables of the replacement stay free, whatever
    abstractions of the target they land under.  Accordingly the free
    variables of the result are those of the target other than the
    variable, together with those of the replacement when the variable
    occurs free.  In particular, reducing [(λx.λx'.x x') x'] gives
    [λx''.(x' x'')]: the inner binder is renamed by [freshName] and the
    substituted [x'] is free. *)
Theorem substitute_capture_avoiding :
  (∀ e x r m s,
     nameless [] (substitute e x r m s) = nsubst x (nameless [] r) (nameless [] e))
  ∧ (∀ e x r m s,
       freeVariables (substitute e x r m s)
       = if decide (x ∈ freeVariables e)
         then (freeVariables e ∖ {[ x ]}) ∪ freeVariables r
         else freeVariables e)
  ∧ parse (str "(\x.\x'.x x') x'") = Parsed captureExample
  ∧ reduceAt (numberRedexes captureExample) (Some 1)
    = Abstraction (str "x''")
        (Application (Variable_ (str "x'") true (Some 1))
                     (Variable_ (str "x''") false None) None false None)
        false None
  ∧ toPlainString (reduceAt (numberRedexes captureExample) (Some 1))
    = c_lambda :: str "x''.(x' x'')"
  ∧ nameless [] (reduceAt (numberRedexes captureExample) (Some 1))
    = NLam (NApp (NFree (str "x'")) (NBound 0)).
Proof.
  split_and!.
  - intros e x r m s.
    apply (nameless_substitute_height (height e)); [done|set_solver..].
  - apply freeVariables_substitute.
  - by vm_compute.
  - by vm_compute.
  - by vm_compute.
  - by vm_compute.
Qed.

(** ** The parser: positions, recursion bound, fresh trees *)

Lemma bindResult_Ok {A B} (r : Result A) (k : A → nat → Result B) b p :
  bindResult r k = Ok b p → ∃ a q, r = Ok a q ∧ k a q = Ok b p.
Proof. destruct r; simpl; [eauto|done..]. Qed.

Section ParserFacts.
Variable source : jsstring.

Abbreviation currentChar := (Parser.currentChar source).
Abbreviation hasMore := (Parser.hasMore source).
Abbreviation skipWhitespace := (Parser.skipWhitespace source).
Abbreviation parseVariableName := (Parser.parseVariableName source).
Abbreviation parseAtom := (Parser.parseAtom source).
Abbreviation parseExpr := (Parser.parseExpr source).
Abbreviation parseExpr_loop := (Parser.parseExpr_loop source).

(** The bodies of the three mutually recursive methods. *)
Lemma parseAtom_S fuel position :
  parseAtom (S fuel) position =
  let position := skipWhitespace position in
  let char := currentChar position in
  if bool_decide (char = Some c_lparen) then
    let position := S position in
    let* (innerExpr, position) := parseExpr fuel position in
    let position := skipWhitespace position in
    if bool_decide (currentChar position ≠ Some c_rparen)
    then Throw (Parser.error source (str "Expected ')'") position)
    else Ok innerExpr (S position)
  else if isLambdaStart char then
    let position := S position in
    let position := skipWhitespace position in
    let* (parameterName, position) := parseVariableName position in
    let position := skipWhitespace position in
    if bool_decide (currentChar position ≠ Some c_dot)
    then Throw (Parser.error source (str "Expected '.' after lambda parameter")
                             position)
    else
      let position := S position in
      let* (body, position) := parseExpr fuel position in
      Ok (newAbstraction parameterName body) position
  else if isVariableStart char then
    let* (name, position) := parseVariableName position in
    Ok (newVariable name) position
  else
    Throw (Parser.error source
             (str "Unexpected character '" ++ Parser.showChar char ++ str "'")
             position).
Proof. reflexivity. Qed.

Lemma parseExpr_S fuel position :
  parseExpr (S fuel) position =
  let position := skipWhitespace position in
  let* (result, position) := parseAtom fuel position in
  parseExpr_loop fuel result position.
Proof. reflexivity. Qed.

Lemma parseExpr_loop_S fuel result position :
  parseExpr_loop (S fuel) result position =
  let position := skipWhitespace position in
  let char := currentChar position in
  let canContinue :=
    hasMore position && negb (bool_decide (char = Some c_rparen))
    && isAtomStart char in
  if negb canContinue then Ok result position
  else
    let* (nextAtom, position) := parseAtom fuel position in
    parseExpr_loop fuel (newApplication result nextAtom) position.
Proof. reflexivity. Qed.

Lemma hasMore_true position : hasMore position = true ↔ (position < length source)%nat.
Proof. unfold Parser.hasMore. apply bool_decide_eq_true. Qed.

Lemma currentChar_Some position c :
  currentChar position = Some c → (position < length source)%nat.
Proof. unfold Parser.currentChar. apply lookup_lt_Some. Qed.

Lemma advanceWhile_bounds P bound : ∀ position,
  (position ≤ Parser.advanceWhile source P bound position)%nat
  ∧ ((position ≤ length source)%nat →
     (Parser.advanceWhile source P bound position ≤ length source)%nat).
Proof.
  induction bound as [|bound IH]; intros position; simpl; [lia|].
  destruct (hasMore position) eqn:Hmore; simpl; [|lia].
  apply hasMore_true in Hmore.
  destruct (P (currentChar position)); [|lia].
  destruct (IH (S position)). lia.
Qed.

(** The loop stops because its condition fails, not because of its bound. *)
Lemma advanceWhile_stops P bound : ∀ position,
  (length source - position ≤ bound)%nat →
  hasMore (Parser.advanceWhile source P bound position)
  && P (currentChar (Parser.advanceWhile source P bound position)) = false.
Proof.
  induction bound as [|bound IH]; intros position Hbound; simpl.
  - replace (hasMore position) with false; [done|].
    symmetry. apply bool_decide_eq_false. lia.
  - destruct (hasMore position && P (currentChar position)) eqn:Hcond; [|done].
    apply IH. lia.
Qed.

Lemma skipWhitespace_bounds position :
  (position ≤ skipWhitespace position)%nat
  ∧ ((position ≤ length source)%nat → (skipWhitespace position ≤ length source)%nat).
Proof. apply advanceWhile_bounds. Qed.

Lemma parseVariableName_Ok position name position' :
  parseVariableName position = Ok name position' →
  (position ≤ length source)%nat →
  (position < position' ≤ length source)%nat.
Proof.
  unfold Parser.parseVariableName, Parser.slice. intros Hrun Hle.
  case_bool_decide as Hlen; [done|]. injection Hrun as <- <-.
  destruct (advanceWhile_bounds isVariableChar (length source - position) position)
    as [Hlo Hhi].
  split; [|auto].
  destruct (decide (Parser.advanceWhile source isVariableChar
                      (length source - position) position = position)) as [Heq|]; [|lia].
  rewrite Heq, Nat.sub_diag in Hlen. done.
Qed.

Lemma parseVariableName_not_OutOfFuel position :
  parseVariableName position ≠ OutOfFuel.
Proof. unfold Parser.parseVariableName. by case_bool_decide. Qed.

Lemma isLambdaStart_Some char :
  isLambdaStart char = true → ∃ c, char = Some c.
Proof.
  unfold isLambdaStart. intros H. apply orb_true_iff in H.
  destruct H as [H|H]; apply bool_decide_eq_true in H; eauto.
Qed.

(** Within its recursion bound a parser method is never cut off, and
    when it returns it has moved on (an atom and an expression take at
    least one code unit) and is still inside the source. *)
Lemma parser_progress fuel :
  (∀ position,
     (position ≤ length source)%nat →
     (2 * (length source - position) + 1 ≤ fuel)%nat →
     parseAtom fuel position ≠ OutOfFuel
     ∧ ∀ e position', parseAtom fuel position = Ok e position' →
                      (position < position' ≤ length source)%nat)
  ∧ (∀ position,
       (position ≤ length source)%nat →
       (2 * (length source - position) + 2 ≤ fuel)%nat →
       parseExpr fuel position ≠ OutOfFuel
       ∧ ∀ e position', parseExpr fuel position = Ok e position' →
                        (position < position' ≤ length source)%nat)
  ∧ (∀ result position,
       (position ≤ length source)%nat →
       (2 * (length source - position) + 2 ≤ fuel)%nat →
       parseExpr_loop fuel result position ≠ OutOfFuel
       ∧ ∀ e position', parseExpr_loop fuel result position = Ok e position' →
                        (position ≤ position' ≤ length source)%nat).
Proof.
  induction fuel as [|fuel (IHatom & IHexpr & IHloop)].
  { split_and!; intros; lia. }
  split_and!.
  - intros position Hle Hfuel. rewrite parseAtom_S. cbn zeta.
    destruct (skipWhitespace_bounds position) as [Hlo Hhi].
    specialize (Hhi Hle). set (p1 := skipWhitespace position) in *.
    case_bool_decide as Hparen.
    { apply currentChar_Some in Hparen.
      destruct (IHexpr (S p1)) as [Hfuel' Hok]; [lia..|].
      destruct (parseExpr fuel (S p1)) as [inner p2| |] eqn:Hinner; simpl; [|done..].
      specialize (Hok _ _ eq_refl).
      destruct (skipWhitespace_bounds p2) as [Hlo2 Hhi2].
      case_bool_decide as Hclose; [done|].
      apply currentChar_Some in Hclose.
      split; [done|]. intros e p' [= <- <-]. lia. }
    destruct (isLambdaStart _) eqn:Hlam.
    { apply isLambdaStart_Some in Hlam as [c Hc]. apply currentChar_Some in Hc.
      destruct (skipWhitespace_bounds (S p1)) as [Hlo2 Hhi2].
      set (p2 := skipWhitespace (S p1)) in *.
      pose proof (parseVariableName_Ok p2) as Hname.
      pose proof (parseVariableName_not_OutOfFuel p2) as Hname'.
      destruct (parseVariableName p2) as [name p3| |]; simpl; [|done..].
      specialize (Hname _ _ eq_refl). 
      destruct (skipWhitespace_bounds p3) as [Hlo3 Hhi3].
      set (p4 := skipWhitespace p3) in *.
      case_bool_decide as Hdot; [done|].
      apply currentChar_Some in Hdot.
      destruct (IHexpr (S p4)) as [Hfuel' Hok]; [lia..|].
      destruct (parseExpr fuel (S p4)) as [body p5| |] eqn:Hbody; simpl; [|done..].
      specialize (Hok _ _ eq_refl).
      split; [done|]. intros e p' [= <- <-]. lia. }
    destruct (isVariableStart _).
    { pose proof (parseVariableName_Ok p1) as Hname.
      pose proof (parseVariableName_not_OutOfFuel p1) as Hname'.
      destruct (parseVariableName p1) as [name p3| |]; simpl; [|done..].
      specialize (Hname _ _ eq_refl).
      split; [done|]. intros e p' [= <- <-]. lia. }
    done.
  - intros position Hle Hfuel. rewrite parseExpr_S. cbn zeta.
    destruct (skipWhitespace_bounds position) as [Hlo Hhi].
    specialize (Hhi Hle). set (p1 := skipWhitespace position) in *.
    destruct (IHatom p1) as [Hcut Hok]; [lia..|].
    destruct (parseAtom fuel p1) as [result p2| |] eqn:Hatom; simpl; [|done..].
    specialize (Hok _ _ eq_refl).
    destruct (IHloop result p2) as [Hcut' Hok']; [lia..|].
    split; [done|]. intros e p' Hrun. specialize (Hok' _ _ Hrun). lia.
  - intros result position Hle Hfuel. rewrite parseExpr_loop_S. cbn zeta.
    destruct (skipWhitespace_bounds position) as [Hlo Hhi].
    specialize (Hhi Hle). set (p1 := skipWhitespace position) in *.
    destruct (negb _).
    { split; [done|]. intros e p' [= <- <-]. lia. }
    destruct (IHatom p1) as [Hcut Hok]; [lia..|].
    destruct (parseAtom fuel p1) as [next p2| |] eqn:Hatom; simpl; [|done..].
    specialize (Hok _ _ eq_refl).
    destruct (IHloop (newApplication result next) p2) as [Hcut' Hok']; [lia..|].
    split; [done|]. intros e p' Hrun. specialize (Hok' _ _ Hrun). lia.
Qed.

(** [parse()] always returns or throws. *)
Lemma Parser_parse_total : Parser.parse source ≠ OutOfFuel.
Proof.
  unfold Parser.parse.
  destruct (parser_progress (Parser.parseFuel source)) as (_ & Hexpr & _).
  destruct (Hexpr 0%nat) as [Hcut _]; [lia | unfold Parser.parseFuel; lia |].
  destruct (parseExpr _ 0) as [result p| |]; simpl; [|done..].
  by destruct (hasMore _).
Qed.

(** The parser only builds nodes with the constructors' defaults. *)
Lemma parser_pristine fuel :
  (∀ position e position',
     parseAtom fuel position = Ok e position' → Forall pristine (nodes e))
  ∧ (∀ position e position',
       parseExpr fuel position = Ok e position' → Forall pristine (nodes e))
  ∧ (∀ result position e position',
       Forall pristine (nodes result) →
       parseExpr_loop fuel result position = Ok e position' →
       Forall pristine (nodes e)).
Proof.
  induction fuel as [|fuel (IHatom & IHexpr & IHloop)]; [done|].
  split_and!.
  - intros position e position'. rewrite parseAtom_S. cbn zeta.
    case_bool_decide.
    { intros (inner & p2 & Hinner & Hrest)%bindResult_Ok.
      case_bool_decide; [done|]. injection Hrest as <- <-. eauto. }
    destruct (isLambdaStart _).
    { intros (name & p2 & Hname & Hrest)%bindResult_Ok.
      case_bool_decide; [done|].
      apply bindResult_Ok in Hrest as (body & p3 & Hbody & [= <- <-]).
      simpl. constructor; [done|]. eauto. }
    destruct (isVariableStart _); [|done].
    intros (name & p2 & Hname & [= <- <-])%bindResult_Ok.
    simpl. by repeat constructor.
  - intros position e position'. rewrite parseExpr_S. cbn zeta.
    intros (result & p2 & Hatom & Hloop)%bindResult_Ok. eauto.
  - intros result position e position' Hresult. rewrite parseExpr_loop_S. cbn zeta.
    destruct (negb _); [by intros [= <- <-]|].
    intros (next & p2 & Hatom & Hloop)%bindResult_Ok.
    eapply IHloop; [|done]. simpl. constructor; [done|].
    apply Forall_app. eauto.
Qed.

End ParserFacts.

(** [parse] returns a tree or throws: the recursion bound of the model is
    never what ends it. *)
Lemma parse_total input : parse input ≠ ParseCutOff.
Proof.
  unfold parse. pose proof (Parser_parse_total (trim input)).
  by destruct (Parser.parse (trim input)).
Qed.

(** C10. A freshly parsed tree carries no provenance and no redex
    numbering: whenever [parse] accepts a text, every node of the tree has
    [fromSubstitution = false] and [sourceId = null], and every application
    has [id = null]. *)
Theorem parse_pristine input e :
  parse input = Parsed e → Forall pristine (nodes e).
Proof.
  unfold parse, Parser.parse. intros Hparse.
  destruct (Parser.parseExpr _ _ _) as [result position| |] eqn:Hexpr;
    cbn [bindResult] in Hparse; [|done..].
  destruct (Parser.hasMore _ _); [done|]. injection Hparse as <-.
  destruct (parser_pristine (trim input) (Parser.parseFuel (trim input)))
    as (_ & Hpristine & _).
  eauto.
Qed.

Lemma parse_pristine_witness :
  parse (str "(\x.\x'.x x') x'") = Parsed captureExample
  ∧ Forall pristine (nodes captureExample).
Proof.
  split; [by vm_compute|].
  apply (parse_pristine (str "(\x.\x'.x x') x'") captureExample).
  by vm_compute.
Defined.

(** ** Round trip through [toPlainString] *)

Lemma inRange_true lo hi c : inRange lo hi c = true ↔ (lo ≤ c ≤ hi)%N.
Proof. unfold inRange. rewrite andb_true_iff, !N.leb_le. done. Qed.

Lemma isLetter_true c : isLetter c = true → (97 ≤ c ≤ 122 ∨ 65 ≤ c ≤ 90)%N.
Proof. unfold isLetter. rewrite orb_true_iff, !inRange_true. done. Qed.

Ltac unit_facts :=
  unfold isSpaceUnit, isNameUnit, isLetter, isDigit, inRange,
    c_lparen, c_rparen, c_lambda, c_backslash, c_dot, c_space, c_quote,
    c_underscore in *;
  repeat match goal with
    | |- (_ || _) = false => apply orb_false_iff; split
    | |- (_ && _) = false => apply andb_false_iff
    | |- (_ =? _)%N = false => apply N.eqb_neq
    end.

Lemma letter_not_space c : isLetter c = true → isSpaceUnit c = false.
Proof.
  intros H%isLetter_true. unit_facts;
    try lia; rewrite N.leb_gt, N.leb_gt; lia.
Qed.

Lemma letter_is_nameUnit c : isLetter c = true → isNameUnit c = true.
Proof. intros H. unfold isNameUnit. by rewrite H. Qed.

Lemma letter_starts_variable c :
  isLetter c = true →
  bool_decide (Some c = Some c_lparen) = false
  ∧ isLambdaStart (Some c) = false
  ∧ isVariableStart (Some c) = true
  ∧ c ≠ c_rparen.
Proof.
  intros H. pose proof (isLetter_true c H) as Hc. unfold isLambdaStart.
  split_and!; [| |done|]; rewrite ?orb_false_iff, ?bool_decide_eq_false;
    try split; unfold c_lparen, c_lambda, c_backslash, c_rparen;
    intros ?; simplify_eq; lia.
Qed.

Ltac flat_in H := repeat first [rewrite <- app_assoc in H | progress cbn [app] in H].
Ltac flat_goal := repeat first [rewrite <- app_assoc | progress cbn [app]].
Ltac len_in H := repeat first [rewrite length_app in H | progress cbn [length] in H].
Ltac len_goal := repeat first [rewrite length_app | progress cbn [length]].

Lemma toPlainString_Application func arg id fs sid :
  toPlainString (Application func arg id fs sid)
  = c_lparen :: atomText func ++ c_space :: atomText arg ++ [c_rparen].
Proof. reflexivity. Qed.

Section RoundTrip.
Variable source : jsstring.

Abbreviation currentChar := (Parser.currentChar source).
Abbreviation hasMore := (Parser.hasMore source).
Abbreviation skipWhitespace := (Parser.skipWhitespace source).
Abbreviation parseVariableName := (Parser.parseVariableName source).
Abbreviation parseAtom := (Parser.parseAtom source).
Abbreviation parseExpr := (Parser.parseExpr source).
Abbreviation parseExpr_loop := (Parser.parseExpr_loop source).

Abbreviation ahead := (ahead source).

Lemma ahead_cons position c text :
  ahead position (c :: text) →
  currentChar position = Some c ∧ hasMore position = true ∧ ahead (S position) text.
Proof.
  unfold ahead, Parser.currentChar, Parser.hasMore. intros H.
  assert (source !! position = Some c) as Hc.
  { pose proof (lookup_drop source position 0) as Hl.
    by rewrite H, Nat.add_0_r in Hl. }
  split_and!; [done| |].
  - apply bool_decide_eq_true. by apply lookup_lt_Some in Hc.
  - replace (S position) with (position + 1)%nat by lia.
    rewrite <- (drop_drop source 1 position), H. done.
Qed.

Lemma ahead_nil position :
  ahead position [] → currentChar position = None ∧ hasMore position = false.
Proof.
  unfold ahead, Parser.currentChar, Parser.hasMore. intros H.
  assert (length source ≤ position)%nat as Hlen.
  { pose proof (length_drop source position) as Hd. rewrite H in Hd. simpl in Hd. lia. }
  split; [by apply lookup_ge_None | apply bool_decide_eq_false; lia].
Qed.

Lemma ahead_app position pre rest :
  ahead position (pre ++ rest) → ahead (position + length pre) rest.
Proof.
  unfold ahead. intros H.
  rewrite <- (drop_drop source (length pre) position), H.
  by rewrite drop_app_length.
Qed.

Lemma ahead_skip position position' pre rest text :
  ahead position text →
  text = pre ++ rest → position' = (position + length pre)%nat →
  ahead position' rest.
Proof. intros H -> ->. by apply ahead_app. Qed.

Lemma ahead_length position text :
  ahead position text → (length source - position)%nat = length text.
Proof. unfold ahead. intros <-. by rewrite length_drop. Qed.

Lemma advanceWhile_prefix P pre : ∀ bound position rest,
  ahead position (pre ++ rest) →
  Forall (λ c, P (Some c) = true) pre →
  match rest with [] => True | c :: _ => P (Some c) = false end →
  (length pre ≤ bound)%nat →
  Parser.advanceWhile source P bound position = (position + length pre)%nat.
Proof.
  induction pre as [|c pre IH]; intros bound position rest Hahead Hpre Hrest Hbound.
  - simpl in *. rewrite Nat.add_0_r. destruct bound as [|bound]; [done|]. simpl.
    destruct rest as [|c rest].
    + apply ahead_nil in Hahead as [_ ->]. done.
    + apply ahead_cons in Hahead as (-> & -> & _). by rewrite Hrest.
  - simpl in *. destruct bound as [|bound]; [lia|]. simpl.
    apply ahead_cons in Hahead as (-> & -> & Hahead).
    inversion_clear Hpre as [|?? Hc Hpre']. rewrite Hc. simpl.
    rewrite (IH bound (S position) rest) by (done || lia). lia.
Qed.

Lemma skipWhitespace_stay position text :
  ahead position text →
  match text with [] => True | c :: _ => isSpaceUnit c = false end →
  skipWhitespace position = position.
Proof.
  intros Hahead Htext. unfold Parser.skipWhitespace.
  rewrite (advanceWhile_prefix isWhitespace [] _ position text); simpl; auto with lia.
Qed.

Lemma skipWhitespace_one position c text :
  ahead position (c_space :: c :: text) → isSpaceUnit c = false →
  skipWhitespace position = S position.
Proof.
  intros Hahead Hc. unfold Parser.skipWhitespace.
  rewrite (advanceWhile_prefix isWhitespace [c_space] _ position (c :: text));
    simpl; auto with lia.
  rewrite (ahead_length _ _ Hahead). simpl. lia.
Qed.

Lemma parseVariableName_name position name rest :
  ahead position (name ++ rest) →
  validName name = true → stopsName rest →
  parseVariableName position = Ok name (position + length name).
Proof.
  intros Hahead Hvalid Hrest. unfold Parser.parseVariableName, Parser.slice.
  rewrite (advanceWhile_prefix isVariableChar name _ position rest); try done.
  - replace (position + length name - position)%nat with (length name) by lia.
    rewrite Hahead, take_app_length.
    destruct name; [done|]. done.
  - destruct name as [|c name]; [done|]. simpl in Hvalid.
    apply andb_true_iff in Hvalid as [Hc Hname].
    constructor; [by apply letter_is_nameUnit|].
    apply Forall_forall. intros x Hx%list_elem_of_In.
    by apply (proj1 (forallb_forall _ _) Hname).
  - rewrite (ahead_length _ _ Hahead), length_app. lia.
Qed.

(** At the end of an expression the loop of [parseExpr] stops. *)
Lemma parseExpr_loop_stops fuel result position rest :
  ahead position rest → closes rest →
  parseExpr_loop (S fuel) result position = Ok result position.
Proof.
  intros Hahead Hrest. rewrite parseExpr_loop_S. cbn zeta.
  rewrite (skipWhitespace_stay position rest) by (done || by destruct rest as [|? ?]; [|simpl in Hrest; subst]).
  destruct rest as [|c rest].
  - apply ahead_nil in Hahead as [_ ->]. done.
  - simpl in Hrest. subst c. apply ahead_cons in Hahead as (-> & -> & _). done.
Qed.

Lemma validName_head name :
  validName name = true → ∃ c tl, name = c :: tl ∧ isLetter c = true.
Proof.
  destruct name as [|c tl]; [done|]. simpl.
  intros [Hc _]%andb_true_iff. eauto.
Qed.

Lemma toPlainString_head e :
  wellFormed e = true →
  ∃ c tl, toPlainString e = c :: tl ∧ isSpaceUnit c = false.
Proof.
  destruct e as [name fs sid | param body fs sid | func arg id fs sid]; simpl.
  - intros (c & tl & -> & Hc)%validName_head.
    exists c, tl. split; [done|]. by apply letter_not_space.
  - intros _. by eexists _, _.
  - intros _. by eexists _, _.
Qed.

Lemma atomText_head e :
  wellFormed e = true →
  ∃ c tl, atomText e = c :: tl ∧ isSpaceUnit c = false
          ∧ isAtomStart (Some c) = true ∧ c ≠ c_rparen.
Proof.
  destruct e as [name fs sid | param body fs sid | func arg id fs sid];
    unfold atomText; simpl.
  - intros (c & tl & -> & Hc)%validName_head.
    exists c, tl. destruct (letter_starts_variable c Hc) as (? & ? & Hv & ?).
    split_and!; [done|by apply letter_not_space| |done].
    unfold isAtomStart. rewrite Hv. by rewrite orb_true_r.
  - intros _. by eexists _, _.
  - intros _. by eexists _, _.
Qed.

(** The parser reads back what [toPlainString] writes: an operand of an
    application as an atom, and a whole text as an expression. *)
Lemma parse_toPlainString e :
  wellFormed e = true →
  (∀ fuel position rest,
     ahead position (atomText e ++ rest) → stopsName rest →
     (2 * length (atomText e ++ rest) + 1 ≤ fuel)%nat →
     parseAtom fuel position = Ok (plain e) (position + length (atomText e)))
  ∧ (∀ fuel position rest,
       ahead position (toPlainString e ++ rest) → closes rest →
       (2 * length (toPlainString e ++ rest) + 2 ≤ fuel)%nat →
       parseExpr fuel position = Ok (plain e) (position + length (toPlainString e))).
Proof.
  induction e as [name fs sid | param body IHbody fs sid
                 | func IHfunc arg IHarg id fs sid]; intros Hwf; simpl in Hwf.
  - assert (∀ fuel position rest,
              ahead position (name ++ rest) → stopsName rest →
              parseAtom (S fuel) position = Ok (newVariable name) (position + length name))
      as Hatom.
    { intros fuel position rest Hahead Hrest.
      destruct (validName_head name Hwf) as (c & tl & Hname & Hc).
      rewrite parseAtom_S. cbn zeta.
      rewrite (skipWhitespace_stay position (name ++ rest))
        by (done || (subst name; by apply letter_not_space)).
      pose proof Hahead as Hahead'. rewrite Hname in Hahead'.
      apply ahead_cons in Hahead' as (-> & _ & _).
      destruct (letter_starts_variable c Hc) as (-> & -> & -> & _).
      by rewrite (parseVariableName_name position name rest). }
    split.
    + intros [|fuel] position rest Hahead Hrest Hfuel; [lia|].
      by apply (Hatom fuel position rest).
    + intros [|[|fuel]] position rest Hahead Hrest Hfuel; [lia..|].
      rewrite parseExpr_S. cbn zeta. simpl in Hahead.
      destruct (validName_head name Hwf) as (c & tl & Hname & Hc).
      rewrite (skipWhitespace_stay position (name ++ rest))
        by (done || (subst name; by apply letter_not_space)).
      rewrite (Hatom fuel position rest); [|done|by destruct rest as [|? ?]; [|simpl in *; subst]].
      simpl. apply (parseExpr_loop_stops fuel _ _ rest); [|done].
      by apply ahead_app.
  - apply andb_true_iff in Hwf as [Hparam Hbody].
    destruct (IHbody Hbody) as [_ IHexpr]. clear IHbody.
    destruct (validName_head param Hparam) as (c & tl & Hname & Hc).
    assert (∀ fuel position rest,
              ahead position (c_lambda :: param ++ c_dot :: toPlainString body ++ rest) →
              closes rest →
              (2 * (length param + length (toPlainString body ++ rest)) + 5 ≤ fuel)%nat →
              parseAtom fuel position
              = Ok (newAbstraction param (plain body))
                   (position + (length param + length (toPlainString body) + 2)))
      as Hlam.
    { intros [|fuel] position rest Hahead Hrest Hfuel; [lia|].
      rewrite parseAtom_S. cbn zeta.
      rewrite (skipWhitespace_stay position _ Hahead) by done.
      apply ahead_cons in Hahead as (-> & _ & Hahead).
      rewrite bool_decide_false by done.
      replace (isLambdaStart (Some c_lambda)) with true by done.
      rewrite (skipWhitespace_stay (S position) _ Hahead)
        by (subst param; by apply letter_not_space).
      rewrite (parseVariableName_name (S position) param _ Hahead) by done.
      apply ahead_app in Hahead. cbn [bindResult].
      rewrite (skipWhitespace_stay _ _ Hahead) by done.
      apply ahead_cons in Hahead as (-> & _ & Hahead).
      rewrite bool_decide_false by (intros Hne; by apply Hne).
      rewrite (IHexpr fuel _ rest Hahead Hrest) by lia.
      cbn [bindResult]. f_equal. lia. }
    assert (∀ fuel position rest,
              ahead position (c_lambda :: param ++ c_dot :: toPlainString body ++ rest) →
              closes rest →
              (2 * (length param + length (toPlainString body ++ rest)) + 6 ≤ fuel)%nat →
              parseExpr fuel position
              = Ok (newAbstraction param (plain body))
                   (position + (length param + length (toPlainString body) + 2)))
      as Hexpr.
    { intros [|[|fuel]] position rest Hahead Hrest Hfuel; [lia..|].
      rewrite parseExpr_S. cbn zeta.
      rewrite (skipWhitespace_stay position _ Hahead) by done.
      rewrite (Hlam _ position rest) by (done || lia). cbn [bindResult].
      apply (parseExpr_loop_stops fuel _ _ rest); [|done].
      replace (length param + length (toPlainString body) + 2)%nat
        with (length (c_lambda :: param ++ c_dot :: toPlainString body))
        by (simpl; rewrite length_app; simpl; lia).
      apply ahead_app. simpl. by rewrite <- !app_assoc. }
    split.
    + intros [|fuel] position rest Hahead Hrest Hfuel; [lia|].
      unfold atomText in *. simpl in Hahead, Hfuel.
      flat_in Hahead. len_in Hfuel.
      rewrite parseAtom_S. cbn zeta.
      rewrite (skipWhitespace_stay position _ Hahead) by done.
      apply ahead_cons in Hahead as (-> & _ & Hahead).
      rewrite bool_decide_true by done.
      rewrite (Hexpr fuel (S position) (c_rparen :: rest))
        by (done || (len_goal; lia)).
      cbn [bindResult].
      apply (ahead_skip _ (S position + (length param + length (toPlainString body) + 2))
               (c_lambda :: param ++ c_dot :: toPlainString body) (c_rparen :: rest))
        in Hahead; [|by flat_goal|len_goal; lia].
      rewrite (skipWhitespace_stay _ _ Hahead) by done.
      apply ahead_cons in Hahead as (-> & _ & Hahead).
      rewrite bool_decide_false by (intros Hne; by apply Hne).
      f_equal. simpl. len_goal. lia.
    + intros fuel position rest Hahead Hrest Hfuel. simpl in Hahead, Hfuel |- *.
      flat_in Hahead. len_in Hfuel.
      rewrite (Hexpr fuel position rest); [|done..|len_goal; lia].
      f_equal. len_goal. lia.
  - apply andb_true_iff in Hwf as [Hfunc Harg].
    destruct (IHfunc Hfunc) as [IHf _]. destruct (IHarg Harg) as [IHa _].
    clear IHfunc IHarg.
    destruct (atomText_head func Hfunc) as (cf & tlf & Hftext & Hfspace & _ & _).
    destruct (atomText_head arg Harg) as (ca & tla & Hatext & Haspace & Hastart & Haclose).
    assert (∀ fuel position rest,
              ahead position
                (c_lparen :: atomText func ++ c_space :: atomText arg ++ c_rparen :: rest) →
              (2 * (length (atomText func) + length (atomText arg) + length rest) + 7
               ≤ fuel)%nat →
              parseAtom fuel position
              = Ok (newApplication (plain func) (plain arg))
                   (position + (length (atomText func) + length (atomText arg) + 3)))
      as Hatom.
    { intros [|[|[|[|fuel]]]] position rest Hahead Hfuel; [lia..|].
      rewrite parseAtom_S. cbn zeta.
      rewrite (skipWhitespace_stay position _ Hahead) by done.
      apply ahead_cons in Hahead as (-> & _ & Hahead).
      rewrite bool_decide_true by done.
      (* the expression between the parentheses: first [func] ... *)
      rewrite parseExpr_S. cbn zeta.
      rewrite (skipWhitespace_stay _ _ Hahead) by (by rewrite Hftext).
      rewrite (IHf _ _ _ Hahead) by (done || (len_goal; lia)).
      cbn [bindResult]. apply ahead_app in Hahead.
      (* ... then one turn of the loop for [arg] ... *)
      rewrite parseExpr_loop_S. cbn zeta.
      rewrite (skipWhitespace_one _ ca (tla ++ c_rparen :: rest))
        by (done || by rewrite Hatext in Hahead).
      apply ahead_cons in Hahead as (_ & _ & Hahead).
      pose proof Hahead as Hahead'. rewrite Hatext in Hahead'.
      apply ahead_cons in Hahead' as (-> & -> & _).
      rewrite Hastart, (bool_decide_false (Some ca = Some c_rparen)) by congruence.
      cbn [andb negb].
      rewrite (IHa _ _ _ Hahead) by (done || (len_goal; lia)).
      cbn [bindResult]. apply ahead_app in Hahead.
      (* ... and the loop stops at the closing parenthesis. *)
      rewrite (parseExpr_loop_stops _ _ _ _ Hahead) by done.
      cbn [bindResult].
      rewrite (skipWhitespace_stay _ _ Hahead) by done.
      apply ahead_cons in Hahead as (-> & _ & Hahead).
      rewrite bool_decide_false by (intros Hne; by apply Hne).
      f_equal. lia. }
    split.
    + intros fuel position rest Hahead Hrest Hfuel.
      change (atomText (Application func arg id fs sid))
        with (toPlainString (Application func arg id fs sid)) in *.
      rewrite toPlainString_Application in Hahead, Hfuel |- *.
      flat_in Hahead. len_in Hfuel.
      rewrite (Hatom fuel position rest) by (done || lia).
      f_equal. len_goal. lia.
    + intros [|fuel] position rest Hahead Hrest Hfuel; [lia|].
      rewrite toPlainString_Application in Hahead, Hfuel |- *.
      flat_in Hahead. len_in Hfuel.
      rewrite parseExpr_S. cbn zeta.
      rewrite (skipWhitespace_stay position _ Hahead) by done.
      rewrite (Hatom fuel position rest) by (done || lia).
      cbn [bindResult].
      destruct fuel as [|fuel]; [lia|].
      rewrite (parseExpr_loop_stops fuel _ _ rest); [|  |done].
      * f_equal. len_goal. lia.
      * eapply (ahead_skip position _
                  (c_lparen :: atomText func ++ c_space :: atomText arg ++ [c_rparen]) rest);
          [exact Hahead|by flat_goal|len_goal; lia].
Qed.

End RoundTrip.

Lemma nameUnit_not_space c : isNameUnit c = true → isSpaceUnit c = false.
Proof.
  unfold isNameUnit, isLetter, isDigit.
  rewrite !orb_true_iff, !inRange_true, !N.eqb_eq.
  unfold c_underscore, c_quote. intros H. unit_facts;
    try lia; rewrite N.leb_gt, N.leb_gt; lia.
Qed.

Lemma trimStart_id s :
  match s with [] => True | c :: _ => isSpaceUnit c = false end → trimStart s = s.
Proof. destruct s as [|c s]; [done|]. simpl. by intros ->. Qed.

Lemma trim_id s c tl init c' :
  s = c :: tl → isSpaceUnit c = false →
  s = init ++ [c'] → isSpaceUnit c' = false →
  trim s = s.
Proof.
  intros Hhead Hc Hlast Hc'. unfold trim.
  rewrite (trimStart_id s) by (by rewrite Hhead).
  rewrite (trimStart_id (rev s)).
  - apply rev_involutive.
  - rewrite Hlast, rev_app_distr. done.
Qed.

Lemma validName_last name :
  validName name = true →
  ∃ init c, name = init ++ [c] ∧ isSpaceUnit c = false.
Proof.
  intros Hvalid.
  assert (Forall (λ c, isNameUnit c = true) name) as Hall.
  { destruct name as [|c tl]; [done|]. simpl in Hvalid.
    apply andb_true_iff in Hvalid as [Hc Htl].
    constructor; [by apply letter_is_nameUnit|].
    apply Forall_forall. intros x Hx%list_elem_of_In.
    by apply (proj1 (forallb_forall _ _) Htl). }
  induction name as [|c0 name _] using rev_ind; [done|].
  apply Forall_app in Hall as [_ Hlast]. inversion_clear Hlast as [|?? Hc _].
  exists name, c0. split; [done|]. by apply nameUnit_not_space.
Qed.

Lemma toPlainString_last e :
  wellFormed e = true →
  ∃ init c, toPlainString e = init ++ [c] ∧ isSpaceUnit c = false.
Proof.
  induction e as [name fs sid | param body IH fs sid | func _ arg _ id fs sid];
    intros Hwf; [simpl in *..|].
  - by apply validName_last.
  - apply andb_true_iff in Hwf as [_ Hbody].
    destruct (IH Hbody) as (init & c & -> & Hc).
    exists (c_lambda :: param ++ c_dot :: init), c. split; [|done].
    simpl. by rewrite <- !app_assoc.
  - exists (c_lparen :: atomText func ++ c_space :: atomText arg), c_rparen.
    split; [|done]. rewrite toPlainString_Application. by flat_goal.
Qed.

Lemma astEqual_plain a : astEqual a (plain a) = true.
Proof.
  induction a as [name fs sid | param body IH fs sid | func IHf arg IHa id fs sid];
    simpl.
  - by apply bool_decide_eq_true.
  - rewrite IH, bool_decide_true; done.
  - by rewrite IHf, IHa.
Qed.

Lemma parse_toPlainString_plain a :
  wellFormed a = true → parse (toPlainString a) = Parsed (plain a).
Proof.
  intros Hwf. unfold parse.
  destruct (toPlainString_head a Hwf) as (c & tl & Hhead & Hc).
  destruct (toPlainString_last a Hwf) as (init & c' & Hlast & Hc').
  rewrite (trim_id _ _ _ _ _ Hhead Hc Hlast Hc').
  set (source := toPlainString a).
  assert (ahead source 0 (toPlainString a ++ [])) as Hahead.
  { unfold ahead. by rewrite app_nil_r. }
  unfold Parser.parse.
  destruct (parse_toPlainString source a Hwf) as [_ Hexpr].
  rewrite (Hexpr _ 0%nat [] Hahead); [|done|].
  - cbn [bindResult]. apply ahead_app in Hahead.
    rewrite (skipWhitespace_stay _ _ _ Hahead) by done.
    apply ahead_nil in Hahead as [_ ->]. done.
  - unfold Parser.parseFuel. rewrite app_nil_r. fold source. lia.
Qed.

(** C2. Round trip: for every tree [a] built by the constructors over valid
    variable names, [parse(toPlainString(a))] returns a tree that is
    structurally equal to [a], the fields [fromSubstitution], [sourceId]
    and [id] being ignored. *)
Theorem parse_toPlainString_roundtrip a :
  wellFormed a = true →
  ∃ a', parse (toPlainString a) = Parsed a' ∧ astEqual a a' = true.
Proof.
  intros Hwf. exists (plain a). split.
  - by apply parse_toPlainString_plain.
  - apply astEqual_plain.
Qed.

Lemma parse_toPlainString_roundtrip_witness :
  wellFormed (reduceAt (numberRedexes captureExample) (Some 1)) = true
  ∧ ∃ a', parse (toPlainString (reduceAt (numberRedexes captureExample) (Some 1)))
          = Parsed a'
          ∧ astEqual (reduceAt (numberRedexes captureExample) (Some 1)) a' = true.
Proof.
  split; [by vm_compute|].
  apply (parse_toPlainString_roundtrip
           (reduceAt (numberRedexes captureExample) (Some 1))).
  by vm_compute.
Defined.

(** ** Reduction at an absent identifier *)

Lemma isRedex_Application func arg id fs sid :
  isRedex (Application func arg id fs sid) = isAbstraction func.
Proof. done. Qed.

Lemma hasRedexWithId_Abstraction param body fs sid targetId :
  hasRedexWithId (Abstraction param body fs sid) targetId
  = hasRedexWithId body targetId.
Proof. unfold hasRedexWithId. simpl. by rewrite andb_false_r. Qed.

Lemma hasRedexWithId_Application func arg id fs sid targetId :
  hasRedexWithId (Application func arg id fs sid) targetId
  = bool_decide (id = targetId) && isAbstraction func
    || hasRedexWithId func targetId || hasRedexWithId arg targetId.
Proof.
  unfold hasRedexWithId. simpl. rewrite existsb_app. by rewrite orb_assoc.
Qed.

(** [getRedex] finds nothing exactly when no node is a redex with that id. *)
Lemma getRedex_None e redexId :
  getRedex e redexId = None ↔ hasRedexWithId e redexId = false.
Proof.
  induction e as [name fs sid | param body IH fs sid | func IHf arg IHa id fs sid].
  - unfold hasRedexWithId. simpl. by rewrite andb_false_r.
  - by rewrite hasRedexWithId_Abstraction.
  - rewrite hasRedexWithId_Application. cbn [getRedex].
    rewrite isRedex_Application.
    destruct (bool_decide (id = redexId) && isAbstraction func); [done|].
    rewrite orb_false_l, orb_false_iff, <- IHf, <- IHa.
    destruct (getRedex func redexId); [|tauto].
    split; [done|]. by intros [? _].
Qed.

(** C4. Benign no-op: when no application of [e] both has [id] equal to
    [targetId] and is a redex, [reduceAt(e, targetId)] performs no beta
    step and returns a tree equal to [e]; it raises nothing. *)
Theorem reduceAt_absent_noop e targetId :
  hasRedexWithId e targetId = false → reduceAt e targetId = e.
Proof.
  induction e as [name fs sid | param body IH fs sid | func IHf arg IHa id fs sid];
    intros Habsent.
  - done.
  - rewrite hasRedexWithId_Abstraction in Habsent. simpl. by rewrite IH.
  - rewrite hasRedexWithId_Application in Habsent.
    apply orb_false_iff in Habsent as [[Hhere Hfunc]%orb_false_iff Harg].
    cbn [reduceAt]. rewrite isRedex_Application, Hhere.
    by rewrite IHf, IHa.
Qed.

Lemma reduceAt_absent_noop_witness :
  hasRedexWithId (numberRedexes captureExample) (Some 2) = false
  ∧ reduceAt (numberRedexes captureExample) (Some 2) = numberRedexes captureExample.
Proof.
  split; [by vm_compute|].
  apply (reduceAt_absent_noop (numberRedexes captureExample) (Some 2)).
  by vm_compute.
Defined.

(** ** Clearing the marks *)

(** C8. [clearSubstitutionMarks(expr)] returns a tree in which every node
    has [fromSubstitution = false] and [sourceId = null], and which has the
    shape, the variable names, the parameters and the redex [id] of every
    application of [expr]. *)
Theorem clearSubstitutionMarks_frame expr :
  Forall (λ n, fromSubstitution n = false ∧ sourceId n = None)
         (nodes (clearSubstitutionMarks expr))
  ∧ sameExceptMarks expr (clearSubstitutionMarks expr) = true.
Proof.
  induction expr as [name fs sid | param body [IHm IHs] fs sid
                    | func [IHfm IHfs] arg [IHam IHas] id fs sid]; simpl.
  - split; [by repeat constructor | by apply bool_decide_eq_true].
  - split; [by constructor|]. rewrite IHs, bool_decide_true; done.
  - split.
    + constructor; [done|]. by apply Forall_app.
    + rewrite IHfs, IHas, bool_decide_true; done.
Qed.

(** ** The parse failure boundary *)



(** ** Numbering the redexes *)

Lemma getRedexCount_traverse_add e : ∀ count,
  getRedexCount_traverse e count = count + getRedexCount e.
Proof.
  unfold getRedexCount.
  induction e as [name fs sid | param body IH fs sid | func IHf arg IHa id fs sid];
    intros count; simpl.
  - lia.
  - apply IH.
  - set (c0 := if isAbstraction func then count + 1 else count).
    set (z0 := if isAbstraction func then 0 + 1 else 0).
    rewrite (IHa (getRedexCount_traverse func c0)), (IHf c0),
      (IHa (getRedexCount_traverse func z0)), (IHf z0).
    subst c0 z0. destruct (isAbstraction func); lia.
Qed.

Lemma getRedexCount_Application func arg id fs sid :
  getRedexCount (Application func arg id fs sid)
  = (if isAbstraction func then 1 else 0) + getRedexCount func + getRedexCount arg.
Proof.
  unfold getRedexCount at 1. simpl.
  rewrite !getRedexCount_traverse_add. by destruct (isAbstraction func).
Qed.

Lemma getRedexCount_nonneg e : 0 ≤ getRedexCount e.
Proof.
  induction e as [name fs sid | param body IH fs sid | func IHf arg IHa id fs sid].
  - done.
  - exact IH.
  - rewrite getRedexCount_Application. destruct (isAbstraction func); lia.
Qed.

Lemma sameExceptIds_isAbstraction a b :
  sameExceptIds a b = true → isAbstraction b = isAbstraction a.
Proof. by destruct a, b. Qed.

Lemma getRedexes_traverse_app e : ∀ redexes,
  getRedexes_traverse e redexes = redexes ++ getRedexes e.
Proof.
  unfold getRedexes.
  induction e as [name fs sid | param body IH fs sid | func IHf arg IHa id fs sid];
    intros redexes; simpl.
  - by rewrite app_nil_r.
  - apply IH.
  - set (r0 := if isAbstraction func then redexes ++ _ else redexes).
    set (z0 := if isAbstraction func then _ else []).
    rewrite (IHa (getRedexes_traverse func r0)), (IHf r0),
      (IHa (getRedexes_traverse func z0)), (IHf z0).
    subst r0 z0. destruct (isAbstraction func); by rewrite <- ?app_assoc.
Qed.

Lemma getRedexes_Application func arg id fs sid :
  getRedexes (Application func arg id fs sid)
  = (if isAbstraction func then [(id, Application func arg id fs sid)] else [])
    ++ getRedexes func ++ getRedexes arg.
Proof.
  unfold getRedexes at 1. simpl.
  rewrite !getRedexes_traverse_app. destruct (isAbstraction func); by rewrite <- ?app_assoc.
Qed.

(** What one call of [numberRedexes(expr, counter)] does, for any value of
    the counter. *)
Lemma numberRedexes_from_spec e : ∀ counter,
  snd (numberRedexes_from e counter) = counter + getRedexCount e
  ∧ sameExceptIds e (fst (numberRedexes_from e counter)) = true
  ∧ Forall (λ n, is_Some (appId n) ↔ isRedex n = true)
           (nodes (fst (numberRedexes_from e counter)))
  ∧ omap appId (nodes (fst (numberRedexes_from e counter)))
    = seqZ counter (getRedexCount e)
  ∧ fst <$> getRedexes (fst (numberRedexes_from e counter))
    = Some <$> seqZ counter (getRedexCount e).
Proof.
  induction e as [name fs sid | param body IH fs sid | func IHf arg IHa id fs sid];
    intros counter.
  - change (getRedexCount (Variable_ name fs sid)) with 0.
    rewrite seqZ_nil by done. simpl.
    split_and!; [lia|by rewrite !bool_decide_true| |done..].
    repeat constructor; simpl; [by intros []|done].
  - destruct (IH counter) as (Hc & Hsame & Hids & Hseq & Hlist).
    change (getRedexCount (Abstraction param body fs sid)) with (getRedexCount body).
    change (getRedexes (Abstraction param body fs sid)) with (getRedexes body).
    simpl. destruct (numberRedexes_from body counter) as [body' counter'].
    simpl in *. split_and!; [done| | |done..].
    + by rewrite Hsame, !bool_decide_true.
    + constructor; [|done]. simpl. split; [by intros []|done].
  - cbn [numberRedexes_from]. rewrite isRedex_Application.
    set (id' := if isAbstraction func then Some counter else None).
    set (counter0 := if isAbstraction func then counter + 1 else counter).
    replace (if isAbstraction func then (Some counter, counter + 1) else (None, counter))
      with (id', counter0) by (subst id' counter0; by destruct (isAbstraction func)).
    destruct (IHf counter0) as (Hcf & Hsamef & Hidsf & Hseqf & Hlistf).
    destruct (numberRedexes_from func counter0) as [func' counter1].
    simpl in Hcf, Hsamef, Hidsf, Hseqf, Hlistf.
    destruct (IHa counter1) as (Hca & Hsamea & Hidsa & Hseqa & Hlista).
    destruct (numberRedexes_from arg counter1) as [arg' counter2].
    simpl in Hca, Hsamea, Hidsa, Hseqa, Hlista.
    pose proof (getRedexCount_nonneg func). pose proof (getRedexCount_nonneg arg).
    pose proof (sameExceptIds_isAbstraction _ _ Hsamef) as Habs.
    cbn [fst snd]. rewrite getRedexCount_Application.
    split_and!.
    + subst counter0. destruct (isAbstraction func); lia.
    + simpl. by rewrite Hsamef, Hsamea, !bool_decide_true.
    + cbn [nodes]. constructor; [|by apply Forall_app].
      simpl. rewrite Habs. subst id'. destruct (isAbstraction func); [done|].
      split; [by intros []|done].
    + cbn [nodes omap list_omap appId]. rewrite omap_app, Hseqf, Hseqa.
      subst id' counter0 counter1. destruct (isAbstraction func).
      * rewrite (seqZ_cons counter) by lia. f_equal.
        replace (Z.pred (1 + getRedexCount func + getRedexCount arg))
          with (getRedexCount func + getRedexCount arg) by lia.
        rewrite seqZ_app by lia. by replace (Z.succ counter) with (counter + 1) by lia.
      * rewrite Z.add_0_l. by rewrite seqZ_app by lia.
    + rewrite getRedexes_Application, Habs, !fmap_app, Hlistf, Hlista.
      subst id' counter0 counter1. destruct (isAbstraction func).
      * rewrite (seqZ_cons counter) by lia. simpl. f_equal.
        replace (Z.pred (1 + getRedexCount func + getRedexCount arg))
          with (getRedexCount func + getRedexCount arg) by lia.
        rewrite seqZ_app, fmap_app by lia.
        by replace (Z.succ counter) with (counter + 1) by lia.
      * rewrite Z.add_0_l. by rewrite seqZ_app, fmap_app by lia.
Qed.

(** C3. [numberRedexes(expr)] returns a tree with the shape, names and
    provenance fields of [expr]; in it a node carries a non-null [id] if
    and only if it is a redex; and the ids met in one pre-order walk (an
    application before its [func], [func] before [arg]) are 1, 2, ...,
    [getRedexCount(expr)], each once: this is also the list of ids that
    [getRedexes] returns. *)
Theorem numberRedexes_sequential expr :
  sameExceptIds expr (numberRedexes expr) = true
  ∧ Forall (λ n, is_Some (appId n) ↔ isRedex n = true) (nodes (numberRedexes expr))
  ∧ omap appId (nodes (numberRedexes expr)) = seqZ 1 (getRedexCount expr)
  ∧ fst <$> getRedexes (numberRedexes expr) = Some <$> seqZ 1 (getRedexCount expr)
  ∧ getRedexCount (numberRedexes expr) = getRedexCount expr.
Proof.
  destruct (numberRedexes_from_spec expr 1) as (_ & Hsame & Hids & Hseq & Hlist).
  split_and!; [done..|].
  apply (f_equal length) in Hlist.
  rewrite !length_fmap, length_seqZ in Hlist.
  pose proof (getRedexCount_nonneg expr).
  assert (∀ e, length (getRedexes e) = Z.to_nat (getRedexCount e)) as Hlen.
  { clear. induction e as [| |func IHf arg IHa id fs sid]; [done..|].
    rewrite getRedexes_Application, getRedexCount_Application, !length_app, IHf, IHa.
    pose proof (getRedexCount_nonneg func). pose proof (getRedexCount_nonneg arg).
    destruct (isAbstraction func); simpl; lia. }
  rewrite Hlen in Hlist. pose proof (getRedexCount_nonneg (numberRedexes expr)).
  unfold numberRedexes in *. lia.
Qed.

(** ** Duplication *)

(** C6, as the code has it: the redex must be numbered before it can be
    chosen.  [reduceAt(numberRedexes(parse("(\\x.x x) arg")), 1)] yields
    [(arg arg)]; the result has exactly two nodes with [fromSubstitution],
    both reported by [getSubstitutions] under the one source id 1. *)
Theorem reduceAt_duplication :
  parse (str "(\x.x x) arg") = Parsed duplicationExample
  ∧ toPlainString (reduceAt (numberRedexes duplicationExample) (Some 1))
    = str "(arg arg)"
  ∧ getSubstitutions (reduceAt (numberRedexes duplicationExample) (Some 1)) !! Some 1
    = Some [Variable_ (str "arg") true (Some 1); Variable_ (str "arg") true (Some 1)]
  ∧ size (getSubstitutions (reduceAt (numberRedexes duplicationExample) (Some 1)))
    = 1%nat
  ∧ List.filter fromSubstitution
      (nodes (reduceAt (numberRedexes duplicationExample) (Some 1)))
    = [Variable_ (str "arg") true (Some 1); Variable_ (str "arg") true (Some 1)].
Proof. split_and!; by vm_compute. Qed.

(** C6 as stated fails: a freshly parsed tree has no redex ids, so
    [reduceAt(parse("(\\x.x x) arg"), 1)] finds no redex 1 and returns the
    tree as it is, not [(arg arg)]. *)
Lemma reduceAt_unnumbered_counterexample :
  ¬ ∃ e, parse (str "(\x.x x) arg") = Parsed e
         ∧ toPlainString (reduceAt e (Some 1)) = str "(arg arg)".
Proof.
  intros (e & Hparse & Htext).
  vm_compute in Hparse. injection Hparse as <-.
  vm_compute in Htext. discriminate Htext.
Qed.

(** ** Collecting the substituted subtrees *)

Lemma extend_extend nodes more1 more2 :
  extend (extend nodes more1) more2 = extend nodes (more1 ++ more2).
Proof.
  destruct more1 as [|n1 more1]; [done|].
  destruct more2 as [|n2 more2]; simpl.
  - by rewrite app_nil_r.
  - by rewrite <- app_assoc.
Qed.

(** The two statements that push a node: create the array if the source id
    is new, then append. *)
Lemma push_lookup (e : Expr) (substitutions : gmap (option Z) (list Expr)) k :
  alter (λ nodes, nodes ++ [e]) (sourceId e)
    (if bool_decide (substitutions !! sourceId e = None)
     then <[ sourceId e := [] ]> substitutions
     else substitutions) !! k
  = extend (substitutions !! k) (filter (λ n, sourceId n = k) [e]).
Proof.
  rewrite filter_cons, filter_nil.
  destruct (decide (sourceId e = k)) as [<-|Hne].
  - rewrite lookup_alter_eq. case_bool_decide as Hnew.
    + rewrite lookup_insert_eq, Hnew. done.
    + destruct (substitutions !! sourceId e); done.
  - rewrite lookup_alter_ne by done. case_bool_decide; [|done].
    by rewrite lookup_insert_ne.
Qed.

Lemma getSubstitutions_traverse_lookup e :
  ∀ inSubstitution (substitutions : gmap (option Z) (list Expr)) k,
  getSubstitutions_traverse e inSubstitution substitutions !! k
  = extend (substitutions !! k)
      (filter (λ n, sourceId n = k) (pushedFrom e inSubstitution)).
Proof.
  induction e as [name fs sid | param body IH fs sid | func IHf arg IHa id fs sid];
    intros inSubstitution substitutions k.
  - cbn [getSubstitutions_traverse pushedFrom]. rewrite app_nil_r.
    destruct (fromSubstitution _ && negb inSubstitution); [|done].
    apply push_lookup.
  - cbn [getSubstitutions_traverse pushedFrom]. rewrite filter_app, <- extend_extend.
    destruct (fromSubstitution _ && negb inSubstitution) eqn:Hhere.
    + apply andb_true_iff in Hhere as [Hfs _]. rewrite Hfs, orb_true_r.
      rewrite IH. f_equal. apply push_lookup.
    + rewrite IH. simpl. f_equal. f_equal.
      cbn [fromSubstitution] in *. by destruct fs, inSubstitution.
  - cbn [getSubstitutions_traverse pushedFrom].
    rewrite !filter_app, <- !extend_extend.
    destruct (fromSubstitution _ && negb inSubstitution) eqn:Hhere.
    + apply andb_true_iff in Hhere as [Hfs _]. rewrite Hfs, orb_true_r.
      rewrite IHa, IHf. do 2 f_equal. apply push_lookup.
    + rewrite IHa, IHf. simpl.
      cbn [fromSubstitution] in *. by destruct fs, inSubstitution.
Qed.

Lemma omap_filter_fmap {A B C} (g : A → B) (f : B → option C) (f' : A → option C)
    (P : B → bool) (P' : A → bool) (l : list A) :
  (∀ x, f (g x) = f' x) → (∀ x, P (g x) = P' x) →
  omap f (filter (λ y, P y) (g <$> l)) = omap f' (filter (λ x, P' x) l).
Proof.
  intros Hf HP. induction l as [|x l IH]; [done|].
  rewrite fmap_cons, !filter_cons, <- HP.
  destruct (decide (P (g x))); [|done].
  cbn [omap list_omap]. by rewrite Hf, IH.
Qed.

Lemma reportedFrom_child e s c inSubstitution k path :
  child e s = Some c →
  reportedFrom e inSubstitution k (s :: path)
  = reportedFrom c (inSubstitution || fromSubstitution e) k path.
Proof.
  intros Hc. unfold reportedFrom. simpl. rewrite Hc.
  destruct (nodeAt c path); [|done]. by rewrite orb_assoc.
Qed.

Lemma nodeAt_child e s c path :
  child e s = Some c → nodeAt e (s :: path) = nodeAt c path.
Proof. intros Hc. simpl. by rewrite Hc. Qed.

(** The nodes pushed are the nodes at the marked positions that have no
    marked position above them. *)
Lemma pushedFrom_positions e : ∀ inSubstitution k,
  filter (λ n, sourceId n = k) (pushedFrom e inSubstitution)
  = omap (nodeAt e) (filter (λ path, reportedFrom e inSubstitution k path) (positions e)).
Proof.
  assert (∀ e inSubstitution k,
            filter (λ n, sourceId n = k)
              (if fromSubstitution e && negb inSubstitution then [e] else [])
            = omap (nodeAt e) (filter (λ path, reportedFrom e inSubstitution k path) [[]]))
    as Hroot.
  { clear e. intros e inSubstitution k. rewrite filter_cons, filter_nil.
    unfold reportedFrom. simpl. rewrite orb_false_r.
    destruct (fromSubstitution e && negb inSubstitution); simpl.
    - rewrite filter_cons, filter_nil.
      destruct (decide (sourceId e = k)) as [Hk|Hk].
      + rewrite (bool_decide_true _ Hk). by rewrite decide_True.
      + rewrite (bool_decide_false _ Hk). by rewrite decide_False by (by intros []).
    - done. }
  induction e as [name fs sid | param body IH fs sid | func IHf arg IHa id fs sid];
    intros inSubstitution k; cbn [pushedFrom positions].
  - rewrite app_nil_r. apply Hroot.
  - change ([] :: ?l) with ([[]] ++ l).
    rewrite !filter_app, omap_app, <- Hroot. f_equal.
    rewrite IH. symmetry. apply omap_filter_fmap; intros path.
    + by apply nodeAt_child.
    + by apply reportedFrom_child.
  - change ([] :: ?l) with ([[]] ++ l).
    rewrite !filter_app, !omap_app, <- Hroot. f_equal.
    rewrite IHf, IHa. f_equal.
    + symmetry. apply omap_filter_fmap; intros path.
      * by apply nodeAt_child.
      * by apply reportedFrom_child.
    + symmetry. apply omap_filter_fmap; intros path.
      * by apply nodeAt_child.
      * by apply reportedFrom_child.
Qed.

(** C5, as the code has it.  [getSubstitutions(expr)] reports a node if and
    only if its [fromSubstitution] flag is true and no ancestor of it, near
    or far and whatever its source id, has the flag: under each source id
    [k] the map lists, in pre-order, exactly the nodes at the outermost
    marked positions whose own source id is [k], and it has no entry for a
    source id without such a node. *)
Theorem getSubstitutions_outermost expr k :
  getSubstitutions expr !! k = entry (outermostNodes expr k).
Proof.
  unfold getSubstitutions, outermostNodes, outermostMarked.
  rewrite getSubstitutions_traverse_lookup, lookup_empty, pushedFrom_positions.
  by destruct (omap _ _).
Qed.

(** C5 as stated fails when the parent is marked by another substitution.
    In [((f ((λy.y) w)) (f w))] below, both operands are copies made by
    redex 1, and the [w] of the second one was then substituted by redex 2:
    this [w] is marked and its parent belongs to substitution 1, not 2, yet
    [w] is not reported, and the map has no entry for source id 2. *)
Lemma getSubstitutions_nested_counterexample :
  parse (str "(\x.x x) (f ((\y.y) w))") = Parsed nestedExample
  ∧ toPlainString nestedReduced = str "((f ((" ++ c_lambda :: str "y.y) w)) (f w))"
  ∧ nodeAt nestedReduced [ToArg] = Some
      (Application (Variable_ (str "f") true (Some 1))
                   (Variable_ (str "w") true (Some 2)) None true (Some 1))
  ∧ nodeAt nestedReduced [ToArg; ToArg] = Some (Variable_ (str "w") true (Some 2))
  ∧ markedApartFromParent nestedReduced [ToArg; ToArg] = true
  ∧ outermostMarked nestedReduced (Some 2) [ToArg; ToArg] = false
  ∧ getSubstitutions nestedReduced !! Some 2 = None
  ∧ ¬ reportsApartFromParent.
Proof.
  split_and!; try by vm_compute.
  intros Hclaim.
  destruct (Hclaim nestedReduced [ToArg; ToArg] (Variable_ (str "w") true (Some 2)))
    as [_ Hreported]; [by vm_compute|].
  specialize (Hreported ltac:(by vm_compute)).
  vm_compute in Hreported. by apply not_elem_of_nil in Hreported.
Qed.

(** * Further properties of the kernel *)

(** ** Variable usage *)

Lemma variableAppearsIn_freeVariables_aux expr varName :
  variableAppearsIn expr varName = bool_decide (varName ∈ freeVariables expr).
Proof.
  induction expr as [name fs sid | param body IH fs sid | func IHf arg IHa id fs sid];
    simpl.
  - apply bool_decide_ext. set_solver.
  - destruct (decide (param = varName)) as [Hp|Hp].
    + rewrite (bool_decide_true _ Hp). symmetry. apply bool_decide_eq_false. set_solver.
    + rewrite (bool_decide_false _ Hp), IH. apply bool_decide_ext. set_solver.
  - rewrite IHf, IHa.
    destruct (bool_decide (varName ∈ freeVariables func)) eqn:Hf; simpl.
    + apply bool_decide_eq_true in Hf. symmetry. apply bool_decide_eq_true. set_solver.
    + apply bool_decide_eq_false in Hf. apply bool_decide_ext. set_solver.
Qed.

(** X1. [variableAppearsIn(expr, varName)] is true exactly when [varName]
    is in [freeVariables(expr)]: the shadowing-aware test and the set agree
    on what a free occurrence is.  So [isArgumentUsed] of a redex
    [(λparam.body) arg] tells whether [param] is a free variable of
    [body]. *)
Theorem variableAppearsIn_freeVariables expr varName param body arg id fs sid lfs lsid :
  variableAppearsIn expr varName = bool_decide (varName ∈ freeVariables expr)
  ∧ isArgumentUsed (Application (Abstraction param body lfs lsid) arg id fs sid)
    = bool_decide (param ∈ freeVariables body).
Proof.
  split; [apply variableAppearsIn_freeVariables_aux|].
  unfold isArgumentUsed. simpl. apply variableAppearsIn_freeVariables_aux.
Qed.

Lemma findVariableUses_traverse_app e varName : ∀ uses,
  findVariableUses_traverse e varName uses = uses ++ findVariableUses e varName.
Proof.
  unfold findVariableUses.
  induction e as [name fs sid | param body IH fs sid | func IHf arg IHa id fs sid];
    intros uses; simpl.
  - case_bool_decide; [done|by rewrite app_nil_r].
  - case_bool_decide; [apply IH|by rewrite app_nil_r].
  - rewrite (IHa (findVariableUses_traverse func varName uses)), (IHf uses),
      (IHa (findVariableUses_traverse func varName [])).
    by rewrite app_assoc.
Qed.

Lemma findVariableUses_Application func arg id fs sid varName :
  findVariableUses (Application func arg id fs sid) varName
  = findVariableUses func varName ++ findVariableUses arg varName.
Proof.
  unfold findVariableUses at 1. simpl. by rewrite findVariableUses_traverse_app.
Qed.

Lemma findVariableUses_Abstraction param body fs sid varName :
  findVariableUses (Abstraction param body fs sid) varName
  = if bool_decide (param = varName) then [] else findVariableUses body varName.
Proof.
  unfold findVariableUses. simpl. by repeat case_bool_decide.
Qed.

Lemma findVariableUses_Variable name fs sid varName :
  findVariableUses (Variable_ name fs sid) varName
  = if bool_decide (name = varName) then [Variable_ name fs sid] else [].
Proof. unfold findVariableUses. simpl. by case_bool_decide. Qed.

Lemma findVariableUses_spec expr varName :
  variableAppearsIn expr varName
  = bool_decide (0 < length (findVariableUses expr varName))%nat
  ∧ Forall (λ use, use ∈ nodes expr ∧ ∃ fs sid, use = Variable_ varName fs sid)
           (findVariableUses expr varName).
Proof.
  induction expr as [name fs sid | param body [IHv IHu] fs sid
                    | func [IHfv IHfu] arg [IHav IHau] id fs sid].
  - rewrite findVariableUses_Variable. simpl.
    destruct (decide (name = varName)) as [Hn|Hn].
    + rewrite !(bool_decide_true _ Hn). split; [reflexivity|].
      subst name. constructor; [|constructor]. split; [set_solver|eauto].
    + rewrite !(bool_decide_false _ Hn). split; [reflexivity|constructor].
  - rewrite findVariableUses_Abstraction. simpl.
    destruct (decide (param = varName)) as [Hp|Hp].
    { rewrite !(bool_decide_true _ Hp). split; [reflexivity|constructor]. }
    rewrite !(bool_decide_false _ Hp).
    split; [done|]. eapply Forall_impl; [exact IHu|].
    intros use [Hin Hvar]. split; [|done]. simpl. set_solver.
  - rewrite findVariableUses_Application, length_app. simpl. rewrite IHfv, IHav.
    split.
    + repeat case_bool_decide; simpl; try done; lia.
    + apply Forall_app. split.
      * eapply Forall_impl; [exact IHfu|]. intros use [Hin Hvar].
        split; [|done]. set_solver.
      * eapply Forall_impl; [exact IHau|]. intros use [Hin Hvar].
        split; [|done]. set_solver.
Qed.

(** X2. For any node, [isArgumentUsed] is true exactly when
    [getParameterUses] returns at least one node; on a node that is not a
    redex the first is false and the second is empty.  Every node [findVariableUses] returns
    is a [Variable] node of the expression that carries the name asked
    for, and there is one exactly when [variableAppearsIn] is true. *)
Theorem parameter_uses_agree redexExpr expr varName :
  isArgumentUsed redexExpr = bool_decide (0 < length (getParameterUses redexExpr))%nat
  ∧ isRedex redexExpr
    || negb (isArgumentUsed redexExpr)
       && (length (getParameterUses redexExpr) =? 0)%nat = true
  ∧ variableAppearsIn expr varName
    = bool_decide (0 < length (findVariableUses expr varName))%nat
  ∧ Forall (λ use, use ∈ nodes expr ∧ ∃ fs sid, use = Variable_ varName fs sid)
           (findVariableUses expr varName).
Proof.
  split_and!; [| |apply findVariableUses_spec..].
  - unfold isArgumentUsed, getParameterUses.
    destruct (isRedex redexExpr) eqn:Hredex; [|done]. simpl.
    destruct redexExpr as [| |func arg id fs sid]; [done..|].
    destruct func; [done| |done]. apply findVariableUses_spec.
  - unfold isArgumentUsed, getParameterUses. by destruct (isRedex redexExpr).
Qed.

(** ** Looking redexes up *)

Lemma getRedex_found e redexId redex :
  getRedex e redexId = Some redex →
  redex ∈ nodes e ∧ isRedex redex = true ∧ appId redex = redexId.
Proof.
  induction e as [name fs sid | param body IH fs sid | func IHf arg IHa id fs sid];
    simpl.
  - done.
  - intros Hfound. destruct (IH Hfound) as (? & ? & ?). split_and!; [set_solver|done..].
  - destruct (bool_decide (id = redexId) && isAbstraction func) eqn:Hhere.
    + intros [= <-]. apply andb_true_iff in Hhere as [Hid%bool_decide_eq_true Habs].
      split_and!; [set_solver|done..].
    + destruct (getRedex func redexId) as [found|] eqn:Hfunc.
      * intros [= ->]. destruct (IHf eq_refl) as (? & ? & ?).
        split_and!; [set_solver|done..].
      * intros Harg. destruct (IHa Harg) as (? & ? & ?).
        split_and!; [set_solver|done..].
Qed.

Lemma getRedexArg_getRedex e redexId :
  getRedexArg e redexId = getRedex e redexId ≫= argOf.
Proof.
  induction e as [name fs sid | param body IH fs sid | func IHf arg IHa id fs sid];
    simpl.
  - done.
  - exact IH.
  - destruct (bool_decide (id = redexId) && isAbstraction func); [done|].
    rewrite IHf, IHa.
    destruct (getRedex func redexId) as [found|] eqn:Hfound; [|done].
    simpl. apply getRedex_found in Hfound as (_ & Hredex & _).
    by destruct found.
Qed.

(** X3. [getRedex] and [getRedexArg] agree and miss together.  When
    [getRedex(expr, redexId)] finds a node, it is a node of [expr], it is
    a redex, its [id] is [redexId], and [getRedexArg] returns its [arg];
    when no redex of [expr] has that id, both return [null]. *)
Theorem getRedex_getRedexArg expr redexId :
  getRedexArg expr redexId = getRedex expr redexId ≫= argOf
  ∧ match getRedex expr redexId with
    | Some redex =>
        redex ∈ nodes expr ∧ isRedex redex = true ∧ appId redex = redexId
        ∧ is_Some (getRedexArg expr redexId)
    | None => hasRedexWithId expr redexId = false ∧ getRedexArg expr redexId = None
    end.
Proof.
  split; [apply getRedexArg_getRedex|].
  rewrite getRedexArg_getRedex.
  destruct (getRedex expr redexId) as [redex|] eqn:Hfound.
  - destruct (getRedex_found _ _ _ Hfound) as (? & Hredex & ?).
    split_and!; [done..|]. by destruct redex.
  - split; [by apply getRedex_None|done].
Qed.

Lemma getRedexes_nodes e :
  getRedexes e = (λ n, (appId n, n)) <$> filter (λ n, isRedex n) (nodes e).
Proof.
  induction e as [name fs sid | param body IH fs sid | func IHf arg IHa id fs sid].
  - done.
  - change (getRedexes (Abstraction param body fs sid)) with (getRedexes body).
    cbn [nodes]. rewrite filter_cons_False by (by intros []). exact IH.
  - rewrite getRedexes_Application. cbn [nodes].
    rewrite filter_cons, filter_app, IHf, IHa. cbn [isRedex].
    destruct (isAbstraction func); simpl.
    + by rewrite fmap_app.
    + by rewrite fmap_app.
Qed.

Lemma getRedexCount_length e : Z.of_nat (length (getRedexes e)) = getRedexCount e.
Proof.
  induction e as [name fs sid | param body IH fs sid | func IHf arg IHa id fs sid].
  - done.
  - exact IH.
  - rewrite getRedexes_Application, getRedexCount_Application, !length_app.
    destruct (isAbstraction func); simpl length; lia.
Qed.

(** X4. [getRedexes(expr)] lists exactly the redex nodes of [expr], in
    pre-order, each paired with the [id] it carries (which is [null] on a
    tree that was not numbered); [getRedexCount(expr)] is the length of
    that list. *)
Theorem getRedexes_are_the_redexes expr :
  getRedexes expr = (λ n, (appId n, n)) <$> filter (λ n, isRedex n) (nodes expr)
  ∧ Z.of_nat (length (getRedexes expr)) = getRedexCount expr.
Proof. split; [apply getRedexes_nodes | apply getRedexCount_length]. Qed.

Lemma hasRedexWithId_getRedexes e redexId :
  hasRedexWithId e redexId = true ↔ redexId ∈ (getRedexes e).*1.
Proof.
  unfold hasRedexWithId. rewrite getRedexes_nodes, existsb_exists.
  rewrite <- list_fmap_compose. rewrite list_elem_of_fmap.
  split.
  - intros (n & Hin%list_elem_of_In & [Hid%bool_decide_eq_true Hredex]%andb_true_iff).
    exists n. split; [done|]. apply list_elem_of_filter. split; [|done].
    by apply Is_true_true.
  - intros (n & Hid & [Hredex%Is_true_true Hin]%list_elem_of_filter).
    exists n. split; [by apply list_elem_of_In|].
    simpl in Hid. rewrite Hredex, andb_true_r. by apply bool_decide_eq_true.
Qed.

Lemma getRedexes_numberRedexes e :
  (getRedexes (numberRedexes e)).*1 = Some <$> seqZ 1 (getRedexCount e).
Proof. by destruct (numberRedexes_from_spec e 1) as (_ & _ & _ & _ & Hlist). Qed.

Lemma hasRedexWithId_numberRedexes e redexId :
  hasRedexWithId (numberRedexes e) redexId = true
  ↔ ∃ i, redexId = Some i ∧ 1 ≤ i ≤ getRedexCount e.
Proof.
  rewrite hasRedexWithId_getRedexes, getRedexes_numberRedexes, list_elem_of_fmap.
  setoid_rewrite elem_of_seqZ. split.
  - intros (i & -> & Hi). exists i. split; [done|lia].
  - intros (i & -> & Hi). exists i. split; [done|lia].
Qed.

(** [reduceAt] rebuilds the tree as it is when [getRedex] finds no redex
    with the id. *)
Lemma reduceAt_unchanged e targetId :
  getRedex e targetId = None → reduceAt e targetId = e.
Proof.
  induction e as [name fs sid | param body IH fs sid | func IHf arg IHa id fs sid];
    simpl; intros Hnone.
  - done.
  - by rewrite IH.
  - destruct (bool_decide (id = targetId) && isAbstraction func); [done|].
    destruct (getRedex func targetId); [done|]. by rewrite IHf, IHa.
Qed.

(** X5. After [numberRedexes], the ids that can be looked up and reduced
    are exactly 1 .. [getRedexCount(expr)]: [getRedex] finds a redex for
    an id if and only if the id is a number in that range.  For [null] and
    for any number outside the range [getRedex] and [getRedexArg] return
    [null] and [reduceAt] returns the numbered tree as it is. *)
Theorem numbered_ids_in_range expr redexId :
  (is_Some (getRedex (numberRedexes expr) redexId)
   ↔ ∃ i, redexId = Some i ∧ 1 ≤ i ≤ getRedexCount expr)
  ∧ (is_Some (getRedex (numberRedexes expr) redexId)
     ∨ getRedex (numberRedexes expr) redexId = None
       ∧ getRedexArg (numberRedexes expr) redexId = None
       ∧ reduceAt (numberRedexes expr) redexId = numberRedexes expr).
Proof.
  split.
  - rewrite <- hasRedexWithId_numberRedexes, <- not_eq_None_Some, getRedex_None.
    by destruct (hasRedexWithId _ _).
  - destruct (getRedex (numberRedexes expr) redexId) eqn:Hfound; [by left|].
    right. split_and!; [done| |by apply reduceAt_unchanged].
    by rewrite getRedexArg_getRedex, Hfound.
Qed.

(** ** Numbering and clearing, composed *)

Lemma numberRedexes_from_ignores_ids a : ∀ b counter,
  sameExceptIds a b = true →
  numberRedexes_from a counter = numberRedexes_from b counter.
Proof.
  induction a as [name fs sid | param body IH fs sid | func IHf arg IHa id fs sid];
    intros [name' fs' sid' | param' body' fs' sid' | func' arg' id' fs' sid'] counter;
    simpl; try done.
  - intros [[->%bool_decide_eq_true ->%bool_decide_eq_true]%andb_true_iff
             ->%bool_decide_eq_true]%andb_true_iff. done.
  - intros [[[->%bool_decide_eq_true Hbody]%andb_true_iff
              ->%bool_decide_eq_true]%andb_true_iff
             ->%bool_decide_eq_true]%andb_true_iff.
    by rewrite (IH body').
  - intros [[[Hfunc Harg]%andb_true_iff
              ->%bool_decide_eq_true]%andb_true_iff
             ->%bool_decide_eq_true]%andb_true_iff.
    rewrite (sameExceptIds_isAbstraction _ _ Hfunc).
    destruct (isAbstraction func).
    + rewrite (IHf func' _ Hfunc).
      destruct (numberRedexes_from func' _) as [func2 counter1].
      by rewrite (IHa arg' _ Harg).
    + rewrite (IHf func' _ Hfunc).
      destruct (numberRedexes_from func' _) as [func2 counter1].
      by rewrite (IHa arg' _ Harg).
Qed.

Lemma isAbstraction_clearSubstitutionMarks e :
  isAbstraction (clearSubstitutionMarks e) = isAbstraction e.
Proof. by destruct e. Qed.

Lemma numberRedexes_from_clearSubstitutionMarks e : ∀ counter,
  numberRedexes_from (clearSubstitutionMarks e) counter
  = (clearSubstitutionMarks (numberRedexes_from e counter).1,
     (numberRedexes_from e counter).2).
Proof.
  induction e as [name fs sid | param body IH fs sid | func IHf arg IHa id fs sid];
    intros counter; simpl.
  - done.
  - rewrite IH. by destruct (numberRedexes_from body counter).
  - rewrite isAbstraction_clearSubstitutionMarks.
    destruct (isAbstraction func).
    + rewrite IHf. destruct (numberRedexes_from func _) as [func' counter1].
      simpl. rewrite IHa. by destruct (numberRedexes_from arg _).
    + rewrite IHf. destruct (numberRedexes_from func _) as [func' counter1].
      simpl. rewrite IHa. by destruct (numberRedexes_from arg _).
Qed.

Lemma clearSubstitutionMarks_idempotent e :
  clearSubstitutionMarks (clearSubstitutionMarks e) = clearSubstitutionMarks e.
Proof. induction e; simpl; congruence. Qed.

Lemma numberRedexes_idempotent e : numberRedexes (numberRedexes e) = numberRedexes e.
Proof.
  unfold numberRedexes at 1 3.
  destruct (numberRedexes_from_spec e 1) as (_ & Hsame & _).
  by rewrite <- (numberRedexes_from_ignores_ids e (numberRedexes e) 1 Hsame).
Qed.

Lemma numberRedexes_clearSubstitutionMarks e :
  numberRedexes (clearSubstitutionMarks e) = clearSubstitutionMarks (numberRedexes e).
Proof. unfold numberRedexes. by rewrite numberRedexes_from_clearSubstitutionMarks. Qed.

(** X6. Numbering reads only the shape of the tree: the ids a tree already
    carries have no effect on the result, so [numberRedexes] is idempotent.
    It commutes with [clearSubstitutionMarks], which is idempotent too;
    hence clearing and numbering an already numbered tree, as the CLI and
    the tests' [reduceStep] do, only clears it. *)
Theorem numberRedexes_clear_compose expr :
  numberRedexes (numberRedexes expr) = numberRedexes expr
  ∧ numberRedexes (clearSubstitutionMarks expr)
    = clearSubstitutionMarks (numberRedexes expr)
  ∧ clearSubstitutionMarks (clearSubstitutionMarks expr)
    = clearSubstitutionMarks expr
  ∧ numberRedexes (clearSubstitutionMarks (numberRedexes expr))
    = clearSubstitutionMarks (numberRedexes expr).
Proof.
  split_and!.
  - apply numberRedexes_idempotent.
  - apply numberRedexes_clearSubstitutionMarks.
  - apply clearSubstitutionMarks_idempotent.
  - by rewrite numberRedexes_clearSubstitutionMarks, numberRedexes_idempotent.
Qed.

(** ** Trees without marks *)

Lemma pushedFrom_unmarked e : ∀ inSubstitution,
  Forall (λ n, fromSubstitution n = false) (nodes e) →
  pushedFrom e inSubstitution = [].
Proof.
  induction e as [name fs sid | param body IH fs sid | func IHf arg IHa id fs sid];
    intros inSubstitution Hnodes; simpl in *.
  - inversion_clear Hnodes as [|?? Hfs _]. simpl in Hfs. by rewrite Hfs.
  - inversion_clear Hnodes as [|?? Hfs Hbody]. simpl in Hfs. rewrite Hfs. simpl.
    by apply IH.
  - inversion_clear Hnodes as [|?? Hfs Hrest]. simpl in Hfs. rewrite Hfs. simpl.
    apply Forall_app in Hrest as [Hfunc Harg].
    by rewrite IHf, IHa.
Qed.

Lemma getSubstitutions_pushed e :
  pushedFrom e false = [] → getSubstitutions e = ∅.
Proof.
  intros Hpushed. apply map_eq. intros k. unfold getSubstitutions.
  by rewrite getSubstitutions_traverse_lookup, Hpushed, lookup_empty.
Qed.

Lemma clearSubstitutionMarks_unmarked e :
  Forall (λ n, fromSubstitution n = false) (nodes (clearSubstitutionMarks e)).
Proof.
  induction e as [name fs sid | param body IH fs sid | func IHf arg IHa id fs sid];
    simpl.
  - by repeat constructor.
  - by constructor.
  - constructor; [done|]. by apply Forall_app.
Qed.

Lemma pushedFrom_nil_unmarked e :
  pushedFrom e false = [] → Forall (λ n, fromSubstitution n = false) (nodes e).
Proof.
  induction e as [name fs sid | param body IH fs sid | func IHf arg IHa id fs sid];
    simpl; rewrite andb_true_r.
  - destruct fs; [done|]. by repeat constructor.
  - destruct fs; [done|]. simpl. intros Hbody. constructor; [done|]. by apply IH.
  - destruct fs; [done|]. simpl. intros [Hfunc Harg]%app_eq_nil.
    constructor; [done|]. apply Forall_app. split; [by apply IHf|by apply IHa].
Qed.

Lemma getSubstitutions_empty_pushed e :
  getSubstitutions e = ∅ → pushedFrom e false = [].
Proof.
  intros Hempty. destruct (pushedFrom e false) as [|n pushed] eqn:Hpushed; [done|].
  pose proof (getSubstitutions_traverse_lookup e false ∅ (sourceId n)) as Hlookup.
  fold (getSubstitutions e) in Hlookup.
  rewrite Hempty, Hpushed, filter_cons_True, !lookup_empty in Hlookup by done.
  done.
Qed.

(** X7. [getSubstitutions(expr)] is the empty map if and only if no node of
    [expr] has [fromSubstitution]; in particular it is empty on every tree
    that [clearSubstitutionMarks] returns.  A map that is not empty has no
    empty array in it. *)
Theorem getSubstitutions_empty_iff expr :
  (getSubstitutions expr = ∅
   ↔ forallb (λ n, negb (fromSubstitution n)) (nodes expr) = true)
  ∧ getSubstitutions (clearSubstitutionMarks expr) = ∅
  ∧ map_Forall (λ _ nodes, nodes ≠ []) (getSubstitutions expr).
Proof.
  split_and!.
  - rewrite forallb_forall. split.
    + intros Hnodes%getSubstitutions_empty_pushed%pushedFrom_nil_unmarked n Hn.
      rewrite Forall_forall in Hnodes.
      by rewrite (Hnodes n) by (by apply list_elem_of_In).
    + intros Hall. apply getSubstitutions_pushed, pushedFrom_unmarked, Forall_forall.
      intros n Hn%list_elem_of_In. apply Hall in Hn. by destruct (fromSubstitution n).
  - apply getSubstitutions_pushed, pushedFrom_unmarked, clearSubstitutionMarks_unmarked.
  - intros k nodes. unfold getSubstitutions.
    rewrite getSubstitutions_traverse_lookup, lookup_empty.
    destruct (filter _ _) as [|n more]; [done|]. by intros [= <-].
Qed.

(** ** Cloning *)

Lemma clone_identity e : clone e false None = e.
Proof. induction e; simpl; congruence. Qed.

Lemma sameExceptMarks_clone e m s : sameExceptMarks e (clone e m s) = true.
Proof.
  induction e as [name fs sid | param body IH fs sid | func IHf arg IHa id fs sid];
    simpl.
  - by apply bool_decide_eq_true.
  - rewrite IH, bool_decide_true; done.
  - rewrite IHf, IHa, bool_decide_true; done.
Qed.

Lemma nodes_clone e m s : nodes (clone e m s) = (λ n, clone n m s) <$> nodes e.
Proof.
  induction e as [name fs sid | param body IH fs sid | func IHf arg IHa id fs sid];
    simpl.
  - done.
  - by rewrite IH.
  - by rewrite IHf, IHa, fmap_app.
Qed.

Lemma toPlainString_clone e m s : toPlainString (clone e m s) = toPlainString e.
Proof.
  induction e as [name fs sid | param body IH fs sid | func IHf arg IHa id fs sid];
    simpl.
  - done.
  - by rewrite IH.
  - rewrite IHf, IHa. by destruct func, arg.
Qed.

(** X8. [clone(fromSubstitution, sourceId)] copies the shape, the names and
    the redex ids, so the copy prints as the original.  In the copy every
    node has [fromSubstitution] OR'd with the argument and, when the
    [sourceId] argument is not [null], that source id, whatever source id
    the node carried before; with [null] each node keeps its own.  So
    [clone(true, id)] marks every node with [id], and [clone(false, null)]
    is the identity. *)
Theorem clone_marks e m s id :
  sameExceptMarks e (clone e m s) = true
  ∧ toPlainString (clone e m s) = toPlainString e
  ∧ Forall2 (λ n n', fromSubstitution n' = m || fromSubstitution n
                     ∧ sourceId n' = (if s is Some _ then s else sourceId n))
            (nodes e) (nodes (clone e m s))
  ∧ Forall (λ n, fromSubstitution n = true ∧ sourceId n = Some id)
           (nodes (clone e true (Some id)))
  ∧ clone e false None = e.
Proof.
  split_and!.
  - apply sameExceptMarks_clone.
  - apply toPlainString_clone.
  - rewrite nodes_clone. apply Forall2_fmap_r, Forall_Forall2_diag, Forall_forall.
    intros n _. by destruct n.
  - rewrite nodes_clone. apply Forall_fmap, Forall_forall.
    intros n _. by destruct n.
  - apply clone_identity.
Qed.

(** ** Free variables under reduction *)

(** X9. Reduction never introduces a free variable: the free variables of
    [reduceAt(expr, targetId)] are among those of [expr], for every tree
    and every id (the fresh names that [substitute] invents are always
    bound). *)
Theorem reduceAt_freeVariables expr targetId :
  freeVariables (reduceAt expr targetId) ⊆ freeVariables expr.
Proof.
  induction expr as [name fs sid | param body IH fs sid | func IHf arg IHa id fs sid].
  - done.
  - simpl. set_solver.
  - cbn [reduceAt]. rewrite isRedex_Application.
    destruct (bool_decide (id = targetId) && isAbstraction func) eqn:Hhere.
    + apply andb_true_iff in Hhere as [_ Habs].
      destruct func as [|lparam lbody lfs lsid|]; [done| |done].
      rewrite freeVariables_substitute. simpl. case_decide; set_solver.
    + simpl. set_solver.
Qed.

(** ** Substituting for a variable that does not occur *)

Lemma nsubst_absent x r e : ∀ binders,
  x ∉ freeVariables e →
  nsubst x r (nameless binders e) = nameless binders e.
Proof.
  induction e as [name fs sid | param body IH fs sid | func IHf arg IHa id fs sid];
    intros binders Hx; simpl in *.
  - destruct (indexOf name binders); simpl; [done|].
    rewrite decide_False by set_solver. done.
  - f_equal. destruct (decide (x = param)) as [->|Hne].
    + apply nsubst_bound. set_solver.
    + apply IH. set_solver.
  - f_equal; [apply IHf|apply IHa]; set_solver.
Qed.

(** X10. When [varName] is not free in [expr], [substitute(expr, varName,
    replacement)] is alpha-equivalent to [expr] and has the same free
    variables; nothing of the replacement appears in it.  (It need not be
    the same tree: a binder that is free in the replacement is renamed
    even when there is nothing to substitute under it.) *)
Theorem substitute_absent expr varName replacement m s :
  varName ∉ freeVariables expr →
  nameless [] (substitute expr varName replacement m s) = nameless [] expr
  ∧ freeVariables (substitute expr varName replacement m s) = freeVariables expr.
Proof.
  intros Habsent. split.
  - rewrite (nameless_substitute_height (height expr)) by (done || set_solver).
    by apply nsubst_absent.
  - rewrite freeVariables_substitute. by rewrite decide_False.
Qed.

(** X10 at [λy.z] with [y] substituted for [x]: the binder is renamed to
    [y'] although [x] does not occur. *)
Lemma substitute_absent_witness :
  (str "x" ∉ freeVariables (newAbstraction (str "y") (newVariable (str "z"))))
  ∧ substitute (newAbstraction (str "y") (newVariable (str "z"))) (str "x")
      (newVariable (str "y")) true (Some 1)
    = newAbstraction (str "y'") (newVariable (str "z"))
  ∧ nameless [] (substitute (newAbstraction (str "y") (newVariable (str "z")))
                   (str "x") (newVariable (str "y")) true (Some 1))
    = nameless [] (newAbstraction (str "y") (newVariable (str "z")))
  ∧ freeVariables (substitute (newAbstraction (str "y") (newVariable (str "z")))
                     (str "x") (newVariable (str "y")) true (Some 1))
    = freeVariables (newAbstraction (str "y") (newVariable (str "z"))).
Proof.
  assert (str "x" ∉ freeVariables (newAbstraction (str "y") (newVariable (str "z"))))
    as Habsent by (apply (proj1 (bool_decide_eq_false _)); by vm_compute).
  split; [exact Habsent|]. split; [by vm_compute|].
  exact (substitute_absent _ _ (newVariable (str "y")) true (Some 1) Habsent).
Defined.

(** ** Linking: the copies of the argument after a reduction *)

Lemma pushedFrom_inside e : pushedFrom e true = [].
Proof.
  induction e as [name fs sid | param body IH fs sid | func IHf arg IHa id fs sid];
    simpl; rewrite andb_false_r; simpl.
  - done.
  - exact IH.
  - by rewrite IHf, IHa.
Qed.

Lemma pushedFrom_marked e :
  fromSubstitution e = true → pushedFrom e false = [e].
Proof.
  intros Hfs. destruct e as [name fs sid | param body fs sid | func arg id fs sid];
    simpl in *; subst fs; simpl; by rewrite ?pushedFrom_inside.
Qed.

Lemma fromSubstitution_clone e s : fromSubstitution (clone e true s) = true.
Proof. by destruct e. Qed.

Lemma findVariableUses_length e x :
  (0 < length (findVariableUses e x))%nat ↔ x ∈ freeVariables e.
Proof.
  destruct (findVariableUses_spec e x) as [Huses _].
  rewrite variableAppearsIn_freeVariables_aux in Huses.
  split.
  - intros Hlen. rewrite (bool_decide_true _ Hlen) in Huses.
    by apply bool_decide_eq_true in Huses.
  - intros Hin. rewrite (bool_decide_true _ Hin) in Huses.
    symmetry in Huses. by apply bool_decide_eq_true in Huses.
Qed.

(** A substitution without marks ([markAsSubstituted = false],
    [sourceId = null]) of an unmarked replacement leaves an unmarked tree
    unmarked: the renaming step of [substitute] marks nothing. *)
Lemma substitute_unmarked n : ∀ e x r,
  (height e ≤ n)%nat →
  Forall (λ n, fromSubstitution n = false) (nodes e) →
  Forall (λ n, fromSubstitution n = false) (nodes r) →
  Forall (λ n, fromSubstitution n = false) (nodes (substitute e x r false None)).
Proof.
  induction n as [|n IH]; intros e x r Hh He Hr.
  { destruct e; simpl in Hh; lia. }
  destruct e as [name fs sid | param body fs sid | func arg id fs sid];
    simpl in Hh.
  - rewrite substitute_Variable. destruct (decide (name = x)); [|done].
    by rewrite clone_identity.
  - rewrite substitute_Abstraction.
    inversion_clear He as [|?? Hfs Hbody]. simpl in Hfs. subst fs.
    destruct (decide (param = x)); [by constructor|].
    destruct (decide (param ∈ freeVariables r)); cbn zeta.
    + simpl. constructor; [done|]. apply IH; [|apply IH|done].
      * unfold newVariable. rewrite height_substitute_variable. lia.
      * lia.
      * done.
      * by repeat constructor.
    + simpl. constructor; [done|]. apply IH; [lia|done..].
  - rewrite substitute_Application.
    inversion_clear He as [|?? Hfs Hrest]. simpl in Hfs. subst fs.
    apply Forall_app in Hrest as [Hfunc Harg].
    simpl. constructor; [done|]. apply Forall_app.
    split; apply IH; (lia || done).
Qed.

(** Renaming a bound variable does not change how often another variable
    occurs free. *)
Lemma findVariableUses_rename n : ∀ e p q x,
  (height e ≤ n)%nat → x ≠ p → x ≠ q →
  length (findVariableUses (substitute e p (newVariable q) false None) x)
  = length (findVariableUses e x).
Proof.
  induction n as [|n IH]; intros e p q x Hh Hp Hq.
  { destruct e; simpl in Hh; lia. }
  destruct e as [name fs sid | param body fs sid | func arg id fs sid];
    simpl in Hh.
  - rewrite substitute_Variable. destruct (decide (name = p)) as [->|Hne]; [|done].
    simpl. rewrite !findVariableUses_Variable.
    by rewrite !bool_decide_false by done.
  - rewrite substitute_Abstraction.
    destruct (decide (param = p)) as [->|Hne]; [done|].
    simpl freeVariables.
    destruct (decide (param ∈ {[q]})) as [Hin|Hout]; cbn zeta.
    + assert (param = q) as -> by set_solver.
      set (q' := freshName q ({[q]} ∪ freeVariables body ∪ {[p]})).
      pose proof (freshName_fresh q ({[q]} ∪ freeVariables body ∪ {[p]})) as Hq'.
      fold q' in Hq'.
      rewrite !findVariableUses_Abstraction.
      rewrite (bool_decide_false (q = x)) by done.
      destruct (decide (q' = x)) as [->|Hne'].
      * rewrite bool_decide_true by done. simpl. symmetry.
        destruct (findVariableUses body x) as [|use uses] eqn:Huses; [done|].
        assert (x ∈ freeVariables body) as Hfree.
        { apply findVariableUses_length. rewrite Huses. simpl. lia. }
        set_solver.
      * rewrite bool_decide_false by done.
        rewrite IH; [|unfold newVariable; rewrite height_substitute_variable; lia|done..].
        apply IH; [lia|done..].
    + rewrite !findVariableUses_Abstraction.
      destruct (bool_decide (param = x)); [done|]. apply IH; [lia|done..].
  - rewrite substitute_Application, !findVariableUses_Application, !length_app.
    by rewrite !IH by (lia || done).
Qed.

(** Substituting into an unmarked tree: the nodes that [getSubstitutions]
    will report are the copies of the replacement, one for each free
    occurrence of the variable. *)
Lemma pushedFrom_substitute n : ∀ e x r sid,
  (height e ≤ n)%nat →
  Forall (λ n, fromSubstitution n = false) (nodes e) →
  pushedFrom (substitute e x r true sid) false
  = replicate (length (findVariableUses e x)) (clone r true sid).
Proof.
  induction n as [|n IH]; intros e x r sid Hh He.
  { destruct e; simpl in Hh; lia. }
  destruct e as [name fs sid0 | param body fs sid0 | func arg id fs sid0];
    simpl in Hh.
  - rewrite substitute_Variable, findVariableUses_Variable.
    inversion_clear He as [|?? Hfs _]. simpl in Hfs. subst fs.
    destruct (decide (name = x)) as [->|Hne].
    + rewrite bool_decide_true by done. simpl.
      apply pushedFrom_marked, fromSubstitution_clone.
    + by rewrite bool_decide_false by done.
  - rewrite substitute_Abstraction, findVariableUses_Abstraction.
    inversion_clear He as [|?? Hfs Hbody]. simpl in Hfs. subst fs.
    destruct (decide (param = x)) as [->|Hne].
    { rewrite bool_decide_true by done. simpl. by apply pushedFrom_unmarked. }
    rewrite bool_decide_false by done.
    destruct (decide (param ∈ freeVariables r)); cbn zeta.
    + set (q := freshName param (freeVariables r ∪ freeVariables body ∪ {[x]})).
      pose proof (freshName_fresh param (freeVariables r ∪ freeVariables body ∪ {[x]}))
        as Hq. fold q in Hq.
      simpl. rewrite IH.
      * f_equal. apply (findVariableUses_rename (height body)); [lia|set_solver..].
      * unfold newVariable. rewrite height_substitute_variable. lia.
      * apply (substitute_unmarked (height body)); [lia|done|by repeat constructor].
    + simpl. apply IH; [lia|done].
  - rewrite substitute_Application, findVariableUses_Application, length_app.
    inversion_clear He as [|?? Hfs Hrest]. simpl in Hfs. subst fs.
    apply Forall_app in Hrest as [Hfunc Harg].
    simpl. rewrite !IH by (lia || done). by rewrite replicate_add.
Qed.

Lemma getRedexes_Abstraction param body fs sid :
  getRedexes (Abstraction param body fs sid) = getRedexes body.
Proof. done. Qed.

Lemma getRedex_absent e redexId :
  redexId ∉ (getRedexes e).*1 → getRedex e redexId = None.
Proof.
  intros Habsent. apply getRedex_None.
  destruct (hasRedexWithId e redexId) eqn:Hhas; [|done].
  by apply hasRedexWithId_getRedexes in Hhas.
Qed.

Lemma getRedex_present e redexId redex :
  getRedex e redexId = Some redex → redexId ∈ (getRedexes e).*1.
Proof.
  intros Hfound. apply hasRedexWithId_getRedexes.
  destruct (hasRedexWithId e redexId) eqn:Hhas; [done|].
  apply getRedex_None in Hhas. congruence.
Qed.

(** Reducing a redex of an unmarked tree whose redex ids are distinct: the
    nodes that [getSubstitutions] will report are the copies of the
    argument, one for each use of the parameter. *)
Lemma pushedFrom_reduceAt e : ∀ targetId,
  Forall (λ n, fromSubstitution n = false) (nodes e) →
  NoDup (getRedexes e).*1 →
  pushedFrom (reduceAt e targetId) false
  = match getRedex e targetId with
    | Some redex =>
        match argOf redex with
        | Some arg => replicate (length (getParameterUses redex)) (clone arg true targetId)
        | None => []
        end
    | None => []
    end.
Proof.
  induction e as [name fs sid | param body IH fs sid | func IHf arg IHa id fs sid];
    intros targetId He Hids.
  - by apply pushedFrom_unmarked.
  - inversion_clear He as [|?? Hfs Hbody]. simpl in Hfs. subst fs.
    simpl. by apply IH.
  - inversion_clear He as [|?? Hfs Hrest]. simpl in Hfs. subst fs.
    apply Forall_app in Hrest as [Hfunc Harg].
    rewrite getRedexes_Application, !fmap_app in Hids.
    apply NoDup_app in Hids as (_ & _ & Hids).
    apply NoDup_app in Hids as (Hidsf & Hdisjoint & Hidsa).
    cbn [reduceAt getRedex]. rewrite isRedex_Application.
    destruct (bool_decide (id = targetId) && isAbstraction func) eqn:Hhere.
    + apply andb_true_iff in Hhere as [_ Habs].
      destruct func as [|lparam lbody lfs lsid|]; [done| |done].
      simpl. unfold getParameterUses. simpl.
      apply (pushedFrom_substitute (height lbody)); [done|].
      by inversion_clear Hfunc.
    + simpl. rewrite IHf, IHa by done.
      destruct (getRedex func targetId) as [redex|] eqn:Hfound.
      * rewrite (getRedex_absent arg targetId); [by rewrite app_nil_r|].
        apply Hdisjoint. by apply getRedex_present in Hfound.
      * done.
Qed.

(** Trees that differ in their ids only have the same marks. *)
Lemma pushedFrom_sameExceptIds a : ∀ b inSubstitution,
  sameExceptIds a b = true →
  Forall2 (λ n n', sameExceptIds n n' = true)
          (pushedFrom a inSubstitution) (pushedFrom b inSubstitution).
Proof.
  induction a as [name fs sid | param body IH fs sid | func IHf arg IHa id fs sid];
    intros [name' fs' sid' | param' body' fs' sid' | func' arg' id' fs' sid']
           inSubstitution Hsame; try done.
  - pose proof Hsame as Hsame'. simpl in Hsame'.
    apply andb_true_iff in Hsame' as
      [[_ <-%bool_decide_eq_true]%andb_true_iff _].
    simpl. rewrite !app_nil_r. destruct (fs && negb inSubstitution); by repeat constructor.
  - pose proof Hsame as Hsame'. simpl in Hsame'.
    apply andb_true_iff in Hsame' as
      [[[_ Hbody]%andb_true_iff <-%bool_decide_eq_true]%andb_true_iff _].
    simpl. apply Forall2_app; [|by apply IH].
    destruct (fs && negb inSubstitution); by repeat constructor.
  - pose proof Hsame as Hsame'. simpl in Hsame'.
    apply andb_true_iff in Hsame' as
      [[[Hfunc Harg]%andb_true_iff <-%bool_decide_eq_true]%andb_true_iff _].
    simpl. apply Forall2_app; [|apply Forall2_app; [by apply IHf|by apply IHa]].
    destruct (fs && negb inSubstitution); by repeat constructor.
Qed.

Lemma sameExceptIds_fields a b :
  sameExceptIds a b = true →
  fromSubstitution b = fromSubstitution a ∧ sourceId b = sourceId a
  ∧ toPlainString b = toPlainString a.
Proof.
  revert b.
  induction a as [name fs sid | param body IH fs sid | func IHf arg IHa id fs sid];
    intros [name' fs' sid' | param' body' fs' sid' | func' arg' id' fs' sid'];
    simpl; try done.
  - intros [[->%bool_decide_eq_true ->%bool_decide_eq_true]%andb_true_iff
             ->%bool_decide_eq_true]%andb_true_iff. done.
  - intros [[[->%bool_decide_eq_true Hbody]%andb_true_iff
              ->%bool_decide_eq_true]%andb_true_iff
             ->%bool_decide_eq_true]%andb_true_iff.
    destruct (IH _ Hbody) as (_ & _ & ->). done.
  - intros [[[Hfunc Harg]%andb_true_iff
              ->%bool_decide_eq_true]%andb_true_iff
             ->%bool_decide_eq_true]%andb_true_iff.
    destruct (IHf _ Hfunc) as (_ & _ & ->). destruct (IHa _ Harg) as (_ & _ & ->).
    rewrite (sameExceptIds_isAbstraction _ _ Hfunc),
      (sameExceptIds_isAbstraction _ _ Harg). done.
Qed.

Lemma sameExceptIds_numberRedexes e : sameExceptIds e (numberRedexes e) = true.
Proof. by destruct (numberRedexes_from_spec e 1) as (_ & Hsame & _). Qed.

(** Clearing the marks changes neither what is looked up nor what is
    counted. *)
Lemma toPlainString_clearSubstitutionMarks e :
  toPlainString (clearSubstitutionMarks e) = toPlainString e.
Proof.
  induction e as [name fs sid | param body IH fs sid | func IHf arg IHa id fs sid];
    simpl.
  - done.
  - by rewrite IH.
  - rewrite IHf, IHa, !isAbstraction_clearSubstitutionMarks. done.
Qed.

Lemma getRedex_clearSubstitutionMarks e redexId :
  getRedex (clearSubstitutionMarks e) redexId
  = clearSubstitutionMarks <$> getRedex e redexId.
Proof.
  induction e as [name fs sid | param body IH fs sid | func IHf arg IHa id fs sid];
    simpl.
  - done.
  - exact IH.
  - rewrite isAbstraction_clearSubstitutionMarks.
    destruct (bool_decide (id = redexId) && isAbstraction func); [done|].
    rewrite IHf, IHa. by destruct (getRedex func redexId).
Qed.

Lemma getRedexes_clearSubstitutionMarks e :
  (getRedexes (clearSubstitutionMarks e)).*1 = (getRedexes e).*1.
Proof.
  induction e as [name fs sid | param body IH fs sid | func IHf arg IHa id fs sid].
  - done.
  - exact IH.
  - cbn [clearSubstitutionMarks].
    rewrite !getRedexes_Application, !fmap_app, IHf, IHa,
      isAbstraction_clearSubstitutionMarks.
    by destruct (isAbstraction func).
Qed.

Lemma findVariableUses_clearSubstitutionMarks e x :
  length (findVariableUses (clearSubstitutionMarks e) x)
  = length (findVariableUses e x).
Proof.
  induction e as [name fs sid | param body IH fs sid | func IHf arg IHa id fs sid];
    cbn [clearSubstitutionMarks].
  - rewrite !findVariableUses_Variable. by destruct (bool_decide (name = x)).
  - rewrite !findVariableUses_Abstraction. by destruct (bool_decide (param = x)).
  - by rewrite !findVariableUses_Application, !length_app, IHf, IHa.
Qed.

Lemma getParameterUses_clearSubstitutionMarks e :
  length (getParameterUses (clearSubstitutionMarks e)) = length (getParameterUses e).
Proof.
  destruct e as [| |func arg id fs sid]; [done..|].
  destruct func; [done| |done].
  unfold getParameterUses. simpl. apply findVariableUses_clearSubstitutionMarks.
Qed.

Lemma isArgumentUsed_uses redex :
  isArgumentUsed redex = bool_decide (0 < length (getParameterUses redex))%nat.
Proof.
  unfold isArgumentUsed, getParameterUses.
  destruct (isRedex redex) eqn:Hredex; [|done]. simpl.
  destruct redex as [| |func arg id fs sid]; [done..|].
  destruct func; [done| |done]. apply findVariableUses_spec.
Qed.

Lemma NoDup_getRedexes_numberRedexes e : NoDup (getRedexes (numberRedexes e)).*1.
Proof.
  rewrite getRedexes_numberRedexes. apply NoDup_fmap; [apply _|apply NoDup_seqZ].
Qed.

Lemma filter_all {A} (P : A → Prop) `{!∀ x, Decision (P x)} (l : list A) :
  Forall P l → filter P l = l.
Proof.
  induction 1 as [|x l Hx _ IH]; [done|]. by rewrite filter_cons_True, IH.
Qed.

Lemma Forall2_replicate_left {A B} (R : A → B → Prop) n x l :
  Forall2 R (replicate n x) l → Forall (R x) l ∧ length l = n.
Proof.
  revert l. induction n as [|n IH]; intros l Hl; simpl in Hl.
  - by apply Forall2_nil_inv_l in Hl as ->.
  - apply Forall2_cons_inv_l in Hl as (y & l' & Hy & Hl' & ->).
    destruct (IH _ Hl') as [? ?]. split; [by constructor|simpl; lia].
Qed.

(** One reduction step as the tests and the CLI perform it, started from a
    numbered tree: what [getSubstitutions] has under the id afterwards. *)
Lemma reduceStep_substitutions expr redexId :
  match getRedex (numberRedexes expr) redexId with
  | Some redex =>
      length (default [] (getSubstitutions
                            (reduceStep (numberRedexes expr) redexId) !! redexId))
      = length (getParameterUses redex)
      ∧ Forall (λ n, fromSubstitution n = true ∧ sourceId n = redexId
                     ∧ Some (toPlainString n) = toPlainString <$> argOf redex)
               (default [] (getSubstitutions
                              (reduceStep (numberRedexes expr) redexId) !! redexId))
  | None =>
      getSubstitutions (reduceStep (numberRedexes expr) redexId) = ∅
  end.
Proof.
  unfold reduceStep. cbn zeta.
  rewrite numberRedexes_clearSubstitutionMarks, numberRedexes_idempotent.
  set (before := numberRedexes expr).
  set (cleared := clearSubstitutionMarks before).
  pose proof (pushedFrom_sameExceptIds _ _ false
                (sameExceptIds_numberRedexes (reduceAt cleared redexId))) as Hpushed.
  rewrite pushedFrom_reduceAt in Hpushed; cycle 1.
  { apply clearSubstitutionMarks_unmarked. }
  { unfold cleared. rewrite getRedexes_clearSubstitutionMarks.
    apply NoDup_getRedexes_numberRedexes. }
  unfold cleared in Hpushed at 1. rewrite getRedex_clearSubstitutionMarks in Hpushed.
  destruct (getRedex before redexId) as [redex|] eqn:Hfound; simpl in Hpushed.
  - pose proof (getRedex_present _ _ _ Hfound) as Hid.
    unfold before in Hid. rewrite getRedexes_numberRedexes in Hid.
    apply list_elem_of_fmap in Hid as (i & -> & _).
    apply getRedex_found in Hfound as (_ & Hredex & _).
    destruct redex as [| |func arg id fs sid]; [done..|].
    rewrite getParameterUses_clearSubstitutionMarks in Hpushed.
    cbn [clearSubstitutionMarks argOf] in Hpushed.
    cbn [argOf fmap option_fmap option_map].
    unfold getSubstitutions.
    rewrite getSubstitutions_traverse_lookup, lookup_empty.
    set (pushed := pushedFrom (numberRedexes (reduceAt cleared (Some i))) false) in *.
    assert (Forall (λ n, fromSubstitution n = true ∧ sourceId n = Some i
                         ∧ Some (toPlainString n) = Some (toPlainString arg)) pushed)
      as Hall.
    { apply Forall2_replicate_left in Hpushed as [Hpushed _].
      eapply Forall_impl; [exact Hpushed|].
      intros n' (Hfs & Hsid & Htext)%sameExceptIds_fields.
      rewrite Hfs, Hsid, Htext, toPlainString_clone, toPlainString_clearSubstitutionMarks.
      split_and!; [|by destruct (clearSubstitutionMarks arg)|done].
      apply fromSubstitution_clone. }
    rewrite filter_all by (eapply Forall_impl; [exact Hall|]; naive_solver).
    apply Forall2_replicate_left in Hpushed as [_ Hlength].
    by destruct pushed.
  - apply Forall2_nil_inv_l in Hpushed. by apply getSubstitutions_pushed.
Qed.

(** X11. Linking after one step.  Take any numbered tree [before], any id,
    and [after = reduceStep(before, id)] (clear the marks, number, reduce,
    number again).  Then in [getFullLinkingInfo(before, after, id)] and
    [getLinkingInfo(before, after, id)]: [hasSubstitutions] equals
    [wasUsed]; there are as many [substitutedNodes] as [parameterUses];
    and every substituted node is marked, carries the id as its source id,
    and prints as the source argument.  When the id names no redex, there
    is no source argument and nothing is listed. *)
Theorem linking_after_reduceStep expr redexId :
  let before := numberRedexes expr in
  let after := reduceStep before redexId in
  let full := getFullLinkingInfo before after redexId in
  let info := getLinkingInfo before after redexId in
  fli_hasSubstitutions full = fli_wasUsed full
  ∧ length (fli_substitutedNodes full) = length (fli_parameterUses full)
  ∧ Forall (λ n, fromSubstitution n = true ∧ sourceId n = redexId
                 ∧ Some (toPlainString n) = toPlainString <$> fli_sourceArg full)
           (fli_substitutedNodes full)
  ∧ li_hasSubstitutions info = li_wasUsed info
  ∧ li_substitutedNodes info = fli_substitutedNodes full
  ∧ li_sourceArg info = fli_sourceArg full
  ∧ match getRedex before redexId with
    | Some _ => True
    | None => fli_sourceArg full = None ∧ fli_substitutedNodes full = []
              ∧ fli_parameterUses full = []
    end.
Proof.
  cbn zeta. unfold getFullLinkingInfo, getLinkingInfo. cbn zeta. simpl.
  pose proof (reduceStep_substitutions expr redexId) as Hstep.
  destruct (getRedex (numberRedexes expr) redexId) as [redex|] eqn:Hfound.
  - destruct Hstep as [Hlength Hnodes].
    rewrite isArgumentUsed_uses, Hlength. split_and!; done.
  - rewrite Hstep, lookup_empty. simpl. split_and!; done.
Qed.

(** ** Chains of steps *)

Lemma getLinkingInfo_reduceStep expr redexId :
  li_hasSubstitutions
    (getLinkingInfo (numberRedexes expr) (reduceStep (numberRedexes expr) redexId) redexId)
  = li_wasUsed
      (getLinkingInfo (numberRedexes expr) (reduceStep (numberRedexes expr) redexId)
                      redexId).
Proof.
  unfold getLinkingInfo. cbn zeta. simpl.
  pose proof (reduceStep_substitutions expr redexId) as Hstep.
  destruct (getRedex (numberRedexes expr) redexId) as [redex|] eqn:Hfound.
  - destruct Hstep as [Hlength Hnodes]. by rewrite isArgumentUsed_uses, Hlength.
  - by rewrite Hstep, lookup_empty.
Qed.

Lemma reduceStep_numbered expr redexId :
  numberRedexes (reduceStep expr redexId) = reduceStep expr redexId.
Proof. unfold reduceStep. cbn zeta. apply numberRedexes_idempotent. Qed.

Lemma buildLinkingChain_from_history ids : ∀ previous,
  numberRedexes (st_expr previous) = st_expr previous →
  length (buildLinkingChain_from (Some previous) (history (st_expr previous) ids))
  = length ids
  ∧ Forall (λ linked, ∃ info,
              ls_linkingInfo linked = Some info
              ∧ li_sourceId info = ls_reducedId linked
              ∧ li_hasSubstitutions info = li_wasUsed info)
           (buildLinkingChain_from (Some previous) (history (st_expr previous) ids)).
Proof.
  induction ids as [|id ids IH]; intros previous Hnumbered; [done|].
  cbn [history buildLinkingChain_from st_expr st_reducedId length].
  destruct (IH {| st_expr := reduceStep (st_expr previous) (Some id);
                  st_reducedId := Some id |}) as [Hlength Hall].
  { apply reduceStep_numbered. }
  cbn [st_expr] in Hlength, Hall.
  split; [by rewrite Hlength|].
  constructor; [|done].
  eexists. split; [done|]. split; [done|].
  rewrite <- Hnumbered. apply getLinkingInfo_reduceStep.
Qed.

(** X12. A history recorded as the tests record it: a numbered start with
    [reducedId: null], then after each [reduceStep] the new tree with the
    id that was reduced.  [buildLinkingChain] returns one entry per step,
    with the same trees and ids; the first entry has [linkingInfo: null],
    and every later entry has a linking info for its own id, in which
    [hasSubstitutions] equals [wasUsed]. *)
Theorem buildLinkingChain_history expr ids :
  let start := {| st_expr := numberRedexes expr; st_reducedId := None |} in
  let chain := buildLinkingChain (start :: history (numberRedexes expr) ids) in
  length chain = S (length ids)
  ∧ ls_expr <$> chain = st_expr <$> (start :: history (numberRedexes expr) ids)
  ∧ ls_reducedId <$> chain
    = st_reducedId <$> (start :: history (numberRedexes expr) ids)
  ∧ ls_linkingInfo <$> head chain = Some None
  ∧ Forall (λ linked, ∃ info,
              ls_linkingInfo linked = Some info
              ∧ li_sourceId info = ls_reducedId linked
              ∧ li_hasSubstitutions info = li_wasUsed info)
           (tail chain).
Proof.
  cbn zeta.
  assert (∀ previous steps,
            ls_expr <$> buildLinkingChain_from previous steps = st_expr <$> steps
            ∧ ls_reducedId <$> buildLinkingChain_from previous steps
              = st_reducedId <$> steps) as Hfields.
  { intros previous steps. revert previous.
    induction steps as [|step steps IH]; intros previous; [done|].
    destruct (IH (Some step)) as [Hexprs Hids].
    cbn [buildLinkingChain_from]. rewrite !fmap_cons, Hexprs, Hids. done. }
  destruct (Hfields None
              ({| st_expr := numberRedexes expr; st_reducedId := None |}
               :: history (numberRedexes expr) ids)) as [Hexprs Hids].
  destruct (buildLinkingChain_from_history ids
              {| st_expr := numberRedexes expr; st_reducedId := None |})
    as [Hlength Hall]; [apply numberRedexes_idempotent|].
  cbn [st_expr] in Hlength, Hall.
  split_and!; [|exact Hexprs|exact Hids|done|exact Hall].
  unfold buildLinkingChain. cbn [buildLinkingChain_from length]. by rewrite Hlength.
Qed.

(** ** Alpha-equivalence *)

(** X13. [substitute] respects alpha-equivalence: on alpha-equivalent
    targets, with alpha-equivalent replacements, it returns alpha-equivalent
    results, whatever marks are asked for. *)
Theorem substitute_respects_alpha e1 e2 r1 r2 x m1 s1 m2 s2 :
  nameless [] e1 = nameless [] e2 →
  nameless [] r1 = nameless [] r2 →
  nameless [] (substitute e1 x r1 m1 s1) = nameless [] (substitute e2 x r2 m2 s2).
Proof.
  intros He Hr.
  rewrite (nameless_substitute_height (height e1)) by (done || set_solver).
  rewrite (nameless_substitute_height (height e2)) by (done || set_solver).
  by rewrite He, Hr.
Qed.

(** X13 at [λa.(a x)] and [λb.(b x)], with [a] and marked [a] for [x]. *)
Lemma substitute_respects_alpha_witness :
  nameless []
    (substitute (newAbstraction (str "a")
                   (newApplication (newVariable (str "a")) (newVariable (str "x"))))
       (str "x") (newVariable (str "a")) true (Some 1))
  = nameless []
      (substitute (newAbstraction (str "b")
                     (newApplication (newVariable (str "b")) (newVariable (str "x"))))
         (str "x") (Variable_ (str "a") true (Some 7)) false None).
Proof.
  apply (substitute_respects_alpha
           (newAbstraction (str "a")
              (newApplication (newVariable (str "a")) (newVariable (str "x"))))
           (newAbstraction (str "b")
              (newApplication (newVariable (str "b")) (newVariable (str "x"))))
           (newVariable (str "a")) (Variable_ (str "a") true (Some 7)));
    by vm_compute.
Defined.

(** ** The text of a tree *)

Lemma astEqual_isAbstraction a b : astEqual a b = true → isAbstraction b = isAbstraction a.
Proof. by destruct a, b. Qed.

Lemma astEqual_plain_eq a : ∀ b, astEqual a b = true ↔ plain a = plain b.
Proof.
  induction a as [name fs sid | param body IH fs sid | func IHf arg IHa id fs sid];
    intros [name' fs' sid' | param' body' fs' sid' | func' arg' id' fs' sid'];
    simpl; try done.
  - rewrite bool_decide_eq_true. unfold newVariable. split; congruence.
  - rewrite andb_true_iff, bool_decide_eq_true, IH. unfold newAbstraction.
    split; [by intros [-> ->]|by intros [= -> ->]].
  - rewrite andb_true_iff, IHf, IHa. unfold newApplication.
    split; [by intros [-> ->]|by intros [= -> ->]].
Qed.

Lemma toPlainString_plain a : toPlainString (plain a) = toPlainString a.
Proof.
  induction a as [name fs sid | param body IH fs sid | func IHf arg IHa id fs sid];
    simpl.
  - done.
  - by rewrite IH.
  - rewrite IHf, IHa. by destruct func, arg.
Qed.

(** X14. The text depends on the shape and the names only, and on
    well-formed trees it determines them: two well-formed trees have the
    same [toPlainString] if and only if they are structurally equal up to
    [fromSubstitution], [sourceId] and [id]. *)
Theorem toPlainString_injective a b :
  wellFormed a = true → wellFormed b = true →
  (toPlainString a = toPlainString b ↔ astEqual a b = true).
Proof.
  intros Ha Hb. rewrite astEqual_plain_eq. split.
  - intros Htext.
    pose proof (parse_toPlainString_plain a Ha) as Hpa.
    pose proof (parse_toPlainString_plain b Hb) as Hpb.
    rewrite Htext in Hpa. congruence.
  - intros Hplain. by rewrite <- (toPlainString_plain a), Hplain, toPlainString_plain.
Qed.

Lemma toPlainString_injective_witness :
  wellFormed captureExample = true
  ∧ wellFormed (numberRedexes (clone captureExample true (Some 3))) = true
  ∧ (toPlainString captureExample
     = toPlainString (numberRedexes (clone captureExample true (Some 3)))
     ↔ astEqual captureExample (numberRedexes (clone captureExample true (Some 3)))
       = true).
Proof.
  split; [by vm_compute|]. split; [by vm_compute|].
  apply (toPlainString_injective captureExample
           (numberRedexes (clone captureExample true (Some 3)))); by vm_compute.
Defined.

(** ** What the parser accepts, and canonical texts *)

Lemma paramName_head name :
  paramName name = true → ∃ c tl, name = c :: tl ∧ isNameUnit c = true.
Proof.
  destruct name as [|c tl]; [done|]. simpl.
  intros [Hc _]%andb_true_iff. eauto.
Qed.

Lemma validName_paramName name : validName name = true → paramName name = true.
Proof.
  destruct name as [|c tl]; [done|]. simpl.
  intros [Hc ->]%andb_true_iff. by rewrite (letter_is_nameUnit c Hc).
Qed.

Lemma wellFormed_readable e : wellFormed e = true → readable e = true.
Proof.
  induction e as [name fs sid | param body IH fs sid | func IHf arg IHa id fs sid];
    simpl.
  - done.
  - intros [Hparam Hbody]%andb_true_iff.
    by rewrite (validName_paramName _ Hparam), IH.
  - intros [Hfunc Harg]%andb_true_iff. by rewrite IHf, IHa.
Qed.

Lemma toPlainString_head_readable e :
  readable e = true →
  ∃ c tl, toPlainString e = c :: tl ∧ isSpaceUnit c = false.
Proof.
  destruct e as [name fs sid | param body fs sid | func arg id fs sid]; simpl.
  - intros (c & tl & -> & Hc)%validName_head.
    exists c, tl. split; [done|]. by apply letter_not_space.
  - intros _. by eexists _, _.
  - intros _. by eexists _, _.
Qed.

Lemma atomText_head_readable e :
  readable e = true →
  ∃ c tl, atomText e = c :: tl ∧ isSpaceUnit c = false
          ∧ isAtomStart (Some c) = true ∧ c ≠ c_rparen.
Proof.
  destruct e as [name fs sid | param body fs sid | func arg id fs sid];
    unfold atomText; simpl.
  - intros (c & tl & -> & Hc)%validName_head.
    exists c, tl. destruct (letter_starts_variable c Hc) as (? & ? & Hv & ?).
    split_and!; [done|by apply letter_not_space| |done].
    unfold isAtomStart. rewrite Hv. by rewrite orb_true_r.
  - intros _. by eexists _, _.
  - intros _. by eexists _, _.
Qed.

Lemma toPlainString_last_readable e :
  readable e = true →
  ∃ init c, toPlainString e = init ++ [c] ∧ isSpaceUnit c = false.
Proof.
  induction e as [name fs sid | param body IH fs sid | func _ arg _ id fs sid];
    intros Hwf; [simpl in *..|].
  - by apply validName_last.
  - apply andb_true_iff in Hwf as [_ Hbody].
    destruct (IH Hbody) as (init & c & -> & Hc).
    exists (c_lambda :: param ++ c_dot :: init), c. split; [|done].
    simpl. by rewrite <- !app_assoc.
  - exists (c_lparen :: atomText func ++ c_space :: atomText arg), c_rparen.
    split; [|done]. rewrite toPlainString_Application. by flat_goal.
Qed.

Section CanonicalText.
Variable source : jsstring.

Abbreviation currentChar := (Parser.currentChar source).
Abbreviation hasMore := (Parser.hasMore source).
Abbreviation skipWhitespace := (Parser.skipWhitespace source).
Abbreviation parseVariableName := (Parser.parseVariableName source).
Abbreviation parseAtom := (Parser.parseAtom source).
Abbreviation parseExpr := (Parser.parseExpr source).
Abbreviation parseExpr_loop := (Parser.parseExpr_loop source).
Abbreviation ahead := (ahead source).

Lemma parseVariableName_param position name rest :
  ahead position (name ++ rest) →
  paramName name = true → stopsName rest →
  parseVariableName position = Ok name (position + length name).
Proof.
  intros Hahead Hvalid Hrest. unfold Parser.parseVariableName, Parser.slice.
  rewrite (advanceWhile_prefix source isVariableChar name _ position rest); try done.
  - replace (position + length name - position)%nat with (length name) by lia.
    rewrite Hahead, take_app_length.
    destruct name; [done|]. done.
  - assert (Hall : forallb isNameUnit name = true) by (by destruct name).
    apply Forall_forall. intros x Hx%list_elem_of_In.
    by apply (proj1 (forallb_forall _ _) Hall).
  - rewrite (ahead_length source _ _ Hahead), length_app. lia.
Qed.

(** The parser reads back the text of every tree it can produce. *)
Lemma parse_toPlainString_readable e :
  readable e = true →
  (∀ fuel position rest,
     ahead position (atomText e ++ rest) → stopsName rest →
     (2 * length (atomText e ++ rest) + 1 ≤ fuel)%nat →
     parseAtom fuel position = Ok (plain e) (position + length (atomText e)))
  ∧ (∀ fuel position rest,
       ahead position (toPlainString e ++ rest) → closes rest →
       (2 * length (toPlainString e ++ rest) + 2 ≤ fuel)%nat →
       parseExpr fuel position = Ok (plain e) (position + length (toPlainString e))).
Proof.
  induction e as [name fs sid | param body IHbody fs sid
                 | func IHfunc arg IHarg id fs sid]; intros Hwf; simpl in Hwf.
  - assert (∀ fuel position rest,
              ahead position (name ++ rest) → stopsName rest →
              parseAtom (S fuel) position = Ok (newVariable name) (position + length name))
      as Hatom.
    { intros fuel position rest Hahead Hrest.
      destruct (validName_head name Hwf) as (c & tl & Hname & Hc).
      rewrite parseAtom_S. cbn zeta.
      rewrite (skipWhitespace_stay source position (name ++ rest))
        by (done || (subst name; by apply letter_not_space)).
      pose proof Hahead as Hahead'. rewrite Hname in Hahead'.
      apply ahead_cons in Hahead' as (-> & _ & _).
      destruct (letter_starts_variable c Hc) as (-> & -> & -> & _).
      by rewrite (parseVariableName_name source position name rest). }
    split.
    + intros [|fuel] position rest Hahead Hrest Hfuel; [lia|].
      by apply (Hatom fuel position rest).
    + intros [|[|fuel]] position rest Hahead Hrest Hfuel; [lia..|].
      rewrite parseExpr_S. cbn zeta. simpl in Hahead.
      destruct (validName_head name Hwf) as (c & tl & Hname & Hc).
      rewrite (skipWhitespace_stay source position (name ++ rest))
        by (done || (subst name; by apply letter_not_space)).
      rewrite (Hatom fuel position rest); [|done|by destruct rest as [|? ?]; [|simpl in *; subst]].
      simpl. apply (parseExpr_loop_stops source fuel _ _ rest); [|done].
      by apply ahead_app.
  - apply andb_true_iff in Hwf as [Hparam Hbody].
    destruct (IHbody Hbody) as [_ IHexpr]. clear IHbody.
    destruct (paramName_head param Hparam) as (c & tl & Hname & Hc).
    assert (∀ fuel position rest,
              ahead position (c_lambda :: param ++ c_dot :: toPlainString body ++ rest) →
              closes rest →
              (2 * (length param + length (toPlainString body ++ rest)) + 5 ≤ fuel)%nat →
              parseAtom fuel position
              = Ok (newAbstraction param (plain body))
                   (position + (length param + length (toPlainString body) + 2)))
      as Hlam.
    { intros [|fuel] position rest Hahead Hrest Hfuel; [lia|].
      rewrite parseAtom_S. cbn zeta.
      rewrite (skipWhitespace_stay source position _ Hahead) by done.
      apply ahead_cons in Hahead as (-> & _ & Hahead).
      rewrite bool_decide_false by done.
      replace (isLambdaStart (Some c_lambda)) with true by done.
      rewrite (skipWhitespace_stay source (S position) _ Hahead)
        by (subst param; by apply nameUnit_not_space).
      rewrite (parseVariableName_param (S position) param _ Hahead) by done.
      apply ahead_app in Hahead. cbn [bindResult].
      rewrite (skipWhitespace_stay source _ _ Hahead) by done.
      apply ahead_cons in Hahead as (-> & _ & Hahead).
      rewrite bool_decide_false by (intros Hne; by apply Hne).
      rewrite (IHexpr fuel _ rest Hahead Hrest) by lia.
      cbn [bindResult]. f_equal. lia. }
    assert (∀ fuel position rest,
              ahead position (c_lambda :: param ++ c_dot :: toPlainString body ++ rest) →
              closes rest →
              (2 * (length param + length (toPlainString body ++ rest)) + 6 ≤ fuel)%nat →
              parseExpr fuel position
              = Ok (newAbstraction param (plain body))
                   (position + (length param + length (toPlainString body) + 2)))
      as Hexpr.
    { intros [|[|fuel]] position rest Hahead Hrest Hfuel; [lia..|].
      rewrite parseExpr_S. cbn zeta.
      rewrite (skipWhitespace_stay source position _ Hahead) by done.
      rewrite (Hlam _ position rest) by (done || lia). cbn [bindResult].
      apply (parseExpr_loop_stops source fuel _ _ rest); [|done].
      replace (length param + length (toPlainString body) + 2)%nat
        with (length (c_lambda :: param ++ c_dot :: toPlainString body))
        by (simpl; rewrite length_app; simpl; lia).
      apply ahead_app. simpl. by rewrite <- !app_assoc. }
    split.
    + intros [|fuel] position rest Hahead Hrest Hfuel; [lia|].
      unfold atomText in *. simpl in Hahead, Hfuel.
      flat_in Hahead. len_in Hfuel.
      rewrite parseAtom_S. cbn zeta.
      rewrite (skipWhitespace_stay source position _ Hahead) by done.
      apply ahead_cons in Hahead as (-> & _ & Hahead).
      rewrite bool_decide_true by done.
      rewrite (Hexpr fuel (S position) (c_rparen :: rest))
        by (done || (len_goal; lia)).
      cbn [bindResult].
      apply (ahead_skip source _ (S position + (length param + length (toPlainString body) + 2))
               (c_lambda :: param ++ c_dot :: toPlainString body) (c_rparen :: rest))
        in Hahead; [|by flat_goal|len_goal; lia].
      rewrite (skipWhitespace_stay source _ _ Hahead) by done.
      apply ahead_cons in Hahead as (-> & _ & Hahead).
      rewrite bool_decide_false by (intros Hne; by apply Hne).
      f_equal. simpl. len_goal. lia.
    + intros fuel position rest Hahead Hrest Hfuel. simpl in Hahead, Hfuel |- *.
      flat_in Hahead. len_in Hfuel.
      rewrite (Hexpr fuel position rest); [|done..|len_goal; lia].
      f_equal. len_goal. lia.
  - apply andb_true_iff in Hwf as [Hfunc Harg].
    destruct (IHfunc Hfunc) as [IHf _]. destruct (IHarg Harg) as [IHa _].
    clear IHfunc IHarg.
    destruct (atomText_head_readable func Hfunc) as (cf & tlf & Hftext & Hfspace & _ & _).
    destruct (atomText_head_readable arg Harg) as (ca & tla & Hatext & Haspace & Hastart & Haclose).
    assert (∀ fuel position rest,
              ahead position
                (c_lparen :: atomText func ++ c_space :: atomText arg ++ c_rparen :: rest) →
              (2 * (length (atomText func) + length (atomText arg) + length rest) + 7
               ≤ fuel)%nat →
              parseAtom fuel position
              = Ok (newApplication (plain func) (plain arg))
                   (position + (length (atomText func) + length (atomText arg) + 3)))
      as Hatom.
    { intros [|[|[|[|fuel]]]] position rest Hahead Hfuel; [lia..|].
      rewrite parseAtom_S. cbn zeta.
      rewrite (skipWhitespace_stay source position _ Hahead) by done.
      apply ahead_cons in Hahead as (-> & _ & Hahead).
      rewrite bool_decide_true by done.
      (* the expression between the parentheses: first [func] ... *)
      rewrite parseExpr_S. cbn zeta.
      rewrite (skipWhitespace_stay source _ _ Hahead) by (by rewrite Hftext).
      rewrite (IHf _ _ _ Hahead) by (done || (len_goal; lia)).
      cbn [bindResult]. apply ahead_app in Hahead.
      (* ... then one turn of the loop for [arg] ... *)
      rewrite parseExpr_loop_S. cbn zeta.
      rewrite (skipWhitespace_one source _ ca (tla ++ c_rparen :: rest))
        by (done || by rewrite Hatext in Hahead).
      apply ahead_cons in Hahead as (_ & _ & Hahead).
      pose proof Hahead as Hahead'. rewrite Hatext in Hahead'.
      apply ahead_cons in Hahead' as (-> & -> & _).
      rewrite Hastart, (bool_decide_false (Some ca = Some c_rparen)) by congruence.
      cbn [andb negb].
      rewrite (IHa _ _ _ Hahead) by (done || (len_goal; lia)).
      cbn [bindResult]. apply ahead_app in Hahead.
      (* ... and the loop stops at the closing parenthesis. *)
      rewrite (parseExpr_loop_stops source _ _ _ _ Hahead) by done.
      cbn [bindResult].
      rewrite (skipWhitespace_stay source _ _ Hahead) by done.
      apply ahead_cons in Hahead as (-> & _ & Hahead).
      rewrite bool_decide_false by (intros Hne; by apply Hne).
      f_equal. lia. }
    split.
    + intros fuel position rest Hahead Hrest Hfuel.
      change (atomText (Application func arg id fs sid))
        with (toPlainString (Application func arg id fs sid)) in *.
      rewrite toPlainString_Application in Hahead, Hfuel |- *.
      flat_in Hahead. len_in Hfuel.
      rewrite (Hatom fuel position rest) by (done || lia).
      f_equal. len_goal. lia.
    + intros [|fuel] position rest Hahead Hrest Hfuel; [lia|].
      rewrite toPlainString_Application in Hahead, Hfuel |- *.
      flat_in Hahead. len_in Hfuel.
      rewrite parseExpr_S. cbn zeta.
      rewrite (skipWhitespace_stay source position _ Hahead) by done.
      rewrite (Hatom fuel position rest) by (done || lia).
      cbn [bindResult].
      destruct fuel as [|fuel]; [lia|].
      rewrite (parseExpr_loop_stops source fuel _ _ rest); [|  |done].
      * f_equal. len_goal. lia.
      * eapply (ahead_skip source position _
                  (c_lparen :: atomText func ++ c_space :: atomText arg ++ [c_rparen]) rest);
          [exact Hahead|by flat_goal|len_goal; lia].
Qed.

(** Every code unit the loop has passed satisfies its condition. *)
Lemma advanceWhile_all P bound : ∀ position i,
  (position ≤ i < Parser.advanceWhile source P bound position)%nat →
  ∃ c, source !! i = Some c ∧ P (Some c) = true.
Proof.
  induction bound as [|bound IH]; intros position i; simpl; [lia|].
  destruct (hasMore position && P (currentChar position)) eqn:Hcond; [|lia].
  intros Hi. destruct (decide (i = position)) as [->|Hne].
  - apply andb_true_iff in Hcond as [Hmore HP].
    apply hasMore_true, lookup_lt_is_Some_2 in Hmore as [c Hc].
    exists c. split; [done|]. rewrite <- Hc. exact HP.
  - apply (IH (S position)). lia.
Qed.

(** A name read by [parseVariableName] is a non-empty run of name units;
    it is a variable name of the grammar when the caller has checked its
    first unit. *)
Lemma parseVariableName_readable position name position' :
  parseVariableName position = Ok name position' →
  paramName name = true
  ∧ (isVariableStart (currentChar position) = true → validName name = true).
Proof.
  unfold Parser.parseVariableName, Parser.slice. intros Hrun.
  case_bool_decide as Hlen; [done|]. injection Hrun as Hname Hpos.
  rewrite Hpos in Hname.
  assert (Hunits : ∀ j c, name !! j = Some c →
            source !! (position + j)%nat = Some c ∧ isNameUnit c = true).
  { intros j c Hj. rewrite <- Hname in Hj.
    apply lookup_take_Some in Hj as [Hj Hlt]. rewrite lookup_drop in Hj.
    split; [done|].
    destruct (advanceWhile_all isVariableChar (length source - position)
                position (position + j)%nat) as (c' & Hc' & HP).
    { rewrite Hpos. lia. }
    assert (Some c = Some c') as [= <-] by (rewrite <- Hj; exact Hc').
    exact HP. }
  assert (Hall : forallb isNameUnit name = true).
  { apply forallb_forall. intros x Hx%list_elem_of_In.
    apply list_elem_of_lookup in Hx as [j Hj]. by apply (Hunits j x). }
  rewrite Hpos, Hname in Hlen.
  destruct name as [|c tl]; [done|]. split; [done|].
  destruct (Hunits 0%nat c eq_refl) as [Hc _].
  rewrite Nat.add_0_r in Hc. unfold Parser.currentChar. rewrite Hc.
  simpl in *. apply andb_true_iff in Hall as [_ ->]. by intros ->.
Qed.

(** The parser only builds trees over names it has read. *)
Lemma parser_readable fuel :
  (∀ position e position',
     parseAtom fuel position = Ok e position' → readable e = true)
  ∧ (∀ position e position',
       parseExpr fuel position = Ok e position' → readable e = true)
  ∧ (∀ result position e position',
       readable result = true →
       parseExpr_loop fuel result position = Ok e position' →
       readable e = true).
Proof.
  induction fuel as [|fuel (IHatom & IHexpr & IHloop)]; [done|].
  split_and!.
  - intros position e position'. rewrite (parseAtom_S source). cbn zeta.
    case_bool_decide.
    { intros (inner & p2 & Hinner & Hrest)%bindResult_Ok.
      case_bool_decide; [done|]. injection Hrest as <- <-. eauto. }
    destruct (isLambdaStart _).
    { intros (name & p2 & Hname & Hrest)%bindResult_Ok.
      case_bool_decide; [done|].
      apply bindResult_Ok in Hrest as (body & p3 & Hbody & [= <- <-]).
      apply parseVariableName_readable in Hname as [Hname _].
      simpl. rewrite Hname. eauto. }
    destruct (isVariableStart _) eqn:Hstart; [|done].
    intros (name & p2 & Hname & [= <- <-])%bindResult_Ok.
    apply parseVariableName_readable in Hname as [_ Hname]. simpl. auto.
  - intros position e position'. rewrite (parseExpr_S source). cbn zeta.
    intros (result & p2 & Hatom & Hloop)%bindResult_Ok. eauto.
  - intros result position e position' Hresult.
    rewrite (parseExpr_loop_S source). cbn zeta.
    destruct (negb _); [by intros [= <- <-]|].
    intros (next & p2 & Hatom & Hloop)%bindResult_Ok.
    eapply IHloop; [|done]. simpl. rewrite Hresult. eauto.
Qed.

End CanonicalText.

Lemma plain_pristine e : Forall pristine (nodes e) → plain e = e.
Proof.
  induction e as [name fs sid | param body IH fs sid | func IHf arg IHa id fs sid];
    simpl; intros Hall; apply Forall_cons in Hall as [(Hfs & Hsid & Hid) Hrest];
    simpl in Hfs, Hsid, Hid; subst.
  - done.
  - by rewrite (IH Hrest).
  - apply Forall_app in Hrest as [Hfunc Harg].
    by rewrite (IHf Hfunc), (IHa Harg).
Qed.

Lemma parse_readable input e : parse input = Parsed e → readable e = true.
Proof.
  unfold parse, Parser.parse. intros Hparse.
  destruct (Parser.parseExpr _ _ _) as [result position| |] eqn:Hexpr;
    cbn [bindResult] in Hparse; [|done..].
  destruct (Parser.hasMore _ _); [done|]. injection Hparse as <-.
  destruct (parser_readable (trim input) (Parser.parseFuel (trim input)))
    as (_ & Hreadable & _).
  eauto.
Qed.

Lemma parsed_nodes_pristine input e :
  parse input = Parsed e → Forall pristine (nodes e).
Proof.
  unfold parse, Parser.parse. intros Hparse.
  destruct (Parser.parseExpr _ _ _) as [result position| |] eqn:Hexpr;
    cbn [bindResult] in Hparse; [|done..].
  destruct (Parser.hasMore _ _); [done|]. injection Hparse as <-.
  destruct (parser_pristine (trim input) (Parser.parseFuel (trim input)))
    as (_ & Hpristine & _).
  eauto.
Qed.

Lemma parse_toPlainString_readable_plain a :
  readable a = true → parse (toPlainString a) = Parsed (plain a).
Proof.
  intros Hwf. unfold parse.
  destruct (toPlainString_head_readable a Hwf) as (c & tl & Hhead & Hc).
  destruct (toPlainString_last_readable a Hwf) as (init & c' & Hlast & Hc').
  rewrite (trim_id _ _ _ _ _ Hhead Hc Hlast Hc').
  set (source := toPlainString a).
  assert (ahead source 0 (toPlainString a ++ [])) as Hahead.
  { unfold ahead. by rewrite app_nil_r. }
  unfold Parser.parse.
  destruct (parse_toPlainString_readable source a Hwf) as [_ Hexpr].
  rewrite (Hexpr _ 0%nat [] Hahead); [|done|].
  - cbn [bindResult]. apply ahead_app in Hahead.
    rewrite (skipWhitespace_stay _ _ _ Hahead) by done.
    apply ahead_nil in Hahead as [_ ->]. done.
  - unfold Parser.parseFuel. rewrite app_nil_r. fold source. lia.
Qed.

(** X15. The trees [parse] returns are exactly the trees with constructor
    defaults in every node, variable names of the grammar and, as lambda
    parameters, non-empty runs of letters, digits, underscores and
    apostrophes: the parser does not check how a parameter starts. Each of
    them is returned for its own [toPlainString] text. *)
Theorem parse_image e :
  (∃ input, parse input = Parsed e)
  ↔ readable e = true ∧ Forall pristine (nodes e).
Proof.
  split.
  - intros [input Hparse]. split.
    + by apply (parse_readable input).
    + by apply (parsed_nodes_pristine input).
  - intros [Hreadable Hpristine]. exists (toPlainString e).
    by rewrite (parse_toPlainString_readable_plain e Hreadable),
      (plain_pristine e Hpristine).
Qed.

(** X16. Printing is a right inverse of parsing on everything the parser
    accepts: if [parse(input)] returns [e], then [parse(toPlainString(e))]
    returns the same tree [e], so [toPlainString(parse(input))] is a
    canonical text of the input, left unchanged by a further parse and
    print. *)
Theorem parse_toPlainString_canonical input e :
  parse input = Parsed e →
  parse (toPlainString e) = Parsed e.
Proof.
  intros Hparse.
  rewrite (parse_toPlainString_readable_plain e (parse_readable input e Hparse)).
  by rewrite (plain_pristine e (parsed_nodes_pristine input e Hparse)).
Qed.

Lemma parse_toPlainString_canonical_witness :
  parse (str "  \1f .(f   x)((y)) ")
  = Parsed (newAbstraction (str "1f")
              (newApplication
                 (newApplication (newVariable (str "f")) (newVariable (str "x")))
                 (newVariable (str "y"))))
  ∧ parse (toPlainString
             (newAbstraction (str "1f")
                (newApplication
                   (newApplication (newVariable (str "f")) (newVariable (str "x")))
                   (newVariable (str "y")))))
    = Parsed (newAbstraction (str "1f")
                (newApplication
                   (newApplication (newVariable (str "f")) (newVariable (str "x")))
                   (newVariable (str "y")))).
Proof.
  split; [by vm_compute|].
  apply (parse_toPlainString_canonical (str "  \1f .(f   x)((y)) ")).
  by vm_compute.
Defined.

(** ** White space around the text, and parentheses *)

Lemma trimStart_spaces ws s :
  forallb isSpaceUnit ws = true → trimStart (ws ++ s) = trimStart s.
Proof.
  induction ws as [|c ws IH]; [done|]. simpl.
  intros [-> Hws]%andb_true_iff. auto.
Qed.

Lemma trimStart_keeps_end s ws :
  forallb isSpaceUnit ws = true →
  trimStart (rev (trimStart (s ++ ws))) = trimStart (rev (trimStart s)).
Proof.
  intros Hws. induction s as [|c s IH]; simpl.
  - assert (trimStart ws = []) as ->; [|done].
    rewrite <- (app_nil_r ws). by rewrite trimStart_spaces.
  - destruct (isSpaceUnit c); [done|].
    change (c :: s ++ ws) with ((c :: s) ++ ws).
    rewrite rev_app_distr. apply trimStart_spaces.
    rewrite forallb_forall in *. intros x Hx. apply Hws. by apply in_rev.
Qed.

Lemma trim_spaces ws1 s ws2 :
  forallb isSpaceUnit ws1 = true → forallb isSpaceUnit ws2 = true →
  trim (ws1 ++ s ++ ws2) = trim s.
Proof.
  intros Hws1 Hws2. unfold trim.
  by rewrite (trimStart_spaces ws1 _ Hws1), (trimStart_keeps_end s ws2 Hws2).
Qed.

(** X17. [parse] trims its input first: white space and line terminators
    before and after the text change neither the tree nor the error, whose
    position and context therefore refer to the trimmed text; an input of
    white space only is the empty text and throws "Expected variable name"
    at position 0. *)
Theorem parse_outer_whitespace ws1 input ws2 :
  forallb isSpaceUnit ws1 = true → forallb isSpaceUnit ws2 = true →
  parse (ws1 ++ input ++ ws2) = parse input
  ∧ parse ws1 = ThrownError (Parser.error [] (str "Expected variable name") 0).
Proof.
  intros Hws1 Hws2. split.
  - unfold parse. by rewrite trim_spaces.
  - unfold parse. rewrite <- (app_nil_r ws1).
    change (ws1 ++ []) with (ws1 ++ [] ++ []).
    rewrite (trim_spaces ws1 [] [] Hws1 eq_refl). by vm_compute.
Qed.

Lemma parse_outer_whitespace_witness :
  parse ([9%N; 32%N] ++ str "(x" ++ [10%N; 160%N]) = parse (str "(x")
  ∧ parse [9%N; 32%N]
    = ThrownError (Parser.error [] (str "Expected variable name") 0).
Proof.
  apply (parse_outer_whitespace [9%N; 32%N] (str "(x") [10%N; 160%N]);
    by vm_compute.
Defined.

Section Parentheses.
Variable source : jsstring.

Abbreviation currentChar := (Parser.currentChar source).
Abbreviation hasMore := (Parser.hasMore source).
Abbreviation skipWhitespace := (Parser.skipWhitespace source).
Abbreviation parseAtom := (Parser.parseAtom source).
Abbreviation parseExpr := (Parser.parseExpr source).
Abbreviation parseExpr_loop := (Parser.parseExpr_loop source).
Abbreviation ahead := (ahead source).

(** The branch of [parseAtom] for an opening parenthesis. *)
Lemma parseAtom_parenthesis fuel position a rest :
  readable a = true →
  ahead position (c_lparen :: toPlainString a ++ rest) → closes rest →
  (2 * length (toPlainString a ++ rest) + 2 ≤ fuel)%nat →
  parseAtom (S fuel) position =
  match rest with
  | [] => Throw (Parser.error source (str "Expected ')'")
                   (S position + length (toPlainString a)))
  | _ :: _ => Ok (plain a) (S (S position + length (toPlainString a)))
  end.
Proof.
  intros Hreadable Hahead Hrest Hfuel. rewrite (parseAtom_S source). cbn zeta.
  rewrite (skipWhitespace_stay source position _ Hahead) by done.
  apply ahead_cons in Hahead as (-> & _ & Hahead).
  rewrite bool_decide_true by done.
  destruct (parse_toPlainString_readable source a Hreadable) as [_ Hexpr].
  rewrite (Hexpr fuel (S position) rest Hahead Hrest Hfuel). cbn [bindResult].
  apply ahead_app in Hahead.
  rewrite (skipWhitespace_stay source _ rest Hahead)
    by (destruct rest as [|c rest]; [done|simpl in Hrest; by subst c]).
  destruct rest as [|c rest].
  - apply ahead_nil in Hahead as [-> _]. by rewrite bool_decide_true.
  - simpl in Hrest. subst c. apply ahead_cons in Hahead as (-> & _ & _).
    rewrite bool_decide_false; [done|]. by intros [].
Qed.

End Parentheses.

(** X18. Parentheses around a text the parser can produce are transparent,
    and an unbalanced one is an error at the place where the parser meets
    it: with the closing parenthesis missing, "Expected ')'" at the end of
    the text; with one too many, "Unexpected character (expected end of
    input)" at that parenthesis. *)
Theorem parse_parentheses a :
  readable a = true →
  parse (c_lparen :: toPlainString a ++ [c_rparen]) = Parsed (plain a)
  ∧ parse (c_lparen :: toPlainString a)
    = ThrownError (Parser.error (c_lparen :: toPlainString a)
                     (str "Expected ')'") (S (length (toPlainString a))))
  ∧ parse (toPlainString a ++ [c_rparen])
    = ThrownError (Parser.error (toPlainString a ++ [c_rparen])
                     (str "Unexpected character (expected end of input)")
                     (length (toPlainString a))).
Proof.
  intros Hreadable.
  destruct (toPlainString_head_readable a Hreadable) as (c & tl & Hhead & Hc).
  destruct (toPlainString_last_readable a Hreadable) as (init & c' & Hlast & Hc').
  split_and!.
  - unfold parse.
    rewrite (trim_id (c_lparen :: toPlainString a ++ [c_rparen])
               c_lparen (toPlainString a ++ [c_rparen])
               (c_lparen :: toPlainString a) c_rparen) by done.
    set (source := c_lparen :: toPlainString a ++ [c_rparen]).
    assert (ahead source 0 (c_lparen :: toPlainString a ++ [c_rparen])) as Hahead
      by done.
    unfold Parser.parse.
    assert (Parser.parseFuel source
            = S (S (2 * length (toPlainString a ++ [c_rparen]) + 2))) as ->.
    { unfold Parser.parseFuel, source. simpl. rewrite !length_app. simpl. lia. }
    rewrite (parseExpr_S source). cbn zeta.
    rewrite (skipWhitespace_stay source 0 _ Hahead) by done.
    rewrite (parseAtom_parenthesis source _ 0 a [c_rparen] Hreadable Hahead)
      by (done || lia).
    cbn [bindResult].
    assert (ahead source (S (1 + length (toPlainString a))) []) as Hend.
    { unfold ahead, source. apply drop_ge. simpl. rewrite length_app. simpl. lia. }
    rewrite Nat.add_comm.
    rewrite (parseExpr_loop_stops source _ _ _ [] Hend) by done.
    cbn [bindResult]. rewrite (skipWhitespace_stay source _ [] Hend) by done.
    apply ahead_nil in Hend as [_ ->]. done.
  - unfold parse.
    rewrite (trim_id (c_lparen :: toPlainString a) c_lparen (toPlainString a)
               (c_lparen :: init) c') by (done || by rewrite Hlast).
    set (source := c_lparen :: toPlainString a).
    assert (ahead source 0 (c_lparen :: toPlainString a ++ [])) as Hahead.
    { unfold ahead, source. by rewrite app_nil_r. }
    unfold Parser.parse.
    assert (Parser.parseFuel source
            = S (S (2 * length (toPlainString a ++ []) + 2))) as ->.
    { unfold Parser.parseFuel, source. rewrite app_nil_r. simpl. lia. }
    rewrite (parseExpr_S source). cbn zeta.
    rewrite (skipWhitespace_stay source 0 _ Hahead) by done.
    rewrite (parseAtom_parenthesis source _ 0 a [] Hreadable Hahead)
      by (done || lia).
    done.
  - unfold parse.
    rewrite (trim_id (toPlainString a ++ [c_rparen]) c (tl ++ [c_rparen])
               (toPlainString a) c_rparen) by (done || by rewrite Hhead).
    set (source := toPlainString a ++ [c_rparen]).
    assert (ahead source 0 (toPlainString a ++ [c_rparen])) as Hahead by done.
    unfold Parser.parse.
    destruct (parse_toPlainString_readable source a Hreadable) as [_ Hexpr].
    rewrite (Hexpr _ 0%nat [c_rparen] Hahead); [|done|].
    + cbn [bindResult]. apply ahead_app in Hahead.
      rewrite (skipWhitespace_stay source _ _ Hahead) by done.
      apply ahead_cons in Hahead as (_ & -> & _). done.
    + unfold Parser.parseFuel. fold source. lia.
Qed.

Lemma parse_parentheses_witness :
  readable (newAbstraction (str "x") (newVariable (str "x"))) = true
  ∧ parse (str "(" ++ c_lambda :: str "x.x")
    = ThrownError (Parser.error (str "(" ++ c_lambda :: str "x.x")
                     (str "Expected ')'") 5).
Proof.
  split; [by vm_compute|].
  apply (parse_parentheses (newAbstraction (str "x") (newVariable (str "x")))).
  by vm_compute.
Defined.

(** ** Reduction is a step of beta reduction *)

Lemma indexOf_app v pre rest :
  indexOf v (pre ++ rest)
  = match indexOf v pre with
    | Some i => Some i
    | None => (λ j, length pre + j)%nat <$> indexOf v rest
    end.
Proof.
  induction pre as [|y pre IH]; simpl.
  - by destruct (indexOf v rest).
  - destruct (decide (v = y)); [done|]. rewrite IH.
    destruct (indexOf v pre); [done|]. by destruct (indexOf v rest).
Qed.

Lemma indexOf_lt v pre i : indexOf v pre = Some i → (i < length pre)%nat.
Proof.
  revert i. induction pre as [|y pre IH]; intros i; simpl; [done|].
  destruct (decide (v = y)); [intros [= <-]; lia|].
  destruct (indexOf v pre) as [j|]; [|done].
  intros [= <-]. specialize (IH j eq_refl). lia.
Qed.

Lemma indexOf_Some_elem v pre i : indexOf v pre = Some i → v ∈ pre.
Proof.
  intros Hi. destruct (decide (v ∈ pre)) as [|Hout]; [done|].
  by rewrite (indexOf_None v pre Hout) in Hi.
Qed.

(** A binder that the tree does not see moves its reading up by one. *)
Lemma nameless_nlift r : ∀ pre p binders,
  (p ∈ freeVariables r → p ∈ pre) →
  nameless (pre ++ p :: binders) r = nlift (length pre) (nameless (pre ++ binders) r).
Proof.
  induction r as [name fs sid | param body IH fs sid | func IHf arg IHa id fs sid];
    intros pre p binders Hp; simpl in *.
  - rewrite !indexOf_app.
    destruct (indexOf name pre) as [i|] eqn:Hi; simpl.
    { apply indexOf_lt in Hi. by rewrite decide_True. }
    destruct (decide (name = p)) as [->|Hne].
    { apply indexOf_is_Some in Hp as [i Hp]; [|set_solver]. congruence. }
    destruct (indexOf name binders) as [j|]; simpl; [|done].
    rewrite decide_False by lia. f_equal. lia.
  - f_equal. apply (IH (param :: pre)). intros Hbody.
    destruct (decide (p = param)) as [->|Hne]; [set_solver|].
    apply elem_of_cons. right. apply Hp. set_solver.
  - f_equal; [apply IHf | apply IHa]; intros H; apply Hp; set_solver.
Qed.

(** A binder shadowed by a nearer one of the same name binds nothing. *)
Lemma nameless_shadowed e : ∀ pre x binders r,
  x ∈ pre →
  ninst (length pre) r (nameless (pre ++ x :: binders) e)
  = nameless (pre ++ binders) e.
Proof.
  induction e as [name fs sid | param body IH fs sid | func IHf arg IHa id fs sid];
    intros pre x binders r Hx; simpl.
  - rewrite !indexOf_app.
    destruct (indexOf name pre) as [i|] eqn:Hi; simpl.
    { apply indexOf_lt in Hi. by rewrite decide_True. }
    destruct (decide (name = x)) as [->|Hne].
    { apply indexOf_is_Some in Hx as [i Hx]. congruence. }
    destruct (indexOf name binders) as [j|]; simpl; [|done].
    rewrite !decide_False by lia. f_equal. lia.
  - f_equal. apply (IH (param :: pre)). set_solver.
  - f_equal; auto.
Qed.

(** The reading of [substitute] under binders: [front] are the binders
    passed inside the target, none of which is the variable or is free in
    the replacement. *)
Lemma nameless_substitute_under n : ∀ e front binders x r m s,
  (height e ≤ n)%nat →
  x ∉ front →
  (∀ v, v ∈ freeVariables r → v ∉ front) →
  nameless (front ++ binders) (substitute e x r m s)
  = ninst (length front) (nameless (front ++ binders) r)
          (nameless (front ++ x :: binders) e).
Proof.
  induction n as [|n IH]; intros e front binders x r m s Hh Hx Hr.
  { destruct e; simpl in Hh; lia. }
  destruct e as [name fs sid | param body fs sid | func arg id fs sid]; simpl in Hh.
  - rewrite substitute_Variable.
    destruct (decide (name = x)) as [->|Hne]; simpl.
    + rewrite indexOf_middle by done. simpl.
      rewrite decide_False by lia. rewrite decide_True by done.
      apply nameless_clone.
    + rewrite !indexOf_app.
      destruct (indexOf name front) as [i|] eqn:Hi; simpl.
      { apply indexOf_lt in Hi. by rewrite decide_True. }
      rewrite decide_False by done.
      destruct (indexOf name binders) as [j|]; simpl; [|done].
      rewrite !decide_False by lia. f_equal. lia.
  - rewrite substitute_Abstraction.
    destruct (decide (param = x)) as [->|Hne].
    { simpl. f_equal. symmetry.
      apply (nameless_shadowed body (x :: front)). set_solver. }
    destruct (decide (param ∈ freeVariables r)) as [Hin|Hout]; cbn zeta.
    + set (q := freshName param (freeVariables r ∪ freeVariables body ∪ {[x]})).
      pose proof (freshName_fresh param (freeVariables r ∪ freeVariables body ∪ {[x]}))
        as Hq. fold q in Hq.
      simpl. f_equal.
      etrans.
      { apply (IH _ (q :: front) binders x r m s);
          [unfold newVariable; rewrite height_substitute_variable; lia
          |set_solver|intros v Hv; specialize (Hr v Hv); set_solver]. }
      simpl. f_equal.
      * apply (nameless_nlift r [] q). set_solver.
      * apply (nameless_rename_height n body [] (front ++ x :: binders) param q);
          [lia|set_solver..].
    + simpl. f_equal.
      etrans.
      { apply (IH body (param :: front) binders x r m s);
          [lia|set_solver|intros v Hv; specialize (Hr v Hv); set_solver]. }
      simpl. f_equal. apply (nameless_nlift r [] param). set_solver.
  - rewrite substitute_Application. simpl.
    by rewrite (IH func), (IH arg) by (done || lia).
Qed.

Lemma nameless_sameExceptIds a : ∀ b binders,
  sameExceptIds a b = true → nameless binders b = nameless binders a.
Proof.
  induction a as [name fs sid | param body IH fs sid | func IHf arg IHa id fs sid];
    intros [name' fs' sid' | param' body' fs' sid' | func' arg' id' fs' sid']
           binders; simpl; try done.
  - intros [[->%bool_decide_eq_true _]%andb_true_iff _]%andb_true_iff. done.
  - intros [[[->%bool_decide_eq_true Hbody]%andb_true_iff _]%andb_true_iff
             _]%andb_true_iff.
    by rewrite (IH _ _ Hbody).
  - intros [[[Hfunc Harg]%andb_true_iff _]%andb_true_iff _]%andb_true_iff.
    by rewrite (IHf _ _ Hfunc), (IHa _ _ Harg).
Qed.

(** In a tree whose redex ids are distinct, reducing at the id of one of
    its redexes is one step of beta reduction, under any binders. *)
Lemma reduceAt_betaStep e : ∀ targetId binders,
  NoDup (getRedexes e).*1 →
  is_Some (getRedex e targetId) →
  betaStep (nameless binders e) (nameless binders (reduceAt e targetId)).
Proof.
  induction e as [name fs sid | param body IH fs sid | func IHf arg IHa id fs sid];
    intros targetId binders Hnodup Hsome.
  - by destruct Hsome.
  - simpl. apply beta_body, IH; [by rewrite getRedexes_Abstraction in Hnodup|done].
  - rewrite getRedexes_Application, !fmap_app in Hnodup.
    simpl in Hsome |- *.
    destruct (bool_decide (id = targetId) && isAbstraction func) eqn:Hhere.
    + apply andb_true_iff in Hhere as [_ Habs].
      destruct func as [|lparam lbody lfs lsid|]; try done. simpl.
      rewrite (nameless_substitute_under (height lbody) lbody [] binders)
        by (done || set_solver).
      apply beta_redex.
    + apply NoDup_app in Hnodup as (_ & Hapart & Hnodup).
      apply NoDup_app in Hnodup as (Hfunc & Hdisjoint & Harg).
      destruct (getRedex func targetId) as [found|] eqn:Hfound.
      * rewrite (reduceAt_unchanged arg targetId).
        { apply beta_func, IHf; [done|]. by rewrite Hfound. }
        apply getRedex_absent, Hdisjoint, (getRedex_present _ _ found Hfound).
      * rewrite (reduceAt_unchanged func targetId Hfound).
        apply beta_arg, IHa; done.
Qed.

(** X19. Reduction is beta reduction.  On a numbered tree, [reduceAt] at
    any id from 1 to [getRedexCount] is exactly one step of beta reduction
    of the term the tree stands for: one redex [(λx.body) arg] is replaced
    by [body] with [arg] for [x], nothing is captured and nothing else
    changes up to the names of bound variables.  Numbering itself leaves
    the term as it is. *)
Theorem reduceAt_is_beta_step expr i :
  1 ≤ i ≤ getRedexCount expr →
  betaStep (nameless [] expr) (nameless [] (reduceAt (numberRedexes expr) (Some i)))
  ∧ nameless [] (numberRedexes expr) = nameless [] expr.
Proof.
  intros Hi.
  pose proof (nameless_sameExceptIds expr (numberRedexes expr) []
                (sameExceptIds_numberRedexes expr)) as Hsame.
  split; [|done]. rewrite <- Hsame.
  apply reduceAt_betaStep; [apply NoDup_getRedexes_numberRedexes|].
  destruct (getRedex (numberRedexes expr) (Some i)) as [redex|] eqn:Hredex; [done|].
  apply getRedex_None in Hredex.
  assert (hasRedexWithId (numberRedexes expr) (Some i) = true) as Hhas
    by (apply hasRedexWithId_numberRedexes; eauto).
  congruence.
Qed.

Lemma reduceAt_is_beta_step_witness :
  betaStep (nameless [] captureExample)
           (nameless [] (reduceAt (numberRedexes captureExample) (Some 1)))
  ∧ nameless [] (numberRedexes captureExample) = nameless [] captureExample.
Proof. apply (reduceAt_is_beta_step captureExample 1). by vm_compute. Defined.

(** ** The renderer of the command line *)

Lemma getColorForDepth_defined depth : is_Some (getColorForDepth depth).
Proof.
  unfold getColorForDepth. apply lookup_lt_is_Some_2.
  change (length RAINBOW_COLORS) with 7%nat.
  apply Nat.mod_upper_bound. lia.
Qed.

Lemma omap_appId_Application func arg id fs sid :
  omap appId (nodes (Application func arg id fs sid))
  = (match id with Some i => [i] | None => [] end)
      ++ omap appId (nodes func) ++ omap appId (nodes arg).
Proof. simpl. rewrite omap_app. by destruct id. Qed.

Lemma lookup_behind (pre text : jsstring) i offset :
  offset = length pre → (pre ++ text) !! (i + offset)%nat = text !! i.
Proof. intros ->. rewrite lookup_app_r by lia. f_equal. lia. Qed.

Lemma renderInternal_ids_spec e : ∀ depth,
  im_id <$> r_ids (renderInternal e depth) = omap appId (nodes e)
  ∧ Forall (λ m, r_plain (renderInternal e depth) !! im_pos m = Some c_lparen
                 ∧ is_Some (im_color m))
           (r_ids (renderInternal e depth))
  ∧ StronglySorted lt (im_pos <$> r_ids (renderInternal e depth)).
Proof.
  induction e as [name fs sid | param body IH fs sid | func IHf arg IHa id fs sid];
    intros depth.
  - simpl. split_and!; constructor.
  - destruct (IH depth) as (Hids & Hmarks & Hsorted).
    cbn [renderInternal r_plain r_ids]. split_and!.
    + change (omap appId (nodes (Abstraction param body fs sid)))
        with (omap appId (nodes body)).
      rewrite <- list_fmap_compose, <- Hids. by apply list_fmap_ext.
    + apply Forall_fmap. eapply Forall_impl; [exact Hmarks|].
      intros m [Hpos Hcolor]. unfold compose. cbn [shifted im_pos im_color]. split; [|done].
      rewrite <- Hpos.
      rewrite (app_assoc [c_lambda] param), (app_assoc _ [c_dot]).
      apply lookup_behind. by rewrite !length_app.
    + rewrite <- list_fmap_compose.
      rewrite (list_fmap_ext _ ((λ pos, pos + (1 + length param + 1))%nat ∘ im_pos)
                 (r_ids (renderInternal body depth))) by done.
      rewrite list_fmap_compose.
      apply (StronglySorted_fmap _ lt lt); [|done]. intros x y. lia.
  - destruct (IHf (depth + 1)%nat) as (Hfids & Hfmarks & Hfsorted).
    destruct (IHa (depth + 1)%nat) as (Haids & Hamarks & Hasorted).
    rewrite omap_appId_Application.
    cbn [renderInternal r_plain r_ids].
    set (pf := r_plain (renderInternal func (depth + 1))) in *.
    set (pa := r_plain (renderInternal arg (depth + 1))) in *.
    set (fids := r_ids (renderInternal func (depth + 1))) in *.
    set (aids := r_ids (renderInternal arg (depth + 1))) in *.
    assert (im_id <$> (shifted 1 <$> fids) ++ (shifted (1 + length pf + 1) <$> aids)
            = omap appId (nodes func) ++ omap appId (nodes arg)) as Hrest.
    { rewrite fmap_app, <- !list_fmap_compose, <- Hfids, <- Haids.
      f_equal; by apply list_fmap_ext. }
    assert (Forall (λ m, ([c_lparen] ++ pf ++ [c_space] ++ pa ++ [c_rparen])
                           !! im_pos m = Some c_lparen
                         ∧ is_Some (im_color m) ∧ (0 < im_pos m)%nat)
                   ((shifted 1 <$> fids) ++ (shifted (1 + length pf + 1) <$> aids)))
      as Hmarks.
    { apply Forall_app. split; apply Forall_fmap.
      - eapply Forall_impl; [exact Hfmarks|].
        intros m [Hpos Hcolor]. unfold compose. cbn [shifted im_pos im_color].
        split_and!; [|done|lia].
        rewrite (lookup_behind [c_lparen]) by done.
        pose proof (lookup_lt_Some _ _ _ Hpos) as Hlt.
        rewrite <- Hpos. by apply lookup_app_l.
      - eapply Forall_impl; [exact Hamarks|].
        intros m [Hpos Hcolor]. unfold compose. cbn [shifted im_pos im_color].
        split_and!; [|done|lia].
        rewrite (app_assoc [c_lparen] pf), (app_assoc _ [c_space]).
        rewrite lookup_behind by (rewrite !length_app; simpl; lia).
        pose proof (lookup_lt_Some _ _ _ Hpos) as Hlt.
        rewrite <- Hpos. by apply lookup_app_l. }
    assert (StronglySorted lt
              (im_pos <$> (shifted 1 <$> fids) ++ (shifted (1 + length pf + 1) <$> aids)))
      as Hsorted.
    { rewrite fmap_app, <- !list_fmap_compose.
      rewrite (list_fmap_ext _ ((λ pos, pos + 1)%nat ∘ im_pos) fids) by done.
      rewrite (list_fmap_ext (im_pos ∘ shifted (1 + length pf + 1))
                 ((λ pos, pos + (1 + length pf + 1))%nat ∘ im_pos) aids) by done.
      rewrite !list_fmap_compose.
      apply StronglySorted_app_2.
      - intros x y (m & -> & Hm)%list_elem_of_fmap (m' & -> & Hm')%list_elem_of_fmap.
        apply list_elem_of_fmap in Hm as (n & -> & Hn).
        rewrite Forall_forall in Hfmarks. destruct (Hfmarks n Hn) as [Hpos _].
        apply lookup_lt_Some in Hpos. fold pf in Hpos. lia.
      - apply (StronglySorted_fmap _ lt lt); [|done]. intros x y. lia.
      - apply (StronglySorted_fmap _ lt lt); [|done]. intros x y. lia. }
    destruct id as [i|]; cbn [fmap list_fmap app].
    + split_and!.
      * simpl. f_equal. exact Hrest.
      * constructor.
        { split; [done|]. apply getColorForDepth_defined. }
        eapply Forall_impl; [exact Hmarks|]. by intros m (? & ? & _).
      * apply StronglySorted_cons. split; [|done].
        apply Forall_fmap. eapply Forall_impl; [exact Hmarks|].
        by intros m (_ & _ & ?).
    + split_and!; [exact Hrest| |done].
      eapply Forall_impl; [exact Hmarks|]. by intros m (? & ? & _).
Qed.

Lemma omap_appId_numberRedexes e :
  omap appId (nodes (numberRedexes e)) = seqZ 1 (getRedexCount e).
Proof. by destruct (numberRedexes_from_spec e 1) as (_ & _ & _ & H & _). Qed.

Lemma renderInternal_plain_depth e : ∀ depth depth',
  r_plain (renderInternal e depth) = r_plain (renderInternal e depth').
Proof.
  induction e as [name fs sid | param body IH fs sid | func IHf arg IHa id fs sid];
    intros depth depth'.
  - done.
  - simpl. by rewrite (IH depth depth').
  - cbn [renderInternal r_plain].
    by rewrite (IHf (depth + 1)%nat (depth' + 1)%nat),
      (IHa (depth + 1)%nat (depth' + 1)%nat).
Qed.

Lemma omap_under (step : Step) k (g g' : list Step → option IdMark)
    (paths : list (list Step)) :
  (∀ path, g' (step :: path) = shifted k <$> g path) →
  omap g' (cons step <$> paths) = shifted k <$> omap g paths.
Proof.
  intros Hg. induction paths as [|path paths IH]; [done|].
  rewrite fmap_cons. cbn [omap list_omap]. rewrite Hg, IH.
  by destruct (g path).
Qed.

(** The marks are those of the applications with an id, each at its own
    place. *)
Lemma renderInternal_ids_markAt e : ∀ depth,
  r_ids (renderInternal e depth) = omap (markAt e depth) (positions e).
Proof.
  induction e as [name fs sid | param body IH fs sid | func IHf arg IHa id fs sid];
    intros depth.
  - done.
  - cbn [renderInternal r_ids positions]. cbn [omap list_omap].
    change (markAt (Abstraction param body fs sid) depth []) with (@None IdMark).
    cbn match. rewrite (IH depth).
    symmetry. apply omap_under. intros path.
    unfold markAt. cbn [nodeAt child offsetOf applicationsAbove].
    destruct (nodeAt body path) as [node|]; [|done].
    destruct (appId node) as [i|]; [|done].
    destruct (offsetOf body path) as [pos|]; [|done].
    simpl. unfold shifted. simpl. repeat f_equal. lia.
  - cbn [renderInternal r_ids positions]. cbn [omap list_omap].
    rewrite omap_app.
    rewrite (omap_under ToFunc 1 (markAt func (depth + 1))).
    2:{ intros path. unfold markAt. cbn [nodeAt child offsetOf applicationsAbove].
        destruct (nodeAt func path) as [node|]; [|done].
        destruct (appId node) as [i|]; [|done].
        destruct (offsetOf func path) as [pos|]; [|done].
        simpl. unfold shifted. simpl. f_equal. f_equal; [lia|f_equal; lia]. }
    rewrite (omap_under ToArg (1 + length (r_plain (renderInternal func (depth + 1))) + 1)
               (markAt arg (depth + 1))).
    2:{ intros path. unfold markAt. cbn [nodeAt child offsetOf applicationsAbove].
        rewrite (renderInternal_plain_depth func 0 (depth + 1)).
        destruct (nodeAt arg path) as [node|]; [|done].
        destruct (appId node) as [i|]; [|done].
        destruct (offsetOf arg path) as [pos|]; [|done].
        simpl. unfold shifted. simpl. f_equal. f_equal; [lia|f_equal; lia]. }
    rewrite <- (IHf (depth + 1)%nat), <- (IHa (depth + 1)%nat).
    unfold markAt. cbn [nodeAt appId offsetOf applicationsAbove].
    rewrite Nat.add_0_r. by destruct id.
Qed.

(** [offsetOf] is the place of the node: its text stands there. *)
Lemma offsetOf_text path : ∀ e node depth,
  nodeAt e path = Some node →
  ∃ pos, offsetOf e path = Some pos
         ∧ (pos + length (r_plain (renderInternal node depth))
            ≤ length (r_plain (renderInternal e depth)))%nat
         ∧ take (length (r_plain (renderInternal node depth)))
                (drop pos (r_plain (renderInternal e depth)))
           = r_plain (renderInternal node depth).
Proof.
  induction path as [|s path IH]; intros e node depth Hnode.
  - injection Hnode as <-. exists 0%nat. split_and!; [done|lia|].
    by rewrite drop_0, firstn_all.
  - cbn [nodeAt] in Hnode.
    destruct (child e s) as [c|] eqn:Hchild; [|done].
    destruct (IH c node depth Hnode) as (pos & Hpos & Hbound & Htext).
    set (text := r_plain (renderInternal node depth)) in *.
    assert (∀ (pre post : jsstring) k,
              k = length pre →
              (k + pos + length text
               ≤ length (pre ++ r_plain (renderInternal c depth) ++ post))%nat
              ∧ take (length text)
                     (drop (k + pos) (pre ++ r_plain (renderInternal c depth) ++ post))
                = text) as Hinside.
    { intros pre post k ->. split; [rewrite !length_app; lia|].
      rewrite <- drop_drop, drop_app_length.
      rewrite drop_app_le by lia.
      rewrite take_app_le by (rewrite length_drop; lia). done. }
    destruct s, e as [name fs sid | param body fs sid | func arg id fs sid];
      try done; injection Hchild as <-; cbn [offsetOf]; rewrite Hpos;
      cbn [fmap option_fmap option_map renderInternal r_plain].
    + eexists. split; [done|].
      destruct (Hinside ([c_lambda] ++ param ++ [c_dot]) [] (1 + length param + 1)%nat)
        as [Hb Ht]; [by rewrite !length_app|].
      rewrite app_nil_r, <- !app_assoc in Hb, Ht. done.
    + eexists. split; [done|].
      rewrite (renderInternal_plain_depth func (depth + 1) depth).
      destruct (Hinside [c_lparen]
                  ([c_space] ++ r_plain (renderInternal arg (depth + 1)) ++ [c_rparen])
                  1%nat) as [Hb Ht]; [done|].
      done.
    + eexists. split; [done|].
      rewrite (renderInternal_plain_depth arg (depth + 1) depth).
      rewrite (renderInternal_plain_depth func 0 (depth + 1)).
      destruct (Hinside ([c_lparen] ++ r_plain (renderInternal func (depth + 1))
                           ++ [c_space])
                  [c_rparen]
                  (1 + length (r_plain (renderInternal func (depth + 1))) + 1)%nat)
        as [Hb Ht]; [by rewrite !length_app|].
      rewrite <- !app_assoc in Hb, Ht. done.
Qed.

(** X20. The id marks of [renderInternal].  [ids] holds one entry for
    each application that has an id, in pre-order, and nothing else: the
    entry of the application at a given place in the tree carries its id,
    the colour of its nesting depth, and as [pos] the index in [plain] at
    which the text of that very application begins, which is its own
    opening parenthesis.  The positions are strictly increasing, so the
    sort in [render] leaves the list as it is.  For a numbered tree the
    ids are 1 .. [getRedexCount]. *)
Theorem renderInternal_ids expr depth :
  r_ids (renderInternal expr depth) = omap (markAt expr depth) (positions expr)
  ∧ (∀ path node,
       nodeAt expr path = Some node →
       ∃ pos, offsetOf expr path = Some pos
              ∧ take (length (r_plain (renderInternal node depth)))
                     (drop pos (r_plain (renderInternal expr depth)))
                = r_plain (renderInternal node depth))
  ∧ im_id <$> r_ids (renderInternal expr depth) = omap appId (nodes expr)
  ∧ Forall (λ m, r_plain (renderInternal expr depth) !! im_pos m = Some c_lparen
                 ∧ is_Some (im_color m))
           (r_ids (renderInternal expr depth))
  ∧ StronglySorted lt (im_pos <$> r_ids (renderInternal expr depth))
  ∧ im_id <$> r_ids (renderInternal (numberRedexes expr) depth)
    = seqZ 1 (getRedexCount expr).
Proof.
  destruct (renderInternal_ids_spec expr depth) as (Hids & Hmarks & Hsorted).
  split_and!; try done.
  - apply renderInternal_ids_markAt.
  - intros path node Hnode.
    destruct (offsetOf_text path expr node depth Hnode) as (pos & Hpos & _ & Htext).
    eauto.
  - destruct (renderInternal_ids_spec (numberRedexes expr) depth) as (-> & _ & _).
    apply omap_appId_numberRedexes.
Qed.

Lemma sum_list_cons x l : sum_list (x :: l) = (x + sum_list l)%nat.
Proof. reflexivity. Qed.

Lemma sum_list_app l1 l2 : sum_list (l1 ++ l2) = (sum_list l1 + sum_list l2)%nat.
Proof. apply sum_list_with_app. Qed.

Lemma operandParens_Application func arg id fs sid :
  sum_list (operandParens <$> nodes (Application func arg id fs sid))
  = ((if isAbstraction func then 2 else 0) + (if isAbstraction arg then 2 else 0)
     + (sum_list (operandParens <$> nodes func)
        + sum_list (operandParens <$> nodes arg)))%nat.
Proof.
  cbn [nodes]. rewrite fmap_cons, fmap_app, sum_list_cons, sum_list_app.
  cbn [operandParens]. lia.
Qed.

Lemma renderInternal_plain_length e : ∀ depth,
  length (toPlainString e)
  = (length (r_plain (renderInternal e depth))
     + sum_list (operandParens <$> nodes e))%nat.
Proof.
  induction e as [name fs sid | param body IH fs sid | func IHf arg IHa id fs sid];
    intros depth.
  - simpl. lia.
  - cbn [renderInternal r_plain nodes toPlainString].
    rewrite fmap_cons, sum_list_cons. cbn [operandParens].
    rewrite !length_app, (IH depth). lia.
  - rewrite toPlainString_Application, operandParens_Application.
    unfold atomText. cbn [renderInternal r_plain].
    pose proof (IHf (depth + 1)%nat) as Hf. pose proof (IHa (depth + 1)%nat) as Ha.
    destruct (isAbstraction func), (isAbstraction arg);
      repeat (rewrite ?length_app, ?length_cons); cbn [length]; lia.
Qed.

Lemma renderInternal_plain_same e : ∀ depth,
  sum_list (operandParens <$> nodes e) = 0%nat →
  r_plain (renderInternal e depth) = toPlainString e.
Proof.
  induction e as [name fs sid | param body IH fs sid | func IHf arg IHa id fs sid];
    intros depth Hnone.
  - done.
  - cbn [nodes] in Hnone. rewrite fmap_cons, sum_list_cons in Hnone.
    cbn [renderInternal r_plain toPlainString]. rewrite (IH depth); [done|].
    cbn [operandParens] in Hnone. lia.
  - rewrite operandParens_Application in Hnone.
    rewrite toPlainString_Application. unfold atomText.
    cbn [renderInternal r_plain].
    destruct (isAbstraction func), (isAbstraction arg); try lia.
    rewrite (IHf (depth + 1)%nat), (IHa (depth + 1)%nat) by lia. done.
Qed.

(** X21. The bare text of the renderer is [toPlainString] without the
    parentheses around operands: it is shorter by two code units for each
    operand of an application that is an abstraction, does not depend on
    the depth, and is the same text exactly when no application has an
    abstraction as [func] or [arg]. *)
Theorem renderInternal_plain expr depth depth' :
  length (toPlainString expr)
  = (length (r_plain (renderInternal expr depth))
     + sum_list (operandParens <$> nodes expr))%nat
  ∧ r_plain (renderInternal expr depth) = r_plain (renderInternal expr depth')
  ∧ (r_plain (renderInternal expr depth) = toPlainString expr
     ↔ sum_list (operandParens <$> nodes expr) = 0%nat).
Proof.
  split_and!.
  - apply renderInternal_plain_length.
  - revert depth depth'.
    induction expr as [name fs sid | param body IH fs sid
                      | func IHf arg IHa id fs sid]; intros depth depth'.
    + done.
    + simpl. by rewrite (IH depth depth').
    + cbn [renderInternal r_plain].
      by rewrite (IHf (depth + 1)%nat (depth' + 1)%nat),
        (IHa (depth + 1)%nat (depth' + 1)%nat).
  - split.
    + intros Hsame. pose proof (renderInternal_plain_length expr depth) as Hlen.
      rewrite Hsame in Hlen. lia.
    + apply renderInternal_plain_same.
Qed.

(** ** A text that cannot start an expression *)

Lemma trimStart_snoc l c :
  isSpaceUnit c = false → ∃ l', trimStart (l ++ [c]) = l' ++ [c].
Proof.
  intros Hc. induction l as [|a l IH]; simpl.
  - rewrite Hc. by exists [].
  - destruct (isSpaceUnit a); [done|]. by exists (a :: l).
Qed.

Lemma trim_head c rest :
  isSpaceUnit c = false → ∃ tl, trim (c :: rest) = c :: tl.
Proof.
  intros Hc. unfold trim. simpl trimStart. rewrite Hc. simpl rev.
  destruct (trimStart_snoc (rev rest) c Hc) as [l' ->].
  exists (rev l'). by rewrite rev_app_distr.
Qed.

(** X22. A text whose first code unit (white space apart) is not an
    opening parenthesis, a lambda, a backslash or a letter is rejected at
    once: [parse] throws "Unexpected character" with that code unit, at
    position 0 of the trimmed text. *)
Theorem parse_unexpected_start c rest :
  isSpaceUnit c = false → isAtomStart (Some c) = false →
  parse (c :: rest)
  = ThrownError (Parser.error (trim (c :: rest))
                   (str "Unexpected character '" ++ [c] ++ str "'") 0).
Proof.
  intros Hc Hstart. unfold parse.
  destruct (trim_head c rest Hc) as [tl ->].
  set (source := c :: tl).
  assert (ahead source 0 (c :: tl)) as Hahead by done.
  unfold Parser.parse.
  assert (Parser.parseFuel source = S (S (2 * length source))) as ->
    by (unfold Parser.parseFuel; lia).
  rewrite (parseExpr_S source). cbn zeta.
  rewrite (skipWhitespace_stay source 0 _ Hahead) by done.
  rewrite (parseAtom_S source). cbn zeta.
  rewrite (skipWhitespace_stay source 0 _ Hahead) by done.
  change (Parser.currentChar source 0) with (Some c).
  unfold isAtomStart in Hstart.
  apply orb_false_iff in Hstart as [[-> ->]%orb_false_iff ->].
  done.
Qed.

Lemma parse_unexpected_start_witness :
  parse (str "1x ")
  = ThrownError (Parser.error (str "1x") (str "Unexpected character '1'") 0).
Proof. apply (parse_unexpected_start 49%N (str "x ")); by vm_compute. Defined.

(** ** The two ways to write a lambda *)

Lemma sameResult_bind {A B} (a b : Result A) (k k' : A → nat → Result B) :
  sameResult a b → (∀ v p, sameResult (k v p) (k' v p)) →
  sameResult (bindResult a k) (bindResult b k').
Proof.
  destruct a, b; simpl; try done. intros [-> ->] Hk. apply Hk.
Qed.

Lemma asBackslash_unit c :
  c ≠ c_lambda → (if decide (c = c_lambda) then c_backslash else c) = c.
Proof. intros Hc. by rewrite decide_False. Qed.

Lemma asBackslash_trimStart input :
  trimStart (asBackslash input) = asBackslash (trimStart input).
Proof.
  induction input as [|c input IH]; [done|]. simpl.
  destruct (decide (c = c_lambda)) as [->|Hne]; [done|].
  destruct (isSpaceUnit c); [done|]. simpl. by rewrite decide_False.
Qed.

Lemma asBackslash_rev input : asBackslash (rev input) = rev (asBackslash input).
Proof.
  unfold asBackslash. induction input as [|c input IH]; [done|]. simpl.
  by rewrite fmap_app, IH.
Qed.

Lemma asBackslash_trim input : trim (asBackslash input) = asBackslash (trim input).
Proof.
  unfold trim.
  by rewrite asBackslash_trimStart, <- asBackslash_rev, asBackslash_trimStart,
    asBackslash_rev.
Qed.

Lemma length_asBackslash input : length (asBackslash input) = length input.
Proof. apply length_fmap. Qed.

Lemma drop_asBackslash n input : drop n (asBackslash input) = asBackslash (drop n input).
Proof. unfold asBackslash. by rewrite fmap_drop. Qed.

Lemma take_asBackslash n input : take n (asBackslash input) = asBackslash (take n input).
Proof. unfold asBackslash. by rewrite fmap_take. Qed.

Section Backslash.
Variable source : jsstring.

Abbreviation written := (asBackslash source).

Lemma currentChar_asBackslash position :
  Parser.currentChar written position
  = (λ c, if decide (c = c_lambda) then c_backslash else c)
      <$> Parser.currentChar source position.
Proof. unfold Parser.currentChar, asBackslash. apply list_lookup_fmap. Qed.

Lemma hasMore_asBackslash position :
  Parser.hasMore written position = Parser.hasMore source position.
Proof. unfold Parser.hasMore. by rewrite length_asBackslash. Qed.

Lemma advanceWhile_asBackslash P bound : ∀ position,
  (∀ position, P (Parser.currentChar written position)
               = P (Parser.currentChar source position)) →
  Parser.advanceWhile written P bound position
  = Parser.advanceWhile source P bound position.
Proof.
  induction bound as [|bound IH]; intros position HP; simpl; [done|].
  rewrite hasMore_asBackslash, HP.
  destruct (_ && _); [|done]. by apply IH.
Qed.

Lemma isWhitespace_asBackslash position :
  isWhitespace (Parser.currentChar written position)
  = isWhitespace (Parser.currentChar source position).
Proof.
  rewrite currentChar_asBackslash.
  destruct (Parser.currentChar source position) as [c|]; [|done]. simpl.
  by destruct (decide (c = c_lambda)) as [->|].
Qed.

Lemma isVariableChar_asBackslash position :
  isVariableChar (Parser.currentChar written position)
  = isVariableChar (Parser.currentChar source position).
Proof.
  rewrite currentChar_asBackslash.
  destruct (Parser.currentChar source position) as [c|]; [|done]. simpl.
  by destruct (decide (c = c_lambda)) as [->|].
Qed.

Lemma isVariableStart_asBackslash position :
  isVariableStart (Parser.currentChar written position)
  = isVariableStart (Parser.currentChar source position).
Proof.
  rewrite currentChar_asBackslash.
  destruct (Parser.currentChar source position) as [c|]; [|done]. simpl.
  by destruct (decide (c = c_lambda)) as [->|].
Qed.

Lemma isLambdaStart_asBackslash position :
  isLambdaStart (Parser.currentChar written position)
  = isLambdaStart (Parser.currentChar source position).
Proof.
  rewrite currentChar_asBackslash. unfold isLambdaStart.
  destruct (Parser.currentChar source position) as [c|]; [|done]. simpl.
  by destruct (decide (c = c_lambda)) as [->|Hne].
Qed.

Lemma currentChar_is_asBackslash position c :
  c ≠ c_lambda → c ≠ c_backslash →
  bool_decide (Parser.currentChar written position = Some c)
  = bool_decide (Parser.currentChar source position = Some c).
Proof.
  intros Hlambda Hbackslash. rewrite currentChar_asBackslash.
  destruct (Parser.currentChar source position) as [c'|]; [|done]. simpl.
  destruct (decide (c' = c_lambda)) as [->|Hne]; [|done].
  rewrite !bool_decide_false; congruence.
Qed.

Lemma currentChar_isnt_asBackslash position c :
  c ≠ c_lambda → c ≠ c_backslash →
  bool_decide (Parser.currentChar written position ≠ Some c)
  = bool_decide (Parser.currentChar source position ≠ Some c).
Proof.
  intros Hlambda Hbackslash.
  pose proof (currentChar_is_asBackslash position c Hlambda Hbackslash) as H.
  repeat case_bool_decide; done.
Qed.

Lemma isAtomStart_asBackslash position :
  isAtomStart (Parser.currentChar written position)
  = isAtomStart (Parser.currentChar source position).
Proof.
  unfold isAtomStart.
  by rewrite currentChar_is_asBackslash, isLambdaStart_asBackslash,
    isVariableStart_asBackslash.
Qed.

Lemma skipWhitespace_asBackslash position :
  Parser.skipWhitespace written position = Parser.skipWhitespace source position.
Proof.
  unfold Parser.skipWhitespace. rewrite length_asBackslash.
  apply advanceWhile_asBackslash, isWhitespace_asBackslash.
Qed.

Lemma parseVariableName_written position :
  Parser.parseVariableName written position
  = let position' :=
      Parser.advanceWhile source isVariableChar (length source - position) position in
    let name := asBackslash (Parser.slice source position position') in
    if bool_decide (length name = 0%nat)
    then Throw (Parser.error written (str "Expected variable name") position')
    else Ok name position'.
Proof.
  unfold Parser.parseVariableName, Parser.slice.
  rewrite length_asBackslash.
  rewrite (advanceWhile_asBackslash isVariableChar _ position
             isVariableChar_asBackslash).
  by rewrite drop_asBackslash, take_asBackslash.
Qed.

Lemma parseVariableName_asBackslash position :
  sameResult (Parser.parseVariableName written position)
             (Parser.parseVariableName source position).
Proof.
  rewrite parseVariableName_written. cbn zeta.
  destruct (Parser.parseVariableName source position) as [name position'| |] eqn:Hrun.
  - pose proof (parseVariableName_readable source position name position' Hrun)
      as [Hname _].
    revert Hrun. unfold Parser.parseVariableName. rewrite length_asBackslash.
    case_bool_decide; [done|]. intros [= -> ->]. simpl. split; [|done].
    assert (forallb isNameUnit name = true) as Hall by (by destruct name).
    clear Hname. unfold asBackslash.
    induction name as [|c name IH]; [done|]. simpl in Hall.
    apply andb_true_iff in Hall as [Hc Hall]. rewrite fmap_cons, (IH Hall).
    f_equal. apply asBackslash_unit. by intros ->.
  - revert Hrun. unfold Parser.parseVariableName. rewrite length_asBackslash.
    by case_bool_decide.
  - by apply parseVariableName_not_OutOfFuel in Hrun.
Qed.

(** The parser does the same on both texts, step by step. *)
Lemma parser_asBackslash fuel :
  (∀ position,
     sameResult (Parser.parseAtom written fuel position)
                (Parser.parseAtom source fuel position))
  ∧ (∀ position,
       sameResult (Parser.parseExpr written fuel position)
                  (Parser.parseExpr source fuel position))
  ∧ (∀ result position,
       sameResult (Parser.parseExpr_loop written fuel result position)
                  (Parser.parseExpr_loop source fuel result position)).
Proof.
  induction fuel as [|fuel (IHatom & IHexpr & IHloop)]; [done|].
  split_and!.
  - intros position. rewrite !parseAtom_S. cbn zeta.
    rewrite skipWhitespace_asBackslash.
    rewrite currentChar_is_asBackslash by done.
    rewrite isLambdaStart_asBackslash, isVariableStart_asBackslash.
    case_bool_decide.
    { apply sameResult_bind; [apply IHexpr|]. intros inner p.
      rewrite skipWhitespace_asBackslash.
      rewrite currentChar_isnt_asBackslash by done.
      by case_bool_decide. }
    destruct (isLambdaStart _).
    { rewrite skipWhitespace_asBackslash.
      apply sameResult_bind; [apply parseVariableName_asBackslash|].
      intros name p. rewrite skipWhitespace_asBackslash.
      rewrite currentChar_isnt_asBackslash by done.
      case_bool_decide; [done|].
      apply sameResult_bind; [apply IHexpr|]. by intros body p'. }
    destruct (isVariableStart _); [|done].
    apply sameResult_bind; [apply parseVariableName_asBackslash|]. by intros name p.
  - intros position. rewrite !parseExpr_S. cbn zeta.
    rewrite skipWhitespace_asBackslash.
    apply sameResult_bind; [apply IHatom|]. intros result p. apply IHloop.
  - intros result position. rewrite !parseExpr_loop_S. cbn zeta.
    rewrite skipWhitespace_asBackslash, hasMore_asBackslash.
    rewrite currentChar_is_asBackslash by done.
    rewrite isAtomStart_asBackslash.
    destruct (negb _); [done|].
    apply sameResult_bind; [apply IHatom|]. intros next p. apply IHloop.
Qed.

Lemma Parser_parse_asBackslash :
  sameResult (Parser.parse written) (Parser.parse source).
Proof.
  unfold Parser.parse, Parser.parseFuel. rewrite length_asBackslash.
  apply sameResult_bind; [apply parser_asBackslash|]. intros result p.
  rewrite skipWhitespace_asBackslash, hasMore_asBackslash.
  by destruct (Parser.hasMore source _).
Qed.

End Backslash.

Lemma parse_asBackslash input : sameOutcome (parse (asBackslash input)) (parse input).
Proof.
  unfold parse. rewrite asBackslash_trim.
  pose proof (Parser_parse_asBackslash (trim input)) as Hsame.
  destruct (Parser.parse (asBackslash (trim input))),
    (Parser.parse (trim input)); simpl in *; try done.
  by destruct Hsame.
Qed.

(** X23. ['λ'] and the backslash are the same to the parser.  Two texts
    that differ only in which of the two stands at some places are both
    accepted, with the same tree, or both rejected. *)
Theorem parse_lambda_notation input1 input2 :
  asBackslash input1 = asBackslash input2 →
  sameOutcome (parse input1) (parse input2).
Proof.
  intros Hsame.
  pose proof (parse_asBackslash input1) as H1.
  pose proof (parse_asBackslash input2) as H2.
  rewrite Hsame in H1.
  destruct (parse input1), (parse input2), (parse (asBackslash input2));
    simpl in *; try done.
  congruence.
Qed.

Lemma parse_lambda_notation_witness :
  sameOutcome (parse (c_lambda :: str "x.\y.x y"))
              (parse (str "\x." ++ c_lambda :: str "y.x y")).
Proof.
  apply (parse_lambda_notation (c_lambda :: str "x.\y.x y")
           (str "\x." ++ c_lambda :: str "y.x y")).
  by vm_compute.
Defined.

(** ** The start of a session *)

Lemma clearSubstitutionMarks_pristine e :
  Forall pristine (nodes e) → clearSubstitutionMarks e = e.
Proof.
  induction e as [name fs sid | param body IH fs sid | func IHf arg IHa id fs sid];
    simpl; intros Hall; apply Forall_cons in Hall as [(Hfs & Hsid & _) Hrest];
    simpl in Hfs, Hsid; subst.
  - done.
  - by rewrite (IH Hrest).
  - apply Forall_app in Hrest as [Hfunc Harg].
    by rewrite (IHf Hfunc), (IHa Harg).
Qed.

(** X24. What [setup(exprString)] of the linking tests returns for a text
    the parser accepts: the parsed tree with its redexes numbered
    1 .. [getRedexCount], no substitution mark anywhere, so that
    [getSubstitutions] is empty and clearing or numbering it again changes
    nothing.  A first [reduceStep] on it is therefore [reduceAt] followed
    by [numberRedexes]. *)
Theorem setup_numbered exprString e :
  setup exprString = Parsed e →
  (∃ parsed, parse exprString = Parsed parsed ∧ e = numberRedexes parsed
             ∧ omap appId (nodes e) = seqZ 1 (getRedexCount parsed))
  ∧ clearSubstitutionMarks e = e
  ∧ numberRedexes e = e
  ∧ getSubstitutions e = ∅
  ∧ ∀ redexId, reduceStep e redexId = numberRedexes (reduceAt e redexId).
Proof.
  unfold setup. destruct (parse exprString) as [parsed| |] eqn:Hparse; [|done..].
  intros [= <-].
  assert (clearSubstitutionMarks (numberRedexes parsed) = numberRedexes parsed)
    as Hclear.
  { rewrite <- numberRedexes_clearSubstitutionMarks.
    by rewrite (clearSubstitutionMarks_pristine parsed
                  (parsed_nodes_pristine exprString parsed Hparse)). }
  split_and!.
  - exists parsed. split_and!; [done..|]. apply omap_appId_numberRedexes.
  - done.
  - apply numberRedexes_idempotent.
  - rewrite <- Hclear.
    apply getSubstitutions_pushed, pushedFrom_unmarked, clearSubstitutionMarks_unmarked.
  - intros redexId. unfold reduceStep. cbn zeta.
    by rewrite Hclear, numberRedexes_idempotent.
Qed.

Lemma setup_numbered_witness :
  (∃ parsed, parse (str "(\x.x x) arg") = Parsed parsed
             ∧ numberRedexes duplicationExample = numberRedexes parsed
             ∧ omap appId (nodes (numberRedexes duplicationExample))
               = seqZ 1 (getRedexCount parsed))
  ∧ clearSubstitutionMarks (numberRedexes duplicationExample)
    = numberRedexes duplicationExample
  ∧ numberRedexes (numberRedexes duplicationExample) = numberRedexes duplicationExample
  ∧ getSubstitutions (numberRedexes duplicationExample) = ∅
  ∧ ∀ redexId, reduceStep (numberRedexes duplicationExample) redexId
               = numberRedexes (reduceAt (numberRedexes duplicationExample) redexId).
Proof.
  apply (setup_numbered (str "(\x.x x) arg") (numberRedexes duplicationExample)).
  by vm_compute.
Defined.

(** ** Normal forms *)

Lemma no_redex_no_betaStep e : ∀ binders t,
  getRedexCount e = 0 → ¬ betaStep (nameless binders e) t.
Proof.
  induction e as [name fs sid | param body IH fs sid | func IHf arg IHa id fs sid];
    intros binders t Hcount Hstep.
  - simpl in Hstep. destruct (indexOf name binders); inversion Hstep.
  - simpl in Hstep. inversion Hstep as [|b b' Hbody| |]; subst.
    by apply (IH (param :: binders) b').
  - rewrite getRedexCount_Application in Hcount.
    pose proof (getRedexCount_nonneg func). pose proof (getRedexCount_nonneg arg).
    destruct (isAbstraction func) eqn:Habs; [lia|].
    simpl in Hstep.
    inversion Hstep as [b a Hb|?|f f' a Hfunc|f a a' Harg]; subst.
    + destruct func as [name'| |]; try done.
      simpl in Hb. by destruct (indexOf name' binders).
    + apply (IHf binders f'); [lia|done].
    + apply (IHa binders a'); [lia|done].
Qed.

Lemma reduceAt_numbered_betaStep expr i :
  1 ≤ i ≤ getRedexCount expr →
  betaStep (nameless [] expr) (nameless [] (reduceAt (numberRedexes expr) (Some i))).
Proof.
  intros Hi.
  rewrite <- (nameless_sameExceptIds expr (numberRedexes expr) []
                (sameExceptIds_numberRedexes expr)).
  apply reduceAt_betaStep; [apply NoDup_getRedexes_numberRedexes|].
  destruct (getRedex (numberRedexes expr) (Some i)) as [redex|] eqn:Hredex; [done|].
  apply getRedex_None in Hredex.
  assert (hasRedexWithId (numberRedexes expr) (Some i) = true) as Hhas
    by (apply hasRedexWithId_numberRedexes; eauto).
  congruence.
Qed.

(** X25. The count the command line stops on is the right one:
    [getRedexCount(expr)] is 0 if and only if the term [expr] stands for is
    in beta normal form, that is, no step of beta reduction applies to it
    anywhere. *)
Theorem getRedexCount_normal_form expr :
  getRedexCount expr = 0 ↔ ∀ t, ¬ betaStep (nameless [] expr) t.
Proof.
  split.
  - intros Hcount t. by apply no_redex_no_betaStep.
  - intros Hnormal. pose proof (getRedexCount_nonneg expr) as Hnonneg.
    destruct (decide (getRedexCount expr = 0)) as [|Hne]; [done|].
    destruct (Hnormal (nameless [] (reduceAt (numberRedexes expr) (Some 1)))).
    apply reduceAt_numbered_betaStep. lia.
Qed.

(** ** A lambda that is cut short *)

Lemma paramName_last name :
  paramName name = true →
  ∃ init c, name = init ++ [c] ∧ isSpaceUnit c = false.
Proof.
  intros Hparam.
  assert (forallb isNameUnit name = true) as Hall by (by destruct name).
  induction name as [|c0 name _] using rev_ind; [done|].
  rewrite forallb_app in Hall. apply andb_true_iff in Hall as [_ Hlast].
  simpl in Hlast. rewrite andb_true_r in Hlast.
  exists name, c0. split; [done|]. by apply nameUnit_not_space.
Qed.

Section CutShort.
Variable source : jsstring.

Lemma parseVariableName_at_end position :
  ahead source position [] →
  Parser.parseVariableName source position
  = Throw (Parser.error source (str "Expected variable name") position).
Proof.
  intros Hahead. unfold Parser.parseVariableName, Parser.slice.
  rewrite (advanceWhile_prefix source isVariableChar [] _ position []);
    [|done|done|done|simpl; lia].
  simpl. rewrite Nat.add_0_r, Nat.sub_diag. done.
Qed.

(** [parseAtom] up to the dot of a lambda. *)
Lemma parseAtom_lambda fuel position name rest :
  paramName name = true → stopsName rest →
  ahead source position (c_lambda :: name ++ rest) →
  Parser.parseAtom source (S fuel) position
  = match rest with
    | c :: _ =>
        if decide (c = c_dot) then
          let* (body, position) :=
            Parser.parseExpr source fuel (S (S position + length name)) in
          Ok (newAbstraction name body) position
        else
          let position := Parser.skipWhitespace source (S position + length name) in
          if bool_decide (Parser.currentChar source position ≠ Some c_dot)
          then Throw (Parser.error source (str "Expected '.' after lambda parameter")
                        position)
          else
            let* (body, position) := Parser.parseExpr source fuel (S position) in
            Ok (newAbstraction name body) position
    | [] => Throw (Parser.error source (str "Expected '.' after lambda parameter")
                     (S position + length name))
    end.
Proof.
  intros Hparam Hrest Hahead. rewrite (parseAtom_S source). cbn zeta.
  rewrite (skipWhitespace_stay source position _ Hahead) by done.
  apply ahead_cons in Hahead as (-> & _ & Hahead).
  rewrite bool_decide_false by done.
  change (isLambdaStart (Some c_lambda)) with true. cbn match.
  destruct (paramName_head name Hparam) as (c & tl & Hname & Hc).
  rewrite (skipWhitespace_stay source (S position) (name ++ rest))
    by (done || (subst name; by apply nameUnit_not_space)).
  rewrite (parseVariableName_param source (S position) name rest) by done.
  cbn [bindResult]. apply ahead_app in Hahead.
  destruct rest as [|d rest].
  - rewrite (skipWhitespace_stay source _ [] Hahead) by done.
    apply ahead_nil in Hahead as [-> _]. by rewrite bool_decide_true.
  - destruct (decide (d = c_dot)) as [->|Hne]; [|done].
    rewrite (skipWhitespace_stay source _ _ Hahead) by done.
    apply ahead_cons in Hahead as (-> & _ & _).
    rewrite bool_decide_false; [done|]. by intros [].
Qed.

End CutShort.

(** X26. A lambda that is cut short.  After a parameter, the end of the
    text makes [parse] throw "Expected '.' after lambda parameter" there;
    after the dot, the end of the text makes it throw "Expected variable
    name" there (past the end [currentChar()] is [undefined], which the
    test for a variable start accepts, so [parseVariableName] is what
    fails).  The same holds with a backslash for the lambda. *)
Theorem parse_lambda_cut_short name :
  paramName name = true →
  parse (c_lambda :: name)
  = ThrownError (Parser.error (c_lambda :: name)
                   (str "Expected '.' after lambda parameter") (S (length name)))
  ∧ parse (c_lambda :: name ++ [c_dot])
    = ThrownError (Parser.error (c_lambda :: name ++ [c_dot])
                     (str "Expected variable name") (S (S (length name))))
  ∧ sameOutcome (parse (c_backslash :: name)) (parse (c_lambda :: name))
  ∧ sameOutcome (parse (c_backslash :: name ++ [c_dot]))
                (parse (c_lambda :: name ++ [c_dot])).
Proof.
  intros Hparam.
  destruct (paramName_last name Hparam) as (init & c' & Hlast & Hc').
  assert (∀ text, sameOutcome (parse (c_backslash :: asBackslash text))
                              (parse (c_lambda :: text))) as Hsame.
  { intros text. apply (parse_asBackslash (c_lambda :: text)). }
  assert (asBackslash name = name) as Hname.
  { assert (forallb isNameUnit name = true) as Hall by (by destruct name).
    clear -Hall. unfold asBackslash.
    induction name as [|c name IH]; [done|]. simpl in Hall.
    apply andb_true_iff in Hall as [Hc Hall]. rewrite fmap_cons, (IH Hall).
    f_equal. apply asBackslash_unit. by intros ->. }
  split_and!.
  - unfold parse.
    rewrite (trim_id (c_lambda :: name) c_lambda name (c_lambda :: init) c')
      by (done || by rewrite Hlast).
    set (source := c_lambda :: name).
    assert (ahead source 0 (c_lambda :: name ++ [])) as Hahead.
    { unfold ahead, source. by rewrite app_nil_r. }
    unfold Parser.parse.
    assert (Parser.parseFuel source = S (S (2 * length source))) as ->
      by (unfold Parser.parseFuel; lia).
    rewrite (parseExpr_S source). cbn zeta.
    rewrite (skipWhitespace_stay source 0 _ Hahead) by done.
    by rewrite (parseAtom_lambda source _ 0 name [] Hparam I Hahead).
  - unfold parse.
    rewrite (trim_id (c_lambda :: name ++ [c_dot]) c_lambda (name ++ [c_dot])
               (c_lambda :: name) c_dot) by done.
    set (source := c_lambda :: name ++ [c_dot]).
    assert (ahead source 0 (c_lambda :: name ++ [c_dot])) as Hahead by done.
    assert (ahead source (S (S (length name))) []) as Hend.
    { unfold ahead, source. apply drop_ge. simpl. rewrite length_app. simpl. lia. }
    unfold Parser.parse.
    assert (Parser.parseFuel source = S (S (S (S (2 * length name + 2))))) as ->.
    { unfold Parser.parseFuel, source. simpl. rewrite length_app. simpl. lia. }
    rewrite (parseExpr_S source). cbn zeta.
    rewrite (skipWhitespace_stay source 0 _ Hahead) by done.
    rewrite (parseAtom_lambda source _ 0 name [c_dot] Hparam eq_refl Hahead).
    rewrite decide_True by done. cbn zeta. cbn [Nat.add].
    rewrite (parseExpr_S source). cbn zeta.
    rewrite (skipWhitespace_stay source _ [] Hend) by done.
    rewrite (parseAtom_S source). cbn zeta.
    rewrite (skipWhitespace_stay source _ [] Hend) by done.
    rewrite (parseVariableName_at_end source _ Hend).
    apply ahead_nil in Hend as [-> _]. done.
  - specialize (Hsame name). by rewrite Hname in Hsame.
  - specialize (Hsame (name ++ [c_dot])). unfold asBackslash in Hsame.
    rewrite fmap_app in Hsame. fold (asBackslash name) in Hsame.
    by rewrite Hname in Hsame.
Qed.

Lemma parse_lambda_cut_short_witness :
  parse (c_lambda :: str "x")
  = ThrownError (Parser.error (c_lambda :: str "x")
                   (str "Expected '.' after lambda parameter") 2)
  ∧ parse (c_lambda :: str "x" ++ [c_dot])
    = ThrownError (Parser.error (c_lambda :: str "x" ++ [c_dot])
                     (str "Expected variable name") 3)
  ∧ sameOutcome (parse (c_backslash :: str "x")) (parse (c_lambda :: str "x"))
  ∧ sameOutcome (parse (c_backslash :: str "x" ++ [c_dot]))
                (parse (c_lambda :: str "x" ++ [c_dot])).
Proof. apply (parse_lambda_cut_short (str "x")). by vm_compute. Defined.
